(** * all_thing_downloader_bot: job registry, menu, selection and delivery

    A shallow embedding of [@all_thing_downloader_bot.py] and the
    properties of its job registry, resolution menu, callback parser,
    format-expression builder and delivery loop.

    Text is modelled by [string] (8-bit characters); the builtins of
    Python that the bot calls ([str.split], [int], [str] of an integer,
    [secrets.token_urlsafe]) are modelled in [Module Py] for ASCII text. *)

From Stdlib Require Import ZArith Ascii String DecimalString.
From Stdlib Require DecimalZ.
From stdpp Require Import base list gmap sorting strings.

Local Open Scope string_scope.
Local Open Scope Z_scope.

(* ===================================================================== *)
(** * Part I: definitions                                                *)
(* ===================================================================== *)

(** ** Python builtins used by the bot *)

Module Py.

(** [str(z)] and [f"{z}"] for an integer. *)
Definition str (z : Z) : string := NilZero.string_of_int (Z.to_int z).

(** Characters of a string, as a list. *)
Fixpoint chars (s : string) : list ascii :=
  match s with
  | EmptyString => []
  | String c s' => c :: chars s'
  end.

(** [s.split(sep)] with a one-character separator. *)
Fixpoint split (sep : ascii) (s : string) : list string :=
  match s with
  | EmptyString => [EmptyString]
  | String c s' =>
      if Ascii.eqb c sep then EmptyString :: split sep s'
      else match split sep s' with
           | [] => [String c EmptyString]
           | x :: xs => String c x :: xs
           end
  end.

(** [s.split(sep, maxsplit)]: at most [maxsplit] cuts, from the left. *)
Fixpoint split_max (sep : ascii) (maxsplit : nat) (s : string) : list string :=
  match maxsplit with
  | O => [s]
  | S m =>
      match s with
      | EmptyString => [EmptyString]
      | String c s' =>
          if Ascii.eqb c sep then EmptyString :: split_max sep m s'
          else match split_max sep maxsplit s' with
               | [] => [String c EmptyString]
               | x :: xs => String c x :: xs
               end
      end
  end.

(** [s.startswith(p)]. *)
Fixpoint startswith (p s : string) : bool :=
  match p, s with
  | EmptyString, _ => true
  | String a p', String b s' => Ascii.eqb a b && startswith p' s'
  | String _ _, EmptyString => false
  end.

(** [p in s] for strings (substring test). *)
Fixpoint contains (p s : string) : bool :=
  startswith p s ||
  match s with
  | EmptyString => false
  | String _ s' => contains p s'
  end.

(** Whitespace in the ASCII range, as [str.isspace] and [\s] see it.
    Text is kept as UTF-8 bytes: the whitespace of Unicode beyond ASCII
    (U+0085, U+00A0, ...) is not covered, so statements that depend on
    it are made for ASCII text. *)
Definition isspace (c : ascii) : bool :=
  let n := nat_of_ascii c in
  ((9 <=? n) && (n <=? 13) || (28 <=? n) && (n <=? 32))%nat.

Definition isdigit (c : ascii) : bool :=
  let n := nat_of_ascii c in ((48 <=? n) && (n <=? 57))%nat.

Definition digit_value (c : ascii) : Z := Z.of_nat (nat_of_ascii c) - 48.

(** The whitespace that [int] skips around an ASCII numeral (tab to
    carriage return, and the space). *)
Definition int_space (c : ascii) : bool :=
  let n := nat_of_ascii c in
  ((9 <=? n) && (n <=? 13) || (n =? 32))%nat.

Fixpoint lstrip (s : string) : string :=
  match s with
  | String c s' => if int_space c then lstrip s' else s
  | EmptyString => EmptyString
  end.

(** Drops trailing whitespace. *)
Fixpoint rstrip (s : string) : string :=
  match s with
  | EmptyString => EmptyString
  | String c s' =>
      match rstrip s' with
      | EmptyString => if int_space c then EmptyString else String c EmptyString
      | r => String c r
      end
  end.

(** Digits with single underscores between them; [after_digit] tells
    whether the previous character was a digit, [acc] is the value read
    so far.  A leading, trailing or doubled underscore is refused. *)
Fixpoint int_digits (after_digit : bool) (acc : Z) (s : string) : option Z :=
  match s with
  | EmptyString => if after_digit then Some acc else None
  | String c s' =>
      if isdigit c then int_digits true (10 * acc + digit_value c) s'
      else if Ascii.eqb c "_" && after_digit then
             match s' with
             | String d _ => if isdigit d then int_digits false acc s' else None
             | EmptyString => None
             end
           else None
  end.

(** [int(s)] in base ten: [None] stands for [ValueError].  Surrounding
    whitespace is dropped, one sign is allowed.  This is [int] on ASCII
    text of at most 4300 digits: the decimal digits and spaces of
    Unicode beyond ASCII are not read, and the limit of [int] on the
    number of digits is not enforced. *)
Definition int (s : string) : option Z :=
  match rstrip (lstrip s) with
  | EmptyString => None
  | String c d as t =>
      if Ascii.eqb c "-" then Z.opp <$> int_digits false 0 d
      else if Ascii.eqb c "+" then int_digits false 0 d
      else int_digits false 0 t
  end.

(** A value found under a key of an extractor dictionary. *)
Inductive value :=
| VNone                (* the key is missing, or holds None *)
| VBool (b : bool)
| VInt (z : Z)
| VOther.              (* a float, a string, a list, ... *)

(** The integer behind a value for which [isinstance(v, int)] holds
    ([bool] is a subclass of [int]: [True == 1], [False == 0]). *)
Definition as_int (v : value) : option Z :=
  match v with
  | VInt z => Some z
  | VBool b => Some (if b then 1 else 0)
  | VNone | VOther => None
  end.

End Py.

(** ** Utilities *)

(** [build_format_string(height)]; [not height] holds for [None] and [0]. *)
Definition build_format_string (height : option Z) : string :=
  match height with
  | None => "bestvideo*+bestaudio/best"
  | Some h =>
      if bool_decide (h = 0) then "bestvideo*+bestaudio/best"
      else "bestvideo*[height<=?" ++ Py.str h ++ "]+bestaudio/best[height<=?"
             ++ Py.str h ++ "]"
  end.

(** A format descriptor of the extractor: only its ["height"] entry is read. *)
Record format := { fmt_height : Py.value }.

#[global] Instance value_eq_dec : EqDecision Py.value.
Proof. solve_decision. Defined.

#[global] Instance format_eq_dec : EqDecision format.
Proof. solve_decision. Defined.

(** [unique_sorted_heights(formats)]: a set comprehension, a list
    comprehension over the set (in the set's own iteration order), and
    [list.sort()]. *)
Definition height_set (formats : list format) : gset Z :=
  list_to_set (omap (fun f => Py.as_int (fmt_height f)) formats).

Definition unique_sorted_heights (formats : list format) : list Z :=
  let heights := height_set formats in
  let heights := filter (fun h => h ≠ 0 ∧ 240 ≤ h) (elements heights) in
  merge_sort Z.le heights.

(** [secrets.token_urlsafe]: URL-safe base64 of random bytes, padding
    stripped.  The random source is an explicit stream of bytes. *)
Module Secrets.

Definition alphabet : list ascii :=
  Py.chars "ABCDEFGHIJKLMNOPQRSTUVWXYZabcdefghijklmnopqrstuvwxyz0123456789-_".

(** The character of a 6-bit group. *)
Definition sextet_char (n : N) : ascii :=
  nth (N.to_nat n) alphabet "="%char.

Fixpoint string_of_chars (l : list ascii) : string :=
  match l with
  | [] => EmptyString
  | c :: l' => String c (string_of_chars l')
  end.

(** The 6-bit groups of three bytes, of two bytes and of one byte (the
    last group is filled up with zero bits). *)
Definition group3 (b0 b1 b2 : Byte.byte) : list N :=
  let n := (Byte.to_N b0 * 65536 + Byte.to_N b1 * 256 + Byte.to_N b2)%N in
  [n / 262144; (n / 4096) mod 64; (n / 64) mod 64; n mod 64]%N.

Definition group2 (b0 b1 : Byte.byte) : list N :=
  let n := ((Byte.to_N b0 * 256 + Byte.to_N b1) * 4)%N in
  [n / 4096; (n / 64) mod 64; n mod 64]%N.

Definition group1 (b0 : Byte.byte) : list N :=
  let n := (Byte.to_N b0 * 16)%N in
  [n / 64; n mod 64]%N.

Definition encode_group (sextets : list N) : string :=
  string_of_chars (sextet_char <$> sextets).

(** [base64.urlsafe_b64encode]: three bytes give four characters; a
    last group of one or two bytes is padded with [=]. *)
Fixpoint urlsafe_b64encode (bs : list Byte.byte) : string :=
  match bs with
  | [] => EmptyString
  | [b0] => encode_group (group1 b0) ++ "=="
  | [b0; b1] => encode_group (group2 b0 b1) ++ "="
  | b0 :: b1 :: b2 :: rest =>
      encode_group (group3 b0 b1 b2) ++ urlsafe_b64encode rest
  end.

(** [.rstrip(b'=')]. *)
Fixpoint rstrip_pad (s : string) : string :=
  match s with
  | EmptyString => EmptyString
  | String c s' =>
      match rstrip_pad s' with
      | EmptyString => if Ascii.eqb c "=" then EmptyString else String c EmptyString
      | r => String c r
      end
  end.

(** [secrets.token_bytes(nbytes)]: the next [nbytes] bytes of the source. *)
Definition token_bytes (nbytes : nat) (source : nat → Byte.byte) : list Byte.byte :=
  map source (seq 0 nbytes).

Definition token_urlsafe (nbytes : nat) (source : nat → Byte.byte) : string :=
  rstrip_pad (urlsafe_b64encode (token_bytes nbytes source)).

(** The 6-bit groups of an 8-byte token. *)
Definition sextets8 (source : nat → Byte.byte) : list N :=
  (group3 (source 0%nat) (source 1%nat) (source 2%nat)
   ++ group3 (source 3%nat) (source 4%nat) (source 5%nat)
   ++ group2 (source 6%nat) (source 7%nat))%list.

(** The characters that need no escaping in a URL, as the alphabet has them. *)
Definition url_safe_char (c : ascii) : bool :=
  let n := nat_of_ascii c in
  ((65 <=? n) && (n <=? 90) || (97 <=? n) && (n <=? 122)
   || (48 <=? n) && (n <=? 57) || (n =? 45) || (n =? 95))%nat.

End Secrets.

(** The selector syntax of the extraction engine, as far as the format
    strings of this bot use it: alternatives are separated by [/] (the
    first one that yields something is taken), the streams to merge by
    [+], and a selector is a name followed by filters in brackets. *)
Module FormatExpr.

Record selector := { sel_name : string; sel_filters : list string }.

(** The text before the first [c]. *)
Fixpoint before (c : ascii) (s : string) : string :=
  match s with
  | EmptyString => EmptyString
  | String a s' => if Ascii.eqb a c then EmptyString else String a (before c s')
  end.

Definition parse_selector (s : string) : selector :=
  match Py.split "[" s with
  | [] => {| sel_name := EmptyString; sel_filters := [] |}
  | name :: fs => {| sel_name := name; sel_filters := map (before "]") fs |}
  end.

(** Alternatives, each a list of streams to merge. *)
Definition parse (fmt : string) : list (list selector) :=
  map (fun alt => map parse_selector (Py.split "+" alt)) (Py.split "/" fmt).

(** The filter [height<=?h]: the stream's height is at most [h], or unknown. *)
Definition height_filter (h : Z) : string := "height<=?" ++ Py.str h.

Definition height_capped (h : Z) (s : selector) : Prop :=
  height_filter h ∈ sel_filters s.

Definition unconstrained (s : selector) : Prop := sel_filters s = [].

End FormatExpr.

(** ** Values passed around by the handlers *)

(** Exceptions, as far as the handlers tell them apart: [telegram.error.TimedOut]
    and every other subclass of [Exception]. *)
Inductive exn := TimedOut | OtherError.

(** A [tempfile.TemporaryDirectory] handle, identified by its path. *)
Record TemporaryDirectory := { dir_name : string }.

#[global] Instance exn_eq_dec : EqDecision exn.
Proof. solve_decision. Defined.

#[global] Instance TemporaryDirectory_eq_dec : EqDecision TemporaryDirectory.
Proof. solve_decision. Defined.

(** A job of the store: [{"url": url, "tmpdir": tmpdir}]. *)
Record job := { job_url : string; job_tmpdir : TemporaryDirectory }.

#[global] Instance job_eq_dec : EqDecision job.
Proof. solve_decision. Defined.

(** The store [user_data["dl_store"]]: a dictionary keeps its keys in the
    order of their first insertion, so it is an association list with
    distinct keys, oldest first. *)
Definition dl_store := list (string * job).

Definition keys (store : dl_store) : list string := store.*1.

Definition dict_wf (store : dl_store) : Prop := NoDup (keys store).

(** [store.get(k)]. *)
Fixpoint dict_get (k : string) (store : dl_store) : option job :=
  match store with
  | [] => None
  | (k', v) :: rest => if bool_decide (k' = k) then Some v else dict_get k rest
  end.

(** [store[k] = v]: a key already present keeps its place, a new key goes last. *)
Fixpoint dict_set (k : string) (v : job) (store : dl_store) : dl_store :=
  match store with
  | [] => [(k, v)]
  | (k', v') :: rest =>
      if bool_decide (k' = k) then (k', v) :: rest else (k', v') :: dict_set k v rest
  end.

(** [store.pop(k, None)]: the value and the store without the key. *)
Fixpoint dict_pop (k : string) (store : dl_store) : option job * dl_store :=
  match store with
  | [] => (None, [])
  | (k', v) :: rest =>
      if bool_decide (k' = k) then (Some v, rest)
      else let '(r, rest') := dict_pop k rest in (r, (k', v) :: rest')
  end.

(** The result of the extractor, as far as the bot reads it: the format
    descriptors, the title, the id and the display id (an empty string
    stands for a missing or empty entry), and for a collection its
    entries, which are results of the same shape. *)
Record media := {
  m_formats : list format;
  m_title : string;
  m_id : string;
  m_display_id : string
}.

Record info := { entries : list media; root : media }.

(** [if "entries" in info and ... and info["entries"]: info = info["entries"][0]]. *)
Definition first_entry (i : info) : media :=
  match entries i with
  | [] => root i
  | e :: _ => e
  end.

(** [a or b] on strings. *)
Definition str_or (a b : string) : string :=
  match a with EmptyString => b | _ => a end.

(** The default title, [info.get("title") or "Видео"]. *)
Definition default_title : string := "Видео".

(** [s[:n]]. *)
Fixpoint str_take (n : nat) (s : string) : string :=
  match n, s with
  | S n', String c s' => String c (str_take n' s')
  | _, _ => EmptyString
  end.

(** [s[:n]] counted in characters, on text kept as UTF-8 bytes: a byte
    from 128 to 191 continues the character before it. *)
Fixpoint utf8_take (n : nat) (s : string) : string :=
  match s with
  | EmptyString => EmptyString
  | String c s' =>
      if ((128 <=? nat_of_ascii c) && (nat_of_ascii c <=? 191))%nat
      then String c (utf8_take n s')
      else match n with
           | O => EmptyString
           | S n' => String c (utf8_take n' s')
           end
  end.

(** [s[n:]]. *)
Fixpoint str_drop (n : nat) (s : string) : string :=
  match n, s with
  | S n', String _ s' => str_drop n' s'
  | _, _ => s
  end.

(** ** The resolution menu *)

Record InlineKeyboardButton := { btn_text : string; callback_data : string }.

#[global] Instance InlineKeyboardButton_eq_dec : EqDecision InlineKeyboardButton.
Proof. solve_decision. Defined.

Definition wanted : list Z := [240; 360; 480; 720; 1080; 1440; 2160].

(** Lines 205-208 of [handle_text]. *)
Definition display_heights (heights : list Z) : list Z :=
  match filter (fun h => h ∈ heights) wanted with
  | [] => if bool_decide (3 < length heights)%nat
          then drop (length heights - 3) heights
          else heights
  | shown => shown
  end.

Definition height_button (token : string) (h : Z) : InlineKeyboardButton :=
  {| btn_text := Py.str h ++ "p";
     callback_data := "dl|" ++ token ++ "|h" ++ Py.str h |}.

Definition best_button (token : string) : InlineKeyboardButton :=
  {| btn_text := "Лучшее"; callback_data := "dl|" ++ token ++ "|best" |}.

(** The loop of lines 210-215: [row] is the row being filled, [buttons]
    the rows already complete. *)
Fixpoint fill_rows (token : string) (hs : list Z)
    (row : list InlineKeyboardButton) (buttons : list (list InlineKeyboardButton))
  : list (list InlineKeyboardButton) * list InlineKeyboardButton :=
  match hs with
  | [] => (buttons, row)
  | h :: hs' =>
      let row := (row ++ [height_button token h])%list in
      if bool_decide (length row = 3%nat)
      then fill_rows token hs' [] (buttons ++ [row])%list
      else fill_rows token hs' row buttons
  end.

(** Lines 204-218 of [handle_text]: the keyboard for a token and the
    candidate heights. *)
Definition menu_buttons (token : string) (heights : list Z)
  : list (list InlineKeyboardButton) :=
  let '(buttons, row) := fill_rows token (display_heights heights) [] [] in
  let buttons := match row with [] => buttons | _ => (buttons ++ [row])%list end in
  (buttons ++ [[best_button token]])%list.

(** ** Effects: the calls a handler makes, and what they answer *)

(** The texts the bot shows, by the place of the source that sends them. *)
Inductive status :=
| AskForLink                      (* line 179 *)
| Analysing                       (* line 182 *)
| ProbeFailed                     (* line 190 *)
| Menu (url title : string) (buttons : list (list InlineKeyboardButton)) (* line 220 *)
| AnalysisError (e : exn)         (* line 228 *)
| InvalidButtonData               (* line 269 *)
| SelectionExpired                (* line 275 *)
| NoJobData                       (* line 281 *)
| Downloading (url : string)      (* line 301 *)
| NoData                          (* line 309 *)
| FileNotFound                    (* line 318 *)
| Ready                           (* line 325 *)
| SendFailed (e : exn)            (* line 328 *)
| DownloadFailed (e : exn).       (* line 333 *)

(** The calls that leave the handler, in the order they are made. *)
Inductive event :=
| EAnswer                                     (* query.answer() *)
| EReplyText (s : status)                     (* message.reply_text *)
| EEditText (s : status)                      (* status.edit_text, query.edit_message_text *)
| EExtract (url : string) (download : bool) (fmt : option string)
           (target_dir : TemporaryDirectory)  (* ytdlp_extract *)
| ECleanup (d : TemporaryDirectory)           (* tmpdir.cleanup() *)
| ESendAction                                 (* chat.send_action *)
| EReplyVideo (file caption : string)
| EReplyDocument (file caption : string)
| ESleep (seconds : Z).                       (* asyncio.sleep *)

(** What a call gives back: a value, or an exception. *)
Inductive result (A : Type) :=
| Ret (a : A)
| Raise (e : exn).
Arguments Ret {A} a.
Arguments Raise {A} e.

(** The answers of the outside world to the calls of one handler run.
    [w_reply_video] and [w_reply_document] answer by attempt number. *)
Record world := {
  w_answer : result unit;
  w_reply_text : status → result unit;
  w_edit_text : status → result unit;
  w_mkdtemp : TemporaryDirectory;
  w_entropy : nat → Byte.byte;
  w_extract : bool → result (option info);
  w_cleanup : TemporaryDirectory → result unit;
  w_iterdir : TemporaryDirectory → result (list string);
  w_exists : string → bool;
  w_send_action : result unit;
  w_reply_video : nat → result unit;
  w_reply_document : nat → result unit
}.

(** The state a handler runs in: [context.user_data] (its ["dl_store"]
    entry, [None] while the key is missing) and the calls made so far. *)
Record state := { user_data : option dl_store; trace : list event }.

(** Computations: state passing with exceptions; the state survives a
    raise, as in Python. *)
Definition M (A : Type) : Type := state → state * result A.

Definition ret {A} (a : A) : M A := fun st => (st, Ret a).

Definition raise {A} (e : exn) : M A := fun st => (st, Raise e).

Definition bind {A B} (m : M A) (k : A → M B) : M B :=
  fun st =>
    match m st with
    | (st', Ret a) => k a st'
    | (st', Raise e) => (st', Raise e)
    end.

(** [try: m  except Exception as e: h e]. *)
Definition try_except {A} (m : M A) (h : exn → M A) : M A :=
  fun st =>
    match m st with
    | (st', Ret a) => (st', Ret a)
    | (st', Raise e) => h e st'
    end.

(** [try: m  finally: f]: [f] runs on every exit from [m]; what [f]
    raises replaces the outcome of [m]. *)
Definition try_finally {A} (m : M A) (f : M unit) : M A :=
  fun st =>
    match m st with
    | (st', r) =>
        match f st' with
        | (st'', Ret _) => (st'', r)
        | (st'', Raise e) => (st'', Raise e)
        end
    end.

(** A call to the outside: it is recorded, then answers. *)
Definition call {A} (ev : event) (answer : result A) : M A :=
  fun st => ({| user_data := user_data st; trace := trace st ++ [ev] |}, answer).

#[global] Instance M_ret : MRet M := @ret.
#[global] Instance M_bind : MBind M := fun A B k m => bind m k.

(** [try: m  except Exception: pass]. *)
Definition ignoring_errors (m : M unit) : M unit :=
  try_except m (fun _ => ret tt).

Definition cleanup (w : world) (d : TemporaryDirectory) : M unit :=
  call (ECleanup d) (w_cleanup w d).

Definition reply_text (w : world) (s : status) : M unit :=
  call (EReplyText s) (w_reply_text w s).

Definition edit_text (w : world) (s : status) : M unit :=
  call (EEditText s) (w_edit_text w s).

(** [ytdlp_extract(url, download, fmt, target_dir)]. *)
Definition ytdlp_extract (w : world) (url : string) (download : bool)
    (fmt : option string) (target_dir : TemporaryDirectory) : M (option info) :=
  call (EExtract url download fmt target_dir) (w_extract w download).

(** How often [d.cleanup()] was called in a trace. *)
Definition is_cleanup (d : TemporaryDirectory) (ev : event) : bool :=
  match ev with
  | ECleanup d' => bool_decide (d' = d)
  | _ => false
  end.

Definition releases (d : TemporaryDirectory) (tr : list event) : nat :=
  length (filter (fun ev => is_cleanup d ev) tr).

Definition is_extract (ev : event) : bool :=
  match ev with
  | EExtract _ _ _ _ => true
  | _ => false
  end.

(** ** The job store *)

(** The loop of lines 143-149: each key is popped and the job's
    directory cleaned up, whatever [cleanup] raises. *)
Fixpoint evict (w : world) (ks : list string) (store : dl_store) : M dl_store :=
  match ks with
  | [] => ret store
  | k :: ks' =>
      let '(j, store) := dict_pop k store in
      ignoring_errors
        (match j with
         | Some j => cleanup w (job_tmpdir j)
         | None => ret tt
         end);;
      evict w ks' store
  end.

(** [store_new_job(user_data, url, tmpdir)]. *)
Definition store_new_job (w : world) (url : string) (tmpdir : TemporaryDirectory)
  : M string :=
  fun st =>
    let store := default [] (user_data st) in
    let token := Secrets.token_urlsafe 8 (w_entropy w) in
    let store := dict_set token {| job_url := url; job_tmpdir := tmpdir |} store in
    let st := {| user_data := Some store; trace := trace st |} in
    if bool_decide (50 < length store)%nat then
      match evict w (take (length store - 50) (keys store)) store st with
      | (st', Ret store') =>
          ({| user_data := Some store'; trace := trace st' |}, Ret token)
      | (st', Raise e) => (st', Raise e)
      end
    else (st, Ret token).

(** [pop_job(user_data, token)]: [user_data.get("dl_store") or {}] is a
    fresh dictionary when the key is missing or the store is empty. *)
Definition pop_job (token : string) : M (option job) :=
  fun st =>
    match user_data st with
    | None | Some [] => (st, Ret None)
    | Some store =>
        let '(j, store') := dict_pop token store in
        ({| user_data := Some store'; trace := trace st |}, Ret j)
    end.

(** ** Utilities that touch the file system *)

(** [pick_filename_from_dir(target_dir, media_id)] on the names that
    [iterdir] lists. *)
Definition pick_filename (files : list string) (media_id : string) : option string :=
  match files with
  | [] => None
  | first :: _ =>
      match media_id with
      | EmptyString => Some first
      | _ => match filter (fun p => Py.contains media_id p) files with
             | p :: _ => Some p
             | [] => Some first
             end
      end
  end.

Definition pick_filename_from_dir (w : world) (target_dir : TemporaryDirectory)
    (media_id : string) : M (option string) :=
  fun st =>
    match w_iterdir w target_dir with
    | Ret files => (st, Ret (pick_filename files media_id))
    | Raise e => (st, Raise e)
    end.

(** ** Delivery *)

(** Which reply went through. *)
Inductive sent := AsVideo | AsDocument.

(** How one turn of a [for] loop ends. *)
Inductive loop_exit := Return (s : sent) | Break | Continue.

(** One turn of the first loop (lines 241-249).  Opening the file and
    the reply are one call: an error of either is caught by the same
    clauses. *)
Definition video_attempt (w : world) (file caption : string) (attempt : nat)
  : M loop_exit :=
  try_except
    (call (EReplyVideo file caption) (w_reply_video w attempt);;
     ret (Return AsVideo))
    (fun e =>
       match e with
       | TimedOut =>
           if bool_decide (attempt = 2%nat) then ret Break
           else call (ESleep (2 * (Z.of_nat attempt + 1))) (Ret tt);; ret Continue
       | OtherError => ret Break
       end).

(** The first loop over the attempts still to make: [Some AsVideo] is
    the [return], [None] a [break] or the end of the loop. *)
Fixpoint video_attempts (w : world) (file caption : string) (attempts : list nat)
  : M (option sent) :=
  match attempts with
  | [] => ret None
  | attempt :: rest =>
      x ← video_attempt w file caption attempt;
      match x with
      | Return s => ret (Some s)
      | Break => ret None
      | Continue => video_attempts w file caption rest
      end
  end.

(** One turn of the second loop (lines 253-259): a timeout on attempt 2
    is raised again, any other exception is not caught at all. *)
Definition document_attempt (w : world) (file caption : string) (attempt : nat)
  : M loop_exit :=
  try_except
    (call (EReplyDocument file caption) (w_reply_document w attempt);;
     ret (Return AsDocument))
    (fun e =>
       match e with
       | TimedOut =>
           if bool_decide (attempt = 2%nat) then raise TimedOut
           else call (ESleep (2 * (Z.of_nat attempt + 1))) (Ret tt);; ret Continue
       | OtherError => raise OtherError
       end).

Fixpoint document_attempts (w : world) (file caption : string) (attempts : list nat)
  : M (option sent) :=
  match attempts with
  | [] => ret None
  | attempt :: rest =>
      x ← document_attempt w file caption attempt;
      match x with
      | Return s => ret (Some s)
      | Break => ret None
      | Continue => document_attempts w file caption rest
      end
  end.

(** [_send_with_retries_as_video_or_doc(message, file_path, caption)];
    [range(3)] is [seq 0 3]. *)
Definition _send_with_retries_as_video_or_doc (w : world) (file caption : string)
  : M (option sent) :=
  ignoring_errors (call ESendAction (w_send_action w));;
  r ← video_attempts w file caption (seq 0 3);
  match r with
  | Some out => ret (Some out)
  | None => document_attempts w file caption (seq 0 3)
  end.

(** ** Handlers *)

(** The first match of [URL_RE = (https?://[^\s]+)], case-insensitive,
    for ASCII text: [lower] folds the case of the ASCII letters only
    (with [re.IGNORECASE], U+017F also matches [s]). *)
Definition lower (c : ascii) : ascii :=
  let n := nat_of_ascii c in
  if ((65 <=? n) && (n <=? 90))%nat then ascii_of_nat (n + 32) else c.

(** [s] starts with [p], letters compared without case; gives the rest. *)
Fixpoint strip_prefix_nocase (p s : string) : option string :=
  match p, s with
  | EmptyString, _ => Some s
  | String a p', String b s' =>
      if Ascii.eqb a (lower b) then strip_prefix_nocase p' s' else None
  | String _ _, EmptyString => None
  end.

(** The longest run of characters that are not whitespace. *)
Fixpoint non_space_run (s : string) : string :=
  match s with
  | EmptyString => EmptyString
  | String c s' => if Py.isspace c then EmptyString else String c (non_space_run s')
  end.

(** The length of the scheme and [://] when the pattern starts here. *)
Definition scheme_length (s : string) : option nat :=
  match strip_prefix_nocase "https://" s with
  | Some rest => match non_space_run rest with
                 | EmptyString => None
                 | _ => Some 8%nat
                 end
  | None =>
      match strip_prefix_nocase "http://" s with
      | Some rest => match non_space_run rest with
                     | EmptyString => None
                     | _ => Some 7%nat
                     end
      | None => None
      end
  end.

Fixpoint url_search (s : string) : option string :=
  match scheme_length s with
  | Some n => Some (str_take n s ++ non_space_run (str_drop n s))
  | None => match s with
            | EmptyString => None
            | String _ s' => url_search s'
            end
  end.

(** [extract_first_url(text)]. *)
Definition extract_first_url (text : string) : option string :=
  match text with
  | EmptyString => None
  | _ => url_search text
  end.

(** An incoming message: its text and its caption. *)
Record Message := { msg_text : option string; msg_caption : option string }.

(** [handle_text(update, context)]; [message] is [update.message]. *)
Definition handle_text (w : world) (message : option Message) : M unit :=
  match message with
  | None => ret tt
  | Some m =>
      let text := str_or (default "" (msg_text m)) (default "" (msg_caption m)) in
      match extract_first_url text with
      | None => reply_text w AskForLink
      | Some url =>
          reply_text w Analysing;;
          let tmpdir := w_mkdtemp w in
          try_except
            (info ← ytdlp_extract w url false None tmpdir;
             match info with
             | None => edit_text w ProbeFailed;; cleanup w tmpdir
             | Some info =>
                 let info := first_entry info in
                 let heights := unique_sorted_heights (m_formats info) in
                 let title := str_or (m_title info) default_title in
                 token ← store_new_job w url tmpdir;
                 edit_text w (Menu url title (menu_buttons token heights))
             end)
            (fun e => edit_text w (AnalysisError e);; cleanup w tmpdir)
      end
  end.

(** Lines 289-298 of [on_download_choice]. *)
Definition chosen_height (mode : string) : option Z :=
  if bool_decide (mode = "best") then None
  else if Py.startswith "h" mode then Py.int (str_drop 1 mode)
  else None.

(** A callback query: [query.data]. *)
Record CallbackQuery := { data : option string }.

(** Lines 305-340 of [on_download_choice]: the download and the
    delivery, inside [try ... except ... finally]. *)
Definition fetch_and_deliver (w : world) (url : string) (tmpdir : TemporaryDirectory)
    (height : option Z) : M unit :=
  try_finally
    (try_except
       (let fmt := build_format_string height in
        info ← ytdlp_extract w url true (Some fmt) tmpdir;
        match info with
        | None => edit_text w NoData
        | Some info =>
            let info := first_entry info in
            let media_id := str_or (m_id info) (m_display_id info) in
            file_path ← pick_filename_from_dir w tmpdir media_id;
            match file_path with
            | None => edit_text w FileNotFound
            | Some file_path =>
                if negb (w_exists w file_path) then edit_text w FileNotFound
                else
                  let caption := utf8_take 900 (str_or (m_title info) default_title) in
                  try_except
                    (_send_with_retries_as_video_or_doc w file_path caption;;
                     edit_text w Ready)
                    (fun e_send => edit_text w (SendFailed e_send))
            end
        end)
       (fun e => ignoring_errors (edit_text w (DownloadFailed e))))
    (ignoring_errors (cleanup w tmpdir)).

(** Lines 272-340 of [on_download_choice]: what happens once the
    payload is split into a token and a mode. *)
Definition selection (w : world) (token mode : string) : M unit :=
  j ← pop_job token;
  match j with
  | None => edit_text w SelectionExpired
  | Some j =>
      let url := job_url j in
      let tmpdir := job_tmpdir j in
      if bool_decide (url = "") then
        edit_text w NoJobData;;
        ignoring_errors (cleanup w tmpdir)
      else
        let height := chosen_height mode in
        edit_text w (Downloading url);;
        fetch_and_deliver w url tmpdir height
  end.

(** [on_download_choice(update, context)]; [query] is [update.callback_query]. *)
Definition on_download_choice (w : world) (query : option CallbackQuery) : M unit :=
  match query with
  | None => ret tt
  | Some q =>
      call EAnswer (w_answer w);;
      match Py.split_max "|" 2 (default "" (data q)) with
      | [tag; token; mode] =>
          if negb (bool_decide (tag = "dl")) then edit_text w InvalidButtonData
          else selection w token mode
      | _ => edit_text w InvalidButtonData
      end
  end.

(** ** Notions used in the statements *)

(** A run of insertions: each call of [store_new_job] has its own
    random bytes and its own answers of [cleanup]. *)
Fixpoint store_all (calls : list (world * string * TemporaryDirectory))
  : M (list string) :=
  match calls with
  | [] => ret []
  | (w, url, tmpdir) :: rest =>
      token ← store_new_job w url tmpdir;
      tokens ← store_all rest;
      ret (token :: tokens)
  end.

(** The token a call draws, and the entry it writes. *)
Definition token_of (w : world) : string := Secrets.token_urlsafe 8 (w_entropy w).

Definition entry_of (c : world * string * TemporaryDirectory) : string * job :=
  let '(w, url, tmpdir) := c in
  (token_of w, {| job_url := url; job_tmpdir := tmpdir |}).

(** The store of a state, [{}] while the key is missing. *)
Definition store_of (st : state) : dl_store := default [] (user_data st).

(** The events a run added to the trace. *)
Definition extend (st : state) (evs : list event) : state :=
  {| user_data := user_data st; trace := trace st ++ evs |}.

(** [n] replies that time out, each followed by its backoff sleep. *)
Fixpoint timeouts (reply : event) (first n : nat) : list event :=
  match n with
  | O => []
  | S n' => reply :: ESleep (2 * (Z.of_nat first + 1)) :: timeouts reply (S first) n'
  end.

(** A mode that asks for a height: [h] followed by what [int] reads as
    an integer other than zero. *)
Definition height_mode (mode : string) : Prop :=
  ∃ digits z, mode = String "h" digits ∧ Py.int digits = Some z ∧ z ≠ 0.

Definition ascii_text (s : string) : Prop :=
  Forall (fun c => (nat_of_ascii c < 128)%nat) (Py.chars s).

(** The fields of a payload, and a payload that does not have the shape
    [dl|token|mode]: another number of fields than three, or another tag. *)
Definition fields (payload : string) : list string := Py.split "|" payload.

Definition wrong_shape (payload : string) : Prop :=
  length (fields payload) ≠ 3%nat ∨ head (fields payload) ≠ Some "dl".

(** The format expression the specification describes for a height:
    video and audio both capped, and a fallback without any cap. *)
Definition capped_pair_with_free_fallback (h : Z) (fmt : string) : Prop :=
  ∃ video audio fallback,
    FormatExpr.parse fmt = [[video; audio]; [fallback]] ∧
    FormatExpr.height_capped h video ∧
    FormatExpr.height_capped h audio ∧
    FormatExpr.unconstrained fallback.

(** The token of [store_new_job] is never a key the store already has. *)
Definition token_always_fresh : Prop :=
  ∀ w url tmpdir st token,
    dict_wf (store_of st) →
    (store_new_job w url tmpdir st).2 = Ret token →
    token ∉ keys (store_of st).

(** The characters of the decimal text of an integer: digits, and the
    minus sign. *)
Definition numeral_char (c : ascii) : Prop := Py.isdigit c = true ∨ c = "-"%char.

(** The releases of the directories of a list of entries, in order. *)
Definition cleanups (evicted : dl_store) : list event :=
  (fun e => ECleanup (job_tmpdir e.2)) <$> evicted.

(** A computation that leaves [user_data] alone and adds to the trace
    only events that satisfy [P]. *)
Definition emits (P : event → Prop) {A} (m : M A) : Prop :=
  ∀ st, ∃ evs, (m st).1 = extend st evs ∧ Forall P evs.

(** The events of the download and the delivery, apart from the request
    to the extractor and the release of the directory. *)
Definition delivery_event (ev : event) : Prop :=
  match ev with
  | EEditText (NoData | FileNotFound | Ready | SendFailed _ | DownloadFailed _)
  | ESendAction | EReplyVideo _ _ | EReplyDocument _ _ | ESleep _ => True
  | _ => False
  end.

(** ** Sample inputs *)

(** A world in which every call succeeds, the extractor finds one video
    and the random source gives the byte [b] throughout. *)
Definition calm_world (b : Byte.byte) (d : TemporaryDirectory) : world :=
  {| w_answer := Ret tt;
     w_reply_text := fun _ => Ret tt;
     w_edit_text := fun _ => Ret tt;
     w_mkdtemp := d;
     w_entropy := fun _ => b;
     w_extract := fun _ =>
       Ret (Some {| entries := [];
                    root := {| m_formats := []; m_title := "Clip";
                               m_id := "clip123"; m_display_id := "" |} |});
     w_cleanup := fun _ => Ret tt;
     w_iterdir := fun _ => Ret ["clip123.mp4"];
     w_exists := fun _ => true;
     w_send_action := Ret tt;
     w_reply_video := fun _ => Ret tt;
     w_reply_document := fun _ => Ret tt |}.

(** The same world, except that the notice of the download times out. *)
Definition stalled_world (b : Byte.byte) (d : TemporaryDirectory) : world :=
  {| w_answer := Ret tt;
     w_reply_text := fun _ => Ret tt;
     w_edit_text := fun s => match s with
                             | Downloading _ => Raise TimedOut
                             | _ => Ret tt
                             end;
     w_mkdtemp := d;
     w_entropy := fun _ => b;
     w_extract := w_extract (calm_world b d);
     w_cleanup := fun _ => Ret tt;
     w_iterdir := fun _ => Ret ["clip123.mp4"];
     w_exists := fun _ => true;
     w_send_action := Ret tt;
     w_reply_video := fun _ => Ret tt;
     w_reply_document := fun _ => Ret tt |}.

(** The [i]-th call of a run of insertions: its own random byte and its
    own directory. *)
Definition nth_dir (i : nat) : TemporaryDirectory :=
  {| dir_name := "/tmp/job" ++ Py.str (Z.of_nat i) |}.

Definition nth_call (i : nat) : world * string * TemporaryDirectory :=
  (calm_world (default Byte.x00 (Byte.of_nat i)) (nth_dir i),
   "https://example.com/v", nth_dir i).

(** The [i]-th of a run of insertions that all draw the same bytes,
    each with its own directory. *)
Definition same_token_call (i : nat) : world * string * TemporaryDirectory :=
  (calm_world Byte.x00 (nth_dir i), "https://example.com/v", nth_dir i).

Definition empty_state : state := {| user_data := None; trace := [] |}.

(** A store with one job, under the token of eight zero bytes. *)
Definition one_job_state : state :=
  {| user_data :=
       Some [("AAAAAAAAAAA",
              {| job_url := "https://example.com/v"; job_tmpdir := nth_dir 0 |})];
     trace := [] |}.

(** ** Further notions *)

(** The store as the handlers keep it: distinct keys, at most 50 jobs. *)
Definition registry_ok (store : dl_store) : Prop :=
  dict_wf store ∧ (length store ≤ 50)%nat.

(** An update as the application hands it to a handler (lines 356-357):
    a text message to [handle_text], a callback query to
    [on_download_choice]. *)
Inductive update :=
| TextUpdate (message : option Message)
| CallbackUpdate (query : option CallbackQuery).

Definition handle (w : world) (u : update) : M unit :=
  match u with
  | TextUpdate message => handle_text w message
  | CallbackUpdate query => on_download_choice w query
  end.

(** The updates of one conversation, handled one after the other, each
    in its own world; what a handler raises is logged by the framework
    and the state stays as the handler left it. *)
Fixpoint handle_all (updates : list (world * update)) (st : state) : state :=
  match updates with
  | [] => st
  | (w, u) :: rest => handle_all rest (handle w u st).1
  end.

(** How many events of a kind a trace has. *)
Definition count_events (kind : event → bool) (tr : list event) : nat :=
  length (filter (fun ev => kind ev) tr).

Definition is_video (ev : event) : bool :=
  match ev with EReplyVideo _ _ => true | _ => false end.

Definition is_document (ev : event) : bool :=
  match ev with EReplyDocument _ _ => true | _ => false end.

(** An event of the upload: the chat action, a reply with the file, a
    backoff sleep. *)
Definition is_upload (ev : event) : bool :=
  match ev with
  | ESendAction | EReplyVideo _ _ | EReplyDocument _ _ | ESleep _ => true
  | _ => false
  end.

(** The seconds slept in a trace. *)
Definition slept (tr : list event) : Z :=
  foldr (fun ev acc => match ev with ESleep s => s + acc | _ => acc end) 0 tr.

(** The value of a decimal numeral read from the left, [acc] being the
    value of the digits before it. *)
Fixpoint uint_value (acc : Z) (d : Decimal.uint) : Z :=
  match d with
  | Decimal.Nil => acc
  | Decimal.D0 l => uint_value (10 * acc + 0) l
  | Decimal.D1 l => uint_value (10 * acc + 1) l
  | Decimal.D2 l => uint_value (10 * acc + 2) l
  | Decimal.D3 l => uint_value (10 * acc + 3) l
  | Decimal.D4 l => uint_value (10 * acc + 4) l
  | Decimal.D5 l => uint_value (10 * acc + 5) l
  | Decimal.D6 l => uint_value (10 * acc + 6) l
  | Decimal.D7 l => uint_value (10 * acc + 7) l
  | Decimal.D8 l => uint_value (10 * acc + 8) l
  | Decimal.D9 l => uint_value (10 * acc + 9) l
  end.

(** A text without whitespace. *)
Definition no_space (s : string) : Prop :=
  Forall (fun c => Py.isspace c = false) (Py.chars s).

(** Two ASCII characters that are the same up to the case of a letter. *)
Definition is_upper (c : ascii) : Prop := (65 ≤ nat_of_ascii c ≤ 90)%nat.

Definition same_letter (a b : ascii) : Prop :=
  a = b
  ∨ (is_upper a ∧ nat_of_ascii b = nat_of_ascii a + 32)%nat
  ∨ (is_upper b ∧ nat_of_ascii a = nat_of_ascii b + 32)%nat.

Definition same_nocase (a b : string) : Prop :=
  Forall2 same_letter (Py.chars a) (Py.chars b).

(** A text that the pattern [https?://[^\s]+] matches as a whole,
    letters compared without case: [http://] or [https://], then one
    or more characters that are not whitespace. *)
Definition link (u : string) : Prop :=
  ∃ scheme body,
    u = scheme ++ body ∧
    (same_nocase scheme "http://" ∨ same_nocase scheme "https://") ∧
    body ≠ "" ∧ no_space body.

(** The pattern matches some text that starts at offset [k] of [s]. *)
Definition link_at (k : nat) (s : string) : Prop :=
  ∃ u rest, str_drop k s = u ++ rest ∧ link u.

(** A computation whose first call is [ev], and which leaves
    [user_data] alone. *)
Definition starts_with (ev : event) {A} (m : M A) : Prop :=
  ∀ st, ∃ evs, (m st).1 = extend st (ev :: evs).

(** The download of a job gives a file to send: the extractor returns a
    result, [pick_filename_from_dir] picks a file of the directory, and
    the file exists. *)
Definition file_found (w : world) (d : TemporaryDirectory) : Prop :=
  ∃ i files p,
    w_extract w true = Ret (Some i) ∧
    w_iterdir w d = Ret files ∧
    pick_filename files
      (str_or (m_id (first_entry i)) (m_display_id (first_entry i))) = Some p ∧
    w_exists w p = true.

(* ===================================================================== *)
(** * Part II: properties                                                *)
(* ===================================================================== *)

(** ** Strings *)

Section strings.

Lemma append_nil (b : string) : "" ++ b = b.
Proof. reflexivity. Qed.

Lemma append_cons c (a b : string) : String c a ++ b = String c (a ++ b).
Proof. reflexivity. Qed.

Lemma chars_app (a b : string) : Py.chars (a ++ b) = (Py.chars a ++ Py.chars b)%list.
Proof.
  induction a as [|c a IH]; [done |]. rewrite append_cons. simpl. by rewrite IH.
Qed.

Lemma split_not_nil sep s : Py.split sep s ≠ [].
Proof.
  destruct s as [|c s]; simpl; [done |].
  destruct (Ascii.eqb c sep); [done |]. by destruct (Py.split sep s).
Qed.

(** A prefix without the separator stays in the first field. *)
Lemma split_app_free sep (a b : string) :
  sep ∉ Py.chars a →
  Py.split sep (a ++ b) =
    match Py.split sep b with
    | [] => []
    | x :: xs => (a ++ x) :: xs
    end.
Proof.
  induction a as [|c a IH]; intros Hfree.
  - rewrite append_nil. by destruct (Py.split sep b).
  - simpl in Hfree. apply not_elem_of_cons in Hfree as [Hc Ha].
    rewrite append_cons. simpl.
    destruct (Ascii.eqb_spec c sep) as [->|_]; [done |].
    rewrite (IH Ha).
    destruct (Py.split sep b) eqn:E; [by apply split_not_nil in E | done].
Qed.

Lemma split_free sep (a : string) : sep ∉ Py.chars a → Py.split sep a = [a].
Proof.
  induction a as [|c a IH]; simpl; intros Hfree; [done |].
  apply not_elem_of_cons in Hfree as [Hc Ha].
  destruct (Ascii.eqb_spec c sep) as [->|_]; [done |]. by rewrite (IH Ha).
Qed.

Lemma before_app_free c (a b : string) :
  c ∉ Py.chars a → FormatExpr.before c (a ++ String c b) = a.
Proof.
  induction a as [|x a IH]; intros Hfree.
  - rewrite append_nil. simpl. by rewrite Ascii.eqb_refl.
  - simpl in Hfree. apply not_elem_of_cons in Hfree as [Hx Ha].
    rewrite append_cons. simpl.
    destruct (Ascii.eqb_spec x c) as [->|_]; [done |]. by rewrite (IH Ha).
Qed.

Lemma string_of_uint_digits (d : Decimal.uint) :
  Forall (fun c => Py.isdigit c = true) (Py.chars (NilEmpty.string_of_uint d)).
Proof. induction d; simpl; constructor; done. Qed.

Lemma str_numeral (z : Z) : Forall numeral_char (Py.chars (Py.str z)).
Proof.
  unfold Py.str, NilZero.string_of_int, NilZero.string_of_uint.
  assert (Hd : ∀ d, Forall numeral_char
                      (Py.chars match d with
                                | Decimal.Nil => "0"
                                | _ => NilEmpty.string_of_uint d
                                end)).
  { intros d.
    destruct d;
      try (eapply Forall_impl; [apply string_of_uint_digits | by left]).
    by repeat constructor. }
  destruct (Z.to_int z); simpl.
  - apply Hd.
  - apply Forall_cons_2; [by right | apply Hd].
Qed.

Lemma str_free (c : ascii) (z : Z) :
  Py.isdigit c = false → c ≠ "-"%char → c ∉ Py.chars (Py.str z).
Proof.
  intros Hd Hm Hin.
  pose proof (str_numeral z) as Hall. rewrite Forall_forall in Hall.
  destruct (Hall c Hin) as [H|H]; congruence.
Qed.

End strings.

(** ** The format expression *)

Section format_expression.

Import FormatExpr.

Lemma append_assoc (a b c : string) : (a ++ b) ++ c = a ++ (b ++ c).
Proof.
  induction a as [|x a IH]; [done |]. rewrite !append_cons. by rewrite IH.
Qed.

Lemma append_nil_r (a : string) : a ++ "" = a.
Proof. induction a as [|x a IH]; [done |]. rewrite append_cons. by rewrite IH. Qed.

Lemma split_at sep (a b : string) :
  sep ∉ Py.chars a → Py.split sep (a ++ String sep b) = a :: Py.split sep b.
Proof.
  intros Ha. rewrite (split_app_free _ _ _ Ha). simpl.
  rewrite Ascii.eqb_refl. by rewrite append_nil_r.
Qed.

Lemma parse_selector_plain (nm : string) :
  "["%char ∉ Py.chars nm →
  parse_selector nm = {| sel_name := nm; sel_filters := [] |}.
Proof. intros Hnm. unfold parse_selector. by rewrite (split_free _ _ Hnm). Qed.

Lemma parse_selector_filtered (nm flt : string) :
  "["%char ∉ Py.chars nm → "["%char ∉ Py.chars flt → "]"%char ∉ Py.chars flt →
  parse_selector (nm ++ String "[" (flt ++ "]")) =
    {| sel_name := nm; sel_filters := [flt] |}.
Proof.
  intros Hnm Hopen Hclose. unfold parse_selector.
  rewrite (split_at _ _ _ Hnm), (split_app_free _ _ _ Hopen). simpl.
  by rewrite (before_app_free _ _ _ Hclose).
Qed.

(** No character of the expression syntax occurs in a height filter. *)
Lemma height_filter_free (c : ascii) (h : Z) :
  c ∈ ["/"; "+"; "["; "]"]%char → c ∉ Py.chars (height_filter h).
Proof.
  intros Hc. unfold height_filter. rewrite chars_app.
  apply not_elem_of_app.
  repeat (apply elem_of_cons in Hc as [->|Hc]);
    try (by apply elem_of_nil in Hc);
    (split; [by apply (bool_decide_unpack _); vm_compute | by apply str_free]).
Qed.

(** Side conditions [c ∉ Py.chars s] for a text built from literals and
    height filters. *)
Ltac free :=
  repeat first
    [ apply height_filter_free; by apply (bool_decide_unpack _); vm_compute
    | by apply (bool_decide_unpack _); vm_compute
    | rewrite chars_app; apply not_elem_of_app; split
    | simpl Py.chars; apply not_elem_of_cons; split; [done |] ].

(** The text of the capped expression, cut at its separators. *)
Lemma build_format_string_capped (h : Z) :
  h ≠ 0 →
  build_format_string (Some h) =
    (("bestvideo*" ++ String "[" (height_filter h ++ "]")) ++ String "+" "bestaudio")
      ++ String "/" ("best" ++ String "[" (height_filter h ++ "]")).
Proof.
  intros Hh. unfold build_format_string, height_filter.
  rewrite bool_decide_eq_false_2 by done.
  rewrite !append_assoc, !append_cons, !append_nil.
  by rewrite !append_assoc, !append_cons, !append_nil.
Qed.

Opaque height_filter.

Lemma parse_capped (h : Z) :
  h ≠ 0 →
  parse (build_format_string (Some h)) =
    [[ {| sel_name := "bestvideo*"; sel_filters := [height_filter h] |};
       {| sel_name := "bestaudio"; sel_filters := [] |} ];
     [ {| sel_name := "best"; sel_filters := [height_filter h] |} ]].
Proof.
  intros Hh. rewrite (build_format_string_capped h Hh). unfold parse.
  rewrite split_at by free. rewrite split_free by free.
  cbn [map].
  rewrite split_at by free. rewrite !split_free by free.
  cbn [map].
  rewrite !parse_selector_filtered by free.
  by rewrite parse_selector_plain by free.
Qed.

Transparent height_filter.

End format_expression.

(** C3, as amended.  Without a height ([None], and also [0]) the
    expression is ["bestvideo*+bestaudio/best"]: best video merged with
    best audio, else the best combined stream, nothing capped.  For a
    positive height [h] the expression has two alternatives: the best
    video stream whose height is at most [h] (or unknown) merged with the
    best audio stream, which carries no filter; else the best combined
    stream, itself capped at [h]. *)
Theorem build_format_string_expression (h : Z) :
  0 < h →
  build_format_string None = "bestvideo*+bestaudio/best" ∧
  build_format_string (Some 0) = "bestvideo*+bestaudio/best" ∧
  FormatExpr.parse (build_format_string None) =
    [[ {| FormatExpr.sel_name := "bestvideo*"; FormatExpr.sel_filters := [] |};
       {| FormatExpr.sel_name := "bestaudio"; FormatExpr.sel_filters := [] |} ];
     [ {| FormatExpr.sel_name := "best"; FormatExpr.sel_filters := [] |} ]] ∧
  build_format_string (Some h) =
    "bestvideo*[height<=?" ++ Py.str h ++ "]+bestaudio/best[height<=?"
      ++ Py.str h ++ "]" ∧
  FormatExpr.parse (build_format_string (Some h)) =
    [[ {| FormatExpr.sel_name := "bestvideo*";
          FormatExpr.sel_filters := [FormatExpr.height_filter h] |};
       {| FormatExpr.sel_name := "bestaudio"; FormatExpr.sel_filters := [] |} ];
     [ {| FormatExpr.sel_name := "best";
          FormatExpr.sel_filters := [FormatExpr.height_filter h] |} ]].
Proof.
  intros Hh. split; [done |]. split; [done |]. split; [done |]. split.
  - unfold build_format_string. by rewrite bool_decide_eq_false_2 by lia.
  - apply parse_capped. lia.
Qed.

Lemma build_format_string_expression_720 :
  0 < 720 ∧
  FormatExpr.parse (build_format_string (Some 720)) =
    [[ {| FormatExpr.sel_name := "bestvideo*";
          FormatExpr.sel_filters := ["height<=?720"] |};
       {| FormatExpr.sel_name := "bestaudio"; FormatExpr.sel_filters := [] |} ];
     [ {| FormatExpr.sel_name := "best";
          FormatExpr.sel_filters := ["height<=?720"] |} ]].
Proof.
  split; [lia |].
  apply (build_format_string_expression 720). lia.
Defined.

(** C3, as stated, fails at height 720: the audio stream is not capped
    and the fallback is. *)
Lemma build_format_string_not_capped_pair_720 :
  ¬ capped_pair_with_free_fallback 720 (build_format_string (Some 720)).
Proof.
  intros (video & audio & fallback & Hparse & _ & Haudio & Hfree).
  vm_compute in Hparse. simplify_eq.
  unfold FormatExpr.unconstrained in Hfree. by vm_compute in Hfree.
Qed.

(** ** Resolution candidates *)

Section heights.

Lemma elem_of_unique_sorted_heights (formats : list format) (h : Z) :
  h ∈ unique_sorted_heights formats ↔
  240 ≤ h ∧ ∃ f, f ∈ formats ∧ Py.as_int (fmt_height f) = Some h.
Proof.
  unfold unique_sorted_heights, height_set.
  rewrite merge_sort_Permutation, list_elem_of_filter, elem_of_elements,
    elem_of_list_to_set, list_elem_of_omap.
  split.
  - intros [[_ Hge] Hf]. done.
  - intros [Hge Hf]. repeat split; [lia | done | done].
Qed.

Lemma NoDup_unique_sorted_heights (formats : list format) :
  NoDup (unique_sorted_heights formats).
Proof.
  unfold unique_sorted_heights. rewrite merge_sort_Permutation.
  apply NoDup_filter, NoDup_elements.
Qed.

(** Ascending without repetition is strictly ascending. *)
Lemma StronglySorted_le_NoDup (l : list Z) :
  StronglySorted Z.le l → NoDup l → StronglySorted Z.lt l.
Proof.
  induction 1 as [|x l Hl IH Hx]; intros Hnd; [constructor |].
  apply NoDup_cons in Hnd as [Hnotin Hnd].
  constructor; [by apply IH |].
  rewrite Forall_forall in Hx |- *. intros y Hy.
  pose proof (Hx y Hy). assert (x ≠ y) by (intros ->; done). lia.
Qed.

Lemma unique_sorted_heights_perm (formats formats' : list format) :
  formats' ≡ₚ formats →
  unique_sorted_heights formats' = unique_sorted_heights formats.
Proof.
  intros Hperm. unfold unique_sorted_heights, height_set.
  by rewrite Hperm.
Qed.

End heights.

(** C5.  [unique_sorted_heights] gives the integer heights that are at
    least 240, each once, in ascending order; the order of the format
    descriptors does not matter; heights 144, 240, 480, 480, 720, 1080
    give [240; 480; 720; 1080]. *)
Theorem unique_sorted_heights_spec (formats formats' : list format) :
  formats' ≡ₚ formats →
  StronglySorted Z.lt (unique_sorted_heights formats) ∧
  (∀ h, h ∈ unique_sorted_heights formats ↔
        240 ≤ h ∧ ∃ f, f ∈ formats ∧ Py.as_int (fmt_height f) = Some h) ∧
  unique_sorted_heights formats' = unique_sorted_heights formats ∧
  unique_sorted_heights
    ((fun z => {| fmt_height := Py.VInt z |}) <$> [144; 240; 480; 480; 720; 1080])
  = [240; 480; 720; 1080].
Proof.
  intros Hperm. split; [| split; [| split]].
  - apply StronglySorted_le_NoDup.
    + apply (StronglySorted_merge_sort Z.le).
    + apply NoDup_unique_sorted_heights.
  - apply elem_of_unique_sorted_heights.
  - by apply unique_sorted_heights_perm.
  - by vm_compute.
Qed.

Lemma unique_sorted_heights_spec_reordered :
  let f z := {| fmt_height := Py.VInt z |} in
  [f 1080; f 144; f 480; f 720; f 480; f 240] ≡ₚ
    [f 144; f 240; f 480; f 480; f 720; f 1080] ∧
  unique_sorted_heights [f 1080; f 144; f 480; f 720; f 480; f 240]
  = unique_sorted_heights [f 144; f 240; f 480; f 480; f 720; f 1080].
Proof.
  intros f.
  assert (Hperm : [f 1080; f 144; f 480; f 720; f 480; f 240] ≡ₚ
                    [f 144; f 240; f 480; f 480; f 720; f 1080]).
  { apply (bool_decide_unpack _). by vm_compute. }
  split; [exact Hperm |].
  apply (unique_sorted_heights_spec _ _ Hperm).
Defined.

(** ** The menu *)

Section menu.

Variable token : string.

Lemma fill_rows_concat (hs : list Z) row buttons :
  (concat (fill_rows token hs row buttons).1 ++ (fill_rows token hs row buttons).2
   = concat buttons ++ row ++ (height_button token <$> hs))%list.
Proof.
  revert row buttons. induction hs as [|h hs IH]; intros row buttons; simpl.
  - by rewrite (right_id_L [] (++)).
  - case_bool_decide; rewrite IH.
    + rewrite concat_app. simpl. by rewrite !(right_id_L [] (++)), <- !(assoc_L (++)).
    + by rewrite <- !(assoc_L (++)).
Qed.

Lemma menu_buttons_concat (heights : list Z) :
  concat (menu_buttons token heights)
  = ((height_button token <$> display_heights heights) ++ [best_button token])%list.
Proof.
  unfold menu_buttons.
  pose proof (fill_rows_concat (display_heights heights) [] []) as H.
  destruct (fill_rows token (display_heights heights) [] []) as [buttons row].
  simpl in H. rewrite concat_app. simpl. f_equal. rewrite <- H.
  destruct row; [by rewrite (right_id_L [] (++)) |].
  rewrite concat_app. simpl. by rewrite (right_id_L [] (++)).
Qed.

Lemma menu_buttons_last (heights : list Z) :
  last (menu_buttons token heights) = Some [best_button token].
Proof.
  unfold menu_buttons.
  destruct (fill_rows token (display_heights heights) [] []) as [buttons row].
  apply last_snoc.
Qed.

Lemma append_inv_head (a b c : string) : a ++ b = a ++ c → b = c.
Proof.
  induction a as [|x a IH]; [done |].
  rewrite !append_cons. intros Heq. apply IH. by simplify_eq.
Qed.

(** No button of a height is the button "best". *)
Lemma height_button_not_best (h : Z) : height_button token h ≠ best_button token.
Proof.
  intros Heq. apply (f_equal callback_data) in Heq.
  cbn [callback_data height_button best_button] in Heq.
  do 2 apply append_inv_head in Heq.
  rewrite !append_cons in Heq. discriminate Heq.
Qed.

(** The button "best" is in the last row only, and alone there. *)
Lemma best_button_row (heights : list Z) (row : list InlineKeyboardButton) :
  row ∈ menu_buttons token heights →
  best_button token ∈ row →
  row = [best_button token] ∧ last (menu_buttons token heights) = Some row.
Proof.
  intros Hrow Hbest.
  pose proof (menu_buttons_concat heights) as Hconcat.
  pose proof (menu_buttons_last heights) as Hlast.
  unfold menu_buttons in *.
  destruct (fill_rows token (display_heights heights) [] []) as [buttons row0].
  set (rows := match row0 with [] => buttons | _ => (buttons ++ [row0])%list end) in *.
  rewrite concat_app in Hconcat. simpl in Hconcat. apply app_inv_tail in Hconcat.
  apply elem_of_app in Hrow as [Hrow|Hrow%list_elem_of_singleton].
  - exfalso.
    assert (Hin : In (best_button token) (concat rows)).
    { apply in_concat. exists row. split; by apply list_elem_of_In. }
    rewrite Hconcat in Hin. apply list_elem_of_In, list_elem_of_fmap in Hin as (h & Hh & _).
    by apply (height_button_not_best h).
  - by subst row.
Qed.

(** The last three of an ascending list are above all the others. *)
Lemma top_three_above (heights : list Z) (x y : Z) :
  StronglySorted Z.lt heights →
  x ∈ drop (length heights - 3) heights →
  y ∈ heights → y ∉ drop (length heights - 3) heights → y < x.
Proof.
  generalize (length heights - 3)%nat. intros n Hsorted Hx Hy Hny.
  rewrite <- (take_drop n heights) in Hsorted, Hy.
  apply elem_of_app in Hy as [Hy|Hy]; [| done].
  by apply (StronglySorted_app_1_elem_of _ _ _ _ _ Hsorted).
Qed.

End menu.

(** C6.  The heights shown are the preferred heights 240, 360, 480,
    720, 1080, 1440, 2160 that are among the candidates, in the order of
    the preferred list; when none is, the last three candidates (the
    three largest of an ascending list), or all of them if there are at
    most three.  The buttons are those of the heights shown, in order,
    each with the text of the height followed by [p] and the callback
    data [dl|token|h] followed by the height; they are followed by the
    button "best" (text [Лучшее], callback data [dl|token|best]), which
    is always there and alone in the last row.  Candidates 240, 360,
    720, 2160 are shown as such, followed by "best". *)
Theorem menu_display_policy (token : string) (heights : list Z) :
  StronglySorted Z.lt heights →
  let shown := filter (fun h => h ∈ heights) [240; 360; 480; 720; 1080; 1440; 2160] in
  let button_of h :=
    {| btn_text := Py.str h ++ "p";
       callback_data := "dl|" ++ token ++ "|h" ++ Py.str h |} in
  let best := {| btn_text := "Лучшее"; callback_data := "dl|" ++ token ++ "|best" |} in
  wanted = [240; 360; 480; 720; 1080; 1440; 2160] ∧
  (∀ h, h ∈ shown ↔ h ∈ wanted ∧ h ∈ heights) ∧
  shown `sublist_of` wanted ∧
  (shown ≠ [] → display_heights heights = shown) ∧
  (shown = [] → (length heights ≤ 3)%nat → display_heights heights = heights) ∧
  (shown = [] → (3 < length heights)%nat →
     display_heights heights = drop (length heights - 3) heights ∧
     length (display_heights heights) = 3%nat ∧
     ∀ x y, x ∈ display_heights heights → y ∈ heights →
            y ∉ display_heights heights → y < x) ∧
  concat (menu_buttons token heights)
    = ((button_of <$> display_heights heights) ++ [best])%list ∧
  last (menu_buttons token heights) = Some [best] ∧
  (∀ row, row ∈ menu_buttons token heights → best ∈ row →
          row = [best] ∧ last (menu_buttons token heights) = Some row) ∧
  display_heights [240; 360; 720; 2160] = [240; 360; 720; 2160] ∧
  menu_buttons token [240; 360; 720; 2160]
    = [ [ {| btn_text := "240p"; callback_data := "dl|" ++ token ++ "|h240" |};
          {| btn_text := "360p"; callback_data := "dl|" ++ token ++ "|h360" |};
          {| btn_text := "720p"; callback_data := "dl|" ++ token ++ "|h720" |} ];
        [ {| btn_text := "2160p"; callback_data := "dl|" ++ token ++ "|h2160" |} ];
        [ {| btn_text := "Лучшее"; callback_data := "dl|" ++ token ++ "|best" |} ] ].
Proof.
  intros Hsorted shown button_of best.
  change [240; 360; 480; 720; 1080; 1440; 2160] with wanted in shown.
  change button_of with (height_button token).
  change best with (best_button token).
  split; [done |].
  split; [| split; [| split; [| split; [| split; [| split; [| split; [| split; [| split]]]]]]]].
  - intros h. unfold shown. rewrite list_elem_of_filter. tauto.
  - apply sublist_filter.
  - intros Hne. unfold display_heights. fold shown. by destruct shown.
  - intros Hnil Hlen. unfold display_heights. fold shown. rewrite Hnil.
    by rewrite bool_decide_eq_false_2 by lia.
  - intros Hnil Hlen.
    assert (Heq : display_heights heights = drop (length heights - 3) heights).
    { unfold display_heights. fold shown. rewrite Hnil.
      by rewrite bool_decide_eq_true_2 by lia. }
    rewrite Heq. split; [done |]. split; [rewrite length_drop; lia |].
    intros x y. by apply top_three_above.
  - apply menu_buttons_concat.
  - apply menu_buttons_last.
  - intros row Hrow Hbest. by apply best_button_row.
  - by vm_compute.
  - reflexivity.
Qed.

Lemma menu_display_policy_example :
  StronglySorted Z.lt [250; 300; 500; 700] ∧
  filter (fun h => h ∈ [250; 300; 500; 700]) wanted = [] ∧
  (3 < length [250; 300; 500; 700])%nat ∧
  display_heights [250; 300; 500; 700] = drop 1 [250; 300; 500; 700] ∧
  concat (menu_buttons "t" [250; 300; 500; 700])
    = [ {| btn_text := "300p"; callback_data := "dl|t|h300" |};
        {| btn_text := "500p"; callback_data := "dl|t|h500" |};
        {| btn_text := "700p"; callback_data := "dl|t|h700" |};
        {| btn_text := "Лучшее"; callback_data := "dl|t|best" |} ].
Proof.
  assert (Hsorted : StronglySorted Z.lt [250; 300; 500; 700]).
  { repeat constructor; lia. }
  assert (Hnone : filter (fun h => h ∈ [250; 300; 500; 700]) wanted = []).
  { by vm_compute. }
  assert (Hlen : (3 < length [250; 300; 500; 700])%nat).
  { simpl. lia. }
  pose proof (menu_display_policy "t" [250; 300; 500; 700] Hsorted)
    as (_ & _ & _ & _ & _ & Htop & Hconcat & _).
  destruct (Htop Hnone Hlen) as (Hshown & _).
  split; [exact Hsorted |]. split; [exact Hnone |]. split; [exact Hlen |].
  split; [exact Hshown |].
  rewrite Hconcat, Hshown. reflexivity.
Defined.

(** ** The store as a dictionary *)

Section dictionary.

Implicit Types (store : dl_store) (k : string) (v : job).

Lemma dict_get_None store k : dict_get k store = None ↔ k ∉ keys store.
Proof.
  induction store as [|[k' v'] store IH]; simpl.
  - split; [intros _; apply not_elem_of_nil | done].
  - rewrite not_elem_of_cons. case_bool_decide as Hk.
    + split; [done | intros [Hne _]; congruence].
    + rewrite IH. split; [intros Hn; split; [congruence | done] | by intros [_ Hn]].
Qed.

Lemma dict_get_Some_key store k v : dict_get k store = Some v → k ∈ keys store.
Proof.
  intros H. destruct (decide (k ∈ keys store)) as [|Hn]; [done |].
  apply dict_get_None in Hn. congruence.
Qed.

Lemma dict_pop_get store k : (dict_pop k store).1 = dict_get k store.
Proof.
  induction store as [|[k' v'] store IH]; simpl; [done |].
  case_bool_decide; [done |]. by destruct (dict_pop k store).
Qed.

Lemma dict_pop_absent store k :
  dict_get k store = None → dict_pop k store = (None, store).
Proof.
  induction store as [|[k' v'] store IH]; simpl; [done |].
  case_bool_decide as Hk; [done |]. intros Habs. by rewrite (IH Habs).
Qed.

Lemma keys_pop store k : keys (dict_pop k store).2 `sublist_of` keys store.
Proof.
  induction store as [|[k' v'] store IH]; simpl; [done |].
  case_bool_decide; simpl.
  - by apply sublist_cons.
  - destruct (dict_pop k store). simpl in *. by apply sublist_skip.
Qed.

Lemma dict_wf_pop store k : dict_wf store → dict_wf (dict_pop k store).2.
Proof. unfold dict_wf. intros H. eapply sublist_NoDup; [done | apply keys_pop]. Qed.

Lemma dict_get_pop store k k' :
  dict_wf store →
  dict_get k' (dict_pop k store).2 = if decide (k' = k) then None else dict_get k' store.
Proof.
  unfold dict_wf. induction store as [|[k0 v0] store IH]; simpl; intros Hwf.
  - by case_decide.
  - apply NoDup_cons in Hwf as [Hnotin Hwf].
    case_bool_decide as Hk0; simpl.
    + subst k0. case_decide as Hk'.
      * subst k'. by apply dict_get_None.
      * by rewrite bool_decide_eq_false_2 by done.
    + specialize (IH Hwf). destruct (dict_pop k store) as [r rest]. simpl in *.
      rewrite IH. case_bool_decide; case_decide; congruence.
Qed.

Lemma dict_set_fresh store k v :
  k ∉ keys store → dict_set k v store = (store ++ [(k, v)])%list.
Proof.
  induction store as [|[k' v'] store IH]; simpl; [done |].
  rewrite not_elem_of_cons. intros [Hne Hnotin].
  rewrite bool_decide_eq_false_2 by done. by rewrite IH.
Qed.

Lemma keys_set_present store k v : k ∈ keys store → keys (dict_set k v store) = keys store.
Proof.
  induction store as [|[k' v'] store IH]; simpl.
  - by intros ?%elem_of_nil.
  - case_bool_decide; [done |]. intros [?|Hin]%elem_of_cons; [congruence |].
    simpl. by rewrite IH.
Qed.

Lemma dict_wf_set store k v : dict_wf store → dict_wf (dict_set k v store).
Proof.
  unfold dict_wf. intros Hwf. destruct (decide (k ∈ keys store)) as [Hin|Hnotin].
  - by rewrite keys_set_present.
  - rewrite dict_set_fresh by done. unfold keys. rewrite fmap_app. simpl.
    apply NoDup_app. split; [done |]. split; [| apply NoDup_singleton].
    intros x Hx ->%list_elem_of_singleton. done.
Qed.

Lemma dict_get_set store k v k' :
  dict_get k' (dict_set k v store) = if decide (k' = k) then Some v else dict_get k' store.
Proof.
  induction store as [|[k0 v0] store IH]; simpl.
  - case_bool_decide; case_decide; congruence.
  - case_bool_decide as Hk0; simpl.
    + subst k0. case_bool_decide; case_decide; congruence.
    + rewrite IH. case_bool_decide; case_decide; congruence.
Qed.

Lemma length_dict_set store k v :
  length (dict_set k v store)
  = if decide (k ∈ keys store) then length store else S (length store).
Proof.
  case_decide as Hin.
  - rewrite <- !(length_fmap fst). fold (keys (dict_set k v store)) (keys store).
    by rewrite keys_set_present.
  - rewrite dict_set_fresh by done. rewrite length_app. simpl. lia.
Qed.

End dictionary.

(** ** Insertion and eviction *)

Section registry.

Lemma extend_nil st : extend st [] = st.
Proof. destruct st. unfold extend. simpl. by rewrite (right_id_L [] (++)%list). Qed.

Lemma extend_extend st a b : extend (extend st a) b = extend st (a ++ b)%list.
Proof. unfold extend. simpl. by rewrite (assoc_L (++)%list). Qed.

(** A release whose error is ignored: one event, and no exception. *)
Lemma ignoring_cleanup w d st :
  ignoring_errors (cleanup w d) st = (extend st [ECleanup d], Ret tt).
Proof.
  unfold ignoring_errors, try_except, cleanup, call, extend, ret.
  by destruct (w_cleanup w d) as [[]|].
Qed.

(** Evicting the first [n] keys of a store removes its first [n]
    entries and releases their directories, oldest first. *)
Lemma evict_oldest w (n : nat) store st :
  dict_wf store →
  evict w (take n (keys store)) store st
  = (extend st (cleanups (take n store)), Ret (drop n store)).
Proof.
  revert n st. induction store as [|[k v] store IH]; intros n st Hwf.
  - destruct n; simpl; by rewrite extend_nil.
  - destruct n as [|n]; simpl; [by rewrite extend_nil |].
    apply NoDup_cons in Hwf as [_ Hwf].
    rewrite bool_decide_eq_true_2 by done.
    unfold mbind, M_bind, bind. rewrite ignoring_cleanup.
    fold (keys store). rewrite (IH n _ Hwf). by rewrite extend_extend.
Qed.

(** What [store_new_job] does to a well-formed store. *)
Lemma store_new_job_run w url tmpdir st :
  dict_wf (store_of st) →
  let token := token_of w in
  let store := dict_set token {| job_url := url; job_tmpdir := tmpdir |} (store_of st) in
  let n := (length store - 50)%nat in
  store_new_job w url tmpdir st
  = ({| user_data := Some (drop n store);
        trace := (trace st ++ cleanups (take n store))%list |}, Ret token).
Proof.
  intros Hwf token store n. subst n store token.
  unfold store_new_job, token_of, store_of in *.
  set (store := dict_set _ _ _).
  case_bool_decide as Hlen.
  - rewrite evict_oldest by (by apply dict_wf_set). done.
  - replace (length store - 50)%nat with 0%nat by lia. simpl.
    by rewrite (right_id_L [] (++)%list).
Qed.

End registry.

Section insertions.

Implicit Types (calls : list (world * string * TemporaryDirectory)).

Lemma cleanups_app a b : cleanups (a ++ b)%list = (cleanups a ++ cleanups b)%list.
Proof. unfold cleanups. by rewrite fmap_app. Qed.

Lemma keys_entries calls : keys (entry_of <$> calls) = (fun c => token_of c.1.1) <$> calls.
Proof.
  unfold keys. rewrite <- list_fmap_compose. apply list_fmap_ext.
  by intros _ [[w url] d] _.
Qed.

(** A run of insertions of new tokens into a store within its bound:
    the store is the last 50 entries of the old store followed by the
    new ones, the others were evicted in order, each released once. *)
Lemma store_all_run calls st :
  dict_wf (store_of st ++ (entry_of <$> calls))%list →
  (length (store_of st) ≤ 50)%nat →
  let all := (store_of st ++ (entry_of <$> calls))%list in
  let n := (length all - 50)%nat in
  store_of (store_all calls st).1 = drop n all ∧
  trace (store_all calls st).1 = (trace st ++ cleanups (take n all))%list ∧
  (store_all calls st).2 = Ret ((fun c => token_of c.1.1) <$> calls).
Proof.
  revert st. induction calls as [|[[w url] d] calls IH]; intros st Hwf Hlen all n.
  - subst n all. simpl. rewrite (right_id_L [] (++)%list).
    replace (length (store_of st) - 50)%nat with 0%nat by lia.
    simpl. by rewrite (right_id_L [] (++)%list).
  - simpl in Hwf. unfold dict_wf, keys in Hwf. rewrite fmap_app in Hwf.
    simpl in Hwf. fold (keys (store_of st)) in Hwf.
    assert (Hfresh : token_of w ∉ keys (store_of st)).
    { apply NoDup_app in Hwf as (_ & Hdisj & _). intros Hin.
      apply (Hdisj _ Hin). apply elem_of_cons. by left. }
    assert (Hwf0 : dict_wf (store_of st)).
    { by apply NoDup_app in Hwf as (? & _ & _). }
    simpl. unfold mbind, M_bind, bind.
    rewrite (store_new_job_run w url d st Hwf0).
    rewrite dict_set_fresh by done.
    set (entry := (token_of w, {| job_url := url; job_tmpdir := d |})).
    set (s1 := (store_of st ++ [entry])%list).
    set (e := (length s1 - 50)%nat).
    set (st1 := {| user_data := Some (drop e s1); trace := _ |}).
    assert (Hs1 : length s1 = S (length (store_of st))).
    { subst s1. rewrite length_app. simpl. lia. }
    assert (He : (e ≤ length s1)%nat) by (subst e; lia).
    assert (Hall : all = (s1 ++ (entry_of <$> calls))%list).
    { subst all s1. simpl. by rewrite <- (assoc_L (++)%list). }
    assert (Hjoin : (store_of st1 ++ (entry_of <$> calls))%list = drop e all).
    { rewrite Hall. subst st1. unfold store_of. simpl.
      by rewrite drop_app_le by done. }
    specialize (IH st1). rewrite Hjoin in IH.
    assert (Hwf1 : dict_wf (drop e all)).
    { unfold dict_wf, keys. rewrite fmap_drop.
      eapply sublist_NoDup; [| apply sublist_drop].
      subst all. rewrite fmap_app. simpl. done. }
    assert (Hlen1 : (length (store_of st1) ≤ 50)%nat).
    { subst st1. unfold store_of. simpl. rewrite length_drop. subst e. lia. }
    destruct (IH Hwf1 Hlen1) as (Hstore & Htrace & Hret).
    destruct (store_all calls st1) as [st2 r2]. cbn [fst snd] in *. subst r2.
    unfold ret. cbn [fst snd].
    assert (Hlall : length all = (length s1 + length calls)%nat).
    { rewrite Hall, length_app, length_fmap. done. }
    assert (Hn : (e + (length (drop e all) - 50) = n)%nat).
    { rewrite length_drop. subst n e. lia. }
    split; [| split; [| done]].
    + rewrite Hstore. rewrite drop_drop. by rewrite Hn.
    + rewrite Htrace. subst st1. simpl.
      rewrite <- (assoc_L (++)%list). f_equal.
      rewrite <- cleanups_app. f_equal.
      rewrite <- Hn, <- take_take_drop. f_equal.
      rewrite Hall. by rewrite take_app_le by done.
Qed.

(** Whatever tokens are drawn, a run of insertions keeps the store a
    dictionary of at most 50 jobs. *)
Lemma store_all_bound calls st :
  dict_wf (store_of st) →
  dict_wf (store_of (store_all calls st).1) ∧
  (calls ≠ [] → (length (store_of (store_all calls st).1) ≤ 50)%nat).
Proof.
  revert st. induction calls as [|[[w url] d] calls IH]; intros st Hwf; [done |].
  simpl. unfold mbind, M_bind, bind.
  rewrite (store_new_job_run w url d st Hwf).
  set (s1 := dict_set (token_of w) {| job_url := url; job_tmpdir := d |} (store_of st)).
  set (st1 := {| user_data := Some (drop (length s1 - 50) s1); trace := _ |}).
  assert (Hwf1 : dict_wf (store_of st1)).
  { unfold dict_wf, keys, store_of, st1. simpl. rewrite fmap_drop.
    eapply sublist_NoDup; [| apply sublist_drop]. by apply dict_wf_set. }
  assert (Hlen1 : (length (store_of st1) ≤ 50)%nat).
  { unfold store_of, st1. simpl. rewrite length_drop. lia. }
  destruct (IH st1 Hwf1) as [Hwf2 Hlen2].
  destruct (store_all calls st1) as [st2 [tokens|e]] eqn:Hrun; cbn [fst snd] in *.
  - unfold ret. cbn [fst]. split; [done |]. intros _.
    destruct calls as [|c calls]; [| by apply Hlen2].
    simpl in Hrun. unfold ret in Hrun. by simplify_eq.
  - split; [done |]. intros _.
    destruct calls as [|c calls]; [| by apply Hlen2].
    simpl in Hrun. unfold ret in Hrun. by simplify_eq.
Qed.

End insertions.

(** ** Counting releases *)

Section releases.

Implicit Types (d : TemporaryDirectory) (tr : list event).

Lemma releases_nil d : releases d [] = 0%nat.
Proof. done. Qed.

Lemma releases_cons d ev tr :
  releases d (ev :: tr) = ((if is_cleanup d ev then 1 else 0) + releases d tr)%nat.
Proof.
  unfold releases. rewrite filter_cons.
  destruct (is_cleanup d ev); by case_decide.
Qed.

Lemma releases_app d tr1 tr2 :
  releases d (tr1 ++ tr2) = (releases d tr1 + releases d tr2)%nat.
Proof. unfold releases. by rewrite filter_app, length_app. Qed.

Lemma releases_cleanups_notin d (l : dl_store) :
  d ∉ (fun e => job_tmpdir e.2) <$> l → releases d (cleanups l) = 0%nat.
Proof.
  induction l as [|a l IH]; [done |].
  rewrite fmap_cons, not_elem_of_cons. intros [Hne Hnotin].
  unfold cleanups. rewrite fmap_cons, releases_cons. fold (cleanups l).
  rewrite (IH Hnotin). simpl. by rewrite bool_decide_eq_false_2 by done.
Qed.

Lemma releases_cleanups_in (l : dl_store) (e : string * job) :
  NoDup ((fun e => job_tmpdir e.2) <$> l) → e ∈ l →
  releases (job_tmpdir e.2) (cleanups l) = 1%nat.
Proof.
  induction l as [|a l IH]; [by intros _ ?%elem_of_nil |].
  rewrite fmap_cons, NoDup_cons. intros [Hnotin Hnd] Hin.
  unfold cleanups. rewrite fmap_cons, releases_cons. fold (cleanups l).
  apply elem_of_cons in Hin as [->|Hin].
  - rewrite (releases_cleanups_notin _ _ Hnotin). simpl.
    by rewrite bool_decide_eq_true_2 by done.
  - rewrite (IH Hnd Hin). simpl. rewrite bool_decide_eq_false_2; [done |].
    intros Heq. apply Hnotin. rewrite Heq.
    by apply (list_elem_of_fmap_2 (fun e => job_tmpdir e.2)).
Qed.

End releases.

(** C2, as amended.  A call of [store_new_job] leaves at most 50 jobs,
    and so does every run of insertions, whatever tokens are drawn.
    When the tokens drawn are new and pairwise distinct and each job has
    its own directory, a run of insertions from a store within the bound
    leaves the last 50 of all jobs (old ones first, then the new ones in
    the order of insertion) and evicts the others, oldest first; each
    evicted job's directory is released exactly once by the run, and no
    directory of a live job is.  From the empty store, 50 + k such
    insertions leave exactly 50 jobs, the k oldest evicted. *)
Theorem store_new_job_eviction (st : state)
    (calls : list (world * string * TemporaryDirectory)) :
  let all := (store_of st ++ (entry_of <$> calls))%list in
  let k := (length all - 50)%nat in
  let st' := (store_all calls st).1 in
  dict_wf (store_of st) →
  (length (store_of st) ≤ 50)%nat →
  (∀ st0 w url tmpdir,
     dict_wf (store_of st0) →
     (length (store_of (store_new_job w url tmpdir st0).1) ≤ 50)%nat) ∧
  (∀ i, (length (store_of (store_all (take i calls) st).1) ≤ 50)%nat) ∧
  (dict_wf all →
   NoDup ((fun e => job_tmpdir e.2) <$> all) →
   store_of st' = drop k all ∧
   (store_of st = [] → (50 ≤ length calls)%nat →
      length (store_of st') = 50%nat ∧
      store_of st' = entry_of <$> drop (length calls - 50) calls) ∧
   ∃ evs,
     trace st' = (trace st ++ evs)%list ∧
     evs = cleanups (take k all) ∧
     (∀ e, e ∈ take k all → releases (job_tmpdir e.2) evs = 1%nat) ∧
     (∀ e, e ∈ drop k all → releases (job_tmpdir e.2) evs = 0%nat)).
Proof.
  intros all k st' Hwf0 Hlen.
  split; [| split].
  - intros st0 w url tmpdir Hwf.
    rewrite (store_new_job_run w url tmpdir st0 Hwf). unfold store_of at 1. simpl.
    rewrite length_drop. lia.
  - intros i. destruct (store_all_bound (take i calls) st Hwf0) as [_ Hbound].
    destruct (take i calls) as [|c rest] eqn:Htake; [done |].
    rewrite <- Htake in *. apply Hbound. by rewrite Htake.
  - intros Hwf Hdirs.
    destruct (store_all_run calls st Hwf Hlen) as (Hstore & Htrace & _).
    fold all k st' in Hstore, Htrace.
    split; [done |]. split.
    + intros Hempty Hcalls. rewrite Hstore. subst k all. rewrite Hempty. simpl.
      rewrite length_fmap. split.
      * rewrite length_drop, length_fmap. lia.
      * by rewrite fmap_drop.
    + exists (cleanups (take k all)). split; [done |]. split; [done |].
      rewrite <- (take_drop k all) in Hdirs. rewrite fmap_app in Hdirs.
      apply NoDup_app in Hdirs as (Hnd & Hdisj & _).
      split.
      * intros e He. by apply releases_cleanups_in.
      * intros e He. apply releases_cleanups_notin. intros Hin.
        apply (Hdisj _ Hin). by apply (list_elem_of_fmap_2 (fun e => job_tmpdir e.2)).
Qed.

(** ** Tokens *)

Section tokens.

Import Secrets.

Ltac div_lia := zify; Z.to_euclidean_division_equations; lia.

Lemma alphabet_safe :
  Forall (fun c => url_safe_char c = true ∧ c ≠ "="%char) alphabet.
Proof. apply (bool_decide_unpack _). by vm_compute. Qed.

Lemma alphabet_NoDup : NoDup alphabet.
Proof. apply (bool_decide_unpack _). by vm_compute. Qed.

Lemma sextet_char_safe (n : N) :
  (n < 64)%N → url_safe_char (sextet_char n) = true ∧ sextet_char n ≠ "="%char.
Proof.
  intros Hn. unfold sextet_char.
  apply (proj1 (List.Forall_nth _ _) alphabet_safe).
  change (length alphabet) with 64%nat. lia.
Qed.

Lemma sextet_char_inj (n m : N) :
  (n < 64)%N → (m < 64)%N → sextet_char n = sextet_char m → n = m.
Proof.
  intros Hn Hm Heq. apply N2Nat.inj.
  apply (proj1 (List.NoDup_nth alphabet "="%char));
    [apply NoDup_ListNoDup, alphabet_NoDup | | | exact Heq];
    change (length alphabet) with 64%nat; lia.
Qed.

Lemma byte_bound (b : Byte.byte) : (Byte.to_N b < 256)%N.
Proof. pose proof (Byte.to_N_bounded b). lia. Qed.

Lemma byte_inj (a b : Byte.byte) : Byte.to_N a = Byte.to_N b → a = b.
Proof.
  intros H. pose proof (Byte.of_to_N a) as Ha. rewrite H, Byte.of_to_N in Ha.
  congruence.
Qed.

Lemma group3_bound b0 b1 b2 : Forall (fun n => (n < 64)%N) (group3 b0 b1 b2).
Proof.
  pose proof (byte_bound b0). pose proof (byte_bound b1). pose proof (byte_bound b2).
  unfold group3. repeat constructor; div_lia.
Qed.

Lemma group2_bound b0 b1 : Forall (fun n => (n < 64)%N) (group2 b0 b1).
Proof.
  pose proof (byte_bound b0). pose proof (byte_bound b1).
  unfold group2. repeat constructor; div_lia.
Qed.

(** Four 6-bit groups give back their 24 bits, three their 18 bits. *)
Lemma join4 (n : N) :
  (n = (n / 262144) * 262144 + ((n / 4096) mod 64) * 4096
       + ((n / 64) mod 64) * 64 + n mod 64)%N.
Proof. div_lia. Qed.

Lemma join3 (n : N) :
  (n = (n / 4096) * 4096 + ((n / 64) mod 64) * 64 + n mod 64)%N.
Proof. div_lia. Qed.

Lemma group3_inj a b c a' b' c' :
  group3 a b c = group3 a' b' c' → a = a' ∧ b = b' ∧ c = c'.
Proof.
  unfold group3. intros H. injection H as H0 H1 H2 H3.
  set (n := (Byte.to_N a * 65536 + Byte.to_N b * 256 + Byte.to_N c)%N) in *.
  set (n' := (Byte.to_N a' * 65536 + Byte.to_N b' * 256 + Byte.to_N c')%N) in *.
  assert (Hn : n = n').
  { rewrite (join4 n), (join4 n'). by rewrite H0, H1, H2, H3. }
  subst n n'.
  pose proof (byte_bound a). pose proof (byte_bound b). pose proof (byte_bound c).
  pose proof (byte_bound a'). pose proof (byte_bound b'). pose proof (byte_bound c').
  repeat split; apply byte_inj; lia.
Qed.

Lemma group2_inj a b a' b' : group2 a b = group2 a' b' → a = a' ∧ b = b'.
Proof.
  unfold group2. intros H. injection H as H0 H1 H2.
  set (n := ((Byte.to_N a * 256 + Byte.to_N b) * 4)%N) in *.
  set (n' := ((Byte.to_N a' * 256 + Byte.to_N b') * 4)%N) in *.
  assert (Hn : n = n').
  { rewrite (join3 n), (join3 n'). by rewrite H0, H1, H2. }
  subst n n'.
  pose proof (byte_bound a). pose proof (byte_bound b).
  pose proof (byte_bound a'). pose proof (byte_bound b').
  split; apply byte_inj; lia.
Qed.

Lemma sextet_chars_inj (l l' : list N) :
  Forall (fun n => (n < 64)%N) l → Forall (fun n => (n < 64)%N) l' →
  sextet_char <$> l = sextet_char <$> l' → l = l'.
Proof.
  intros Hl. revert l'. induction Hl as [|n l Hn Hl IH]; intros [|m l'] Hl' Heq;
    simplify_eq/=; [done |].
  apply Forall_cons in Hl' as [Hm Hl'].
  f_equal; [by apply sextet_char_inj | by apply IH].
Qed.

Lemma string_of_chars_inj (l l' : list ascii) :
  string_of_chars l = string_of_chars l' → l = l'.
Proof.
  revert l'. induction l as [|c l IH]; intros [|c' l'] Heq; simplify_eq/=; [done |].
  f_equal. by apply IH.
Qed.

Lemma chars_string_of_chars (l : list ascii) : Py.chars (string_of_chars l) = l.
Proof. induction l as [|c l IH]; simpl; [done | by rewrite IH]. Qed.

Lemma string_of_chars_app (a b : list ascii) :
  string_of_chars (a ++ b)%list = string_of_chars a ++ string_of_chars b.
Proof.
  induction a as [|c a IH]; [done |]. simpl. rewrite append_cons. by rewrite IH.
Qed.

Lemma rstrip_pad_body (s : string) :
  Forall (fun c => c ≠ "="%char) (Py.chars s) → rstrip_pad (s ++ "=") = s.
Proof.
  induction s as [|c s IH]; intros Hs; [done |].
  simpl in Hs. apply Forall_cons in Hs as [Hc Hs].
  rewrite append_cons. simpl. rewrite (IH Hs).
  destruct s; [| done]. by destruct (Ascii.eqb_spec c "=").
Qed.

Lemma sextets8_bound source : Forall (fun n => (n < 64)%N) (sextets8 source).
Proof.
  unfold sextets8. rewrite !Forall_app.
  auto using group3_bound, group2_bound.
Qed.

(** An 8-byte token is the text of its eleven groups: the padding is
    cut off, and no character of the alphabet is. *)
Lemma token_urlsafe_8 (source : nat → Byte.byte) :
  token_urlsafe 8 source = string_of_chars (sextet_char <$> sextets8 source).
Proof.
  unfold token_urlsafe, token_bytes. simpl map.
  change (urlsafe_b64encode _)
    with (encode_group (group3 (source 0%nat) (source 1%nat) (source 2%nat))
          ++ encode_group (group3 (source 3%nat) (source 4%nat) (source 5%nat))
          ++ encode_group (group2 (source 6%nat) (source 7%nat)) ++ "=").
  unfold encode_group, sextets8.
  rewrite !fmap_app, !string_of_chars_app.
  rewrite <- !append_assoc. rewrite rstrip_pad_body; [by rewrite !append_assoc |].
  rewrite !append_assoc, <- !string_of_chars_app, chars_string_of_chars.
  rewrite <- !fmap_app. apply Forall_fmap.
  eapply Forall_impl; [apply (sextets8_bound source) |].
  intros n Hn. by apply sextet_char_safe.
Qed.

Lemma token_urlsafe_8_inj (source source' : nat → Byte.byte) :
  token_urlsafe 8 source = token_urlsafe 8 source' →
  ∀ i, (i < 8)%nat → source i = source' i.
Proof.
  rewrite !token_urlsafe_8. intros Heq%string_of_chars_inj.
  apply sextet_chars_inj in Heq; [| apply sextets8_bound..].
  unfold sextets8 in Heq.
  apply app_inj_1 in Heq as [H1 Heq]; [| done].
  apply app_inj_1 in Heq as [H2 H3]; [| done].
  apply group3_inj in H1 as (? & ? & ?).
  apply group3_inj in H2 as (? & ? & ?).
  apply group2_inj in H3 as (? & ?).
  intros i Hi. do 8 (destruct i as [|i]; [done |]). lia.
Qed.

End tokens.

Lemma store_new_job_eviction_51 :
  let calls := nth_call <$> seq 0 51 in
  dict_wf (store_of empty_state) ∧
  (length (store_of empty_state) ≤ 50)%nat ∧
  dict_wf (store_of empty_state ++ (entry_of <$> calls))%list ∧
  NoDup ((fun e => job_tmpdir e.2)
           <$> (store_of empty_state ++ (entry_of <$> calls))%list) ∧
  store_of (store_all calls empty_state).1 = drop 1 (entry_of <$> calls) ∧
  releases (nth_dir 0) (trace (store_all calls empty_state).1) = 1%nat.
Proof.
  intros calls.
  assert (Hwf0 : dict_wf (store_of empty_state)) by apply NoDup_nil_2.
  assert (Hwf : dict_wf (store_of empty_state ++ (entry_of <$> calls))%list).
  { apply (bool_decide_unpack _). by vm_compute. }
  assert (Hlen : (length (store_of empty_state) ≤ 50)%nat).
  { simpl. lia. }
  assert (Hdirs : NoDup ((fun e => job_tmpdir e.2)
                           <$> (store_of empty_state ++ (entry_of <$> calls))%list)).
  { apply (bool_decide_unpack _). by vm_compute. }
  pose proof (store_new_job_eviction empty_state calls Hwf0 Hlen) as (_ & _ & Hrun).
  destruct (Hrun Hwf Hdirs) as (Hstore & _ & evs & Htrace & _ & Hone & _).
  split; [exact Hwf0 |]. split; [exact Hlen |]. split; [exact Hwf |].
  split; [exact Hdirs |]. split; [exact Hstore |].
  rewrite Htrace. simpl.
  apply (Hone (entry_of (nth_call 0))).
  apply (bool_decide_unpack _). by vm_compute.
Defined.

(** C2, as stated, fails when a token is drawn again: 51 insertions of
    jobs with their own directories, all with the same random bytes,
    leave one job in the store, not 50, and nothing is evicted or
    released. *)
Lemma store_new_job_eviction_same_token :
  let calls := same_token_call <$> seq 0 51 in
  length calls = 51%nat ∧
  NoDup ((fun c => c.2) <$> calls) ∧
  store_of (store_all calls empty_state).1
  = [("AAAAAAAAAAA", {| job_url := "https://example.com/v"; job_tmpdir := nth_dir 50 |})] ∧
  trace (store_all calls empty_state).1 = [].
Proof.
  intros calls. split; [done |].
  split; [apply (bool_decide_unpack _); by vm_compute |].
  split; by vm_compute.
Qed.

(** ** Taking a job *)

Section take.

Lemma pop_job_run token st :
  (pop_job token st).2 = Ret (dict_get token (store_of st)) ∧
  trace (pop_job token st).1 = trace st ∧
  store_of (pop_job token st).1 = (dict_pop token (store_of st)).2.
Proof.
  unfold pop_job, store_of. destruct st as [[[|e store]|] tr]; try done.
  cbn [user_data trace default from_option id].
  rewrite <- (dict_pop_get (e :: store) token).
  by destruct (dict_pop token (e :: store)).
Qed.

Lemma pop_job_absent token st :
  dict_get token (store_of st) = None → pop_job token st = (st, Ret None).
Proof.
  unfold pop_job, store_of. destruct st as [[[|e store]|] tr]; try done.
  cbn [user_data trace default from_option id]. intros Habs.
  by rewrite (dict_pop_absent _ _ Habs).
Qed.

(** The handler, once the payload is split and acknowledged. *)
Lemma on_download_choice_parsed w q st token mode :
  Py.split_max "|" 2 (default "" (data q)) = ["dl"; token; mode] →
  w_answer w = Ret tt →
  on_download_choice w (Some q) st = selection w token mode (extend st [EAnswer]).
Proof.
  intros Hsplit Hanswer. unfold on_download_choice, mbind, M_bind, bind, call.
  by rewrite Hanswer, Hsplit.
Qed.

Lemma selection_expired w st token mode :
  dict_get token (store_of st) = None →
  selection w token mode st
  = (extend st [EEditText SelectionExpired], w_edit_text w SelectionExpired).
Proof.
  intros Habs. unfold selection, mbind, M_bind, bind.
  by rewrite (pop_job_absent _ _ Habs).
Qed.

End take.

(** C7.  [pop_job] returns the job under the token, or [None], and
    leaves a store without the token and with every other job; a second
    [pop_job] of the token returns [None].  A selection whose token is
    not in the store (never issued, evicted, or taken before) gets the
    notice that the selection has expired, and nothing else happens: no
    download, no release, no change of the store. *)
Theorem pop_job_take (w : world) (q : CallbackQuery) (st : state)
    (token mode : string) :
  dict_wf (store_of st) →
  Py.split_max "|" 2 (default "" (data q)) = ["dl"; token; mode] →
  w_answer w = Ret tt →
  let taken := (pop_job token st).1 in
  (pop_job token st).2 = Ret (dict_get token (store_of st)) ∧
  trace taken = trace st ∧
  dict_get token (store_of taken) = None ∧
  (∀ k, k ≠ token → dict_get k (store_of taken) = dict_get k (store_of st)) ∧
  pop_job token taken = (taken, Ret None) ∧
  (dict_get token (store_of st) = None →
     on_download_choice w (Some q) st
     = (extend st [EAnswer; EEditText SelectionExpired],
        w_edit_text w SelectionExpired)) ∧
  on_download_choice w (Some q) taken
  = (extend taken [EAnswer; EEditText SelectionExpired],
     w_edit_text w SelectionExpired).
Proof.
  intros Hwf Hsplit Hanswer taken.
  destruct (pop_job_run token st) as (Hret & Htrace & Hstore). fold taken in Htrace, Hstore.
  assert (Hgone : dict_get token (store_of taken) = None).
  { rewrite Hstore, dict_get_pop by done. by rewrite decide_True. }
  assert (Hexpired : ∀ st0, dict_get token (store_of st0) = None →
            on_download_choice w (Some q) st0
            = (extend st0 [EAnswer; EEditText SelectionExpired],
               w_edit_text w SelectionExpired)).
  { intros st0 Habs.
    rewrite (on_download_choice_parsed w q st0 token mode Hsplit Hanswer).
    rewrite selection_expired by done. by rewrite extend_extend. }
  split; [done |]. split; [done |]. split; [done |]. split; [| split; [| split]].
  - intros k Hk. rewrite Hstore, dict_get_pop by done. by rewrite decide_False.
  - by apply pop_job_absent.
  - apply Hexpired.
  - by apply Hexpired.
Qed.

Lemma pop_job_take_twice :
  let q := {| data := Some "dl|AAAAAAAAAAA|h720" |} in
  let w := calm_world Byte.x00 (nth_dir 1) in
  dict_wf (store_of one_job_state) ∧
  Py.split_max "|" 2 (default "" (data q)) = ["dl"; "AAAAAAAAAAA"; "h720"] ∧
  w_answer w = Ret tt ∧
  on_download_choice w (Some q) (pop_job "AAAAAAAAAAA" one_job_state).1
  = ({| user_data := Some []; trace := [EAnswer; EEditText SelectionExpired] |}, Ret tt).
Proof.
  intros q w.
  assert (Hwf : dict_wf (store_of one_job_state)).
  { apply (bool_decide_unpack _). by vm_compute. }
  assert (Hsplit : Py.split_max "|" 2 (default "" (data q))
                   = ["dl"; "AAAAAAAAAAA"; "h720"]) by reflexivity.
  assert (Hanswer : w_answer w = Ret tt) by reflexivity.
  split; [exact Hwf |]. split; [exact Hsplit |]. split; [exact Hanswer |].
  apply (pop_job_take w q one_job_state "AAAAAAAAAAA" "h720" Hwf Hsplit Hanswer).
Defined.

(** ** The token of a new job *)

Section new_token.

Lemma dict_get_app_fresh (a b : dl_store) k :
  k ∉ keys a → dict_get k (a ++ b)%list = dict_get k b.
Proof.
  induction a as [|[k' v'] a IH]; simpl; [done |].
  rewrite not_elem_of_cons. intros [Hne Hnotin].
  rewrite bool_decide_eq_false_2 by done. by apply IH.
Qed.

Lemma token_of_entropy (w w' : world) :
  token_of w' = token_of w ↔ ∀ i, (i < 8)%nat → w_entropy w' i = w_entropy w i.
Proof.
  split; [apply token_urlsafe_8_inj |].
  intros H. unfold token_of, Secrets.token_urlsafe, Secrets.token_bytes.
  simpl map. by rewrite !H by lia.
Qed.

Lemma token_of_shape (w : world) :
  String.length (token_of w) = 11%nat ∧
  Forall (fun c => Secrets.url_safe_char c = true) (Py.chars (token_of w)).
Proof.
  unfold token_of. rewrite token_urlsafe_8. split.
  - done.
  - rewrite chars_string_of_chars. apply Forall_fmap.
    eapply Forall_impl; [apply (sextets8_bound (w_entropy w)) |].
    intros n Hn. by apply sextet_char_safe.
Qed.

(** The new job is in the store after the call, whether its token was
    new or not. *)
Lemma store_new_job_present w url tmpdir st :
  dict_wf (store_of st) → (length (store_of st) ≤ 50)%nat →
  dict_get (token_of w) (store_of (store_new_job w url tmpdir st).1)
  = Some {| job_url := url; job_tmpdir := tmpdir |}.
Proof.
  intros Hwf Hlen. rewrite (store_new_job_run w url tmpdir st Hwf).
  unfold store_of at 1. simpl.
  destruct (decide (token_of w ∈ keys (store_of st))) as [Hin|Hfresh].
  - pose proof (length_dict_set (store_of st) (token_of w)
                  {| job_url := url; job_tmpdir := tmpdir |}) as Hl.
    rewrite decide_True in Hl by done. rewrite Hl.
    replace (length (store_of st) - 50)%nat with 0%nat by lia.
    rewrite drop_0, dict_get_set. by rewrite decide_True.
  - rewrite dict_set_fresh by done. rewrite length_app. simpl.
    rewrite drop_app_le by lia. rewrite dict_get_app_fresh.
    + simpl. by rewrite bool_decide_eq_true_2.
    + intros Hin. apply Hfresh. unfold keys in *. rewrite fmap_drop in Hin.
      eapply elem_of_sublist; [exact Hin | apply sublist_drop].
Qed.

(** A repeated token overwrites the job in place: same keys, nothing evicted. *)
Lemma store_new_job_repeat w url tmpdir st :
  dict_wf (store_of st) → (length (store_of st) ≤ 50)%nat →
  token_of w ∈ keys (store_of st) →
  keys (store_of (store_new_job w url tmpdir st).1) = keys (store_of st) ∧
  trace (store_new_job w url tmpdir st).1 = trace st.
Proof.
  intros Hwf Hlen Hin. rewrite (store_new_job_run w url tmpdir st Hwf).
  unfold store_of at 1. simpl.
  pose proof (length_dict_set (store_of st) (token_of w)
                {| job_url := url; job_tmpdir := tmpdir |}) as Hl.
  rewrite decide_True in Hl by done. rewrite Hl.
  replace (length (store_of st) - 50)%nat with 0%nat by lia.
  rewrite drop_0, take_0. simpl.
  split; [by apply keys_set_present | by rewrite (right_id_L [] (++)%list)].
Qed.

End new_token.

(** C9, as amended.  The token that [store_new_job] returns is the
    URL-safe base64 text of its 8 random bytes: 11 characters among
    letters, digits, [-] and [_], and two calls return the same token
    exactly when their 8 bytes are the same.  The store is not looked
    at when the token is drawn: the new job is under the token after
    the call in any case, and when the token is already a key the store
    keeps its keys in their order and the call itself makes no call to
    [cleanup()] or anything else outside. *)
Theorem store_new_job_token (w w' : world) (url : string)
    (tmpdir : TemporaryDirectory) (st : state) :
  dict_wf (store_of st) →
  (length (store_of st) ≤ 50)%nat →
  let token := token_of w in
  let st' := (store_new_job w url tmpdir st).1 in
  (store_new_job w url tmpdir st).2 = Ret token ∧
  String.length token = 11%nat ∧
  Forall (fun c => Secrets.url_safe_char c = true) (Py.chars token) ∧
  (token_of w' = token ↔ ∀ i, (i < 8)%nat → w_entropy w' i = w_entropy w i) ∧
  dict_get token (store_of st') = Some {| job_url := url; job_tmpdir := tmpdir |} ∧
  (token ∈ keys (store_of st) →
     keys (store_of st') = keys (store_of st) ∧ trace st' = trace st).
Proof.
  intros Hwf Hlen token st'.
  split; [by rewrite (store_new_job_run w url tmpdir st Hwf) |].
  split; [apply token_of_shape |]. split; [apply token_of_shape |].
  split; [apply token_of_entropy |].
  split; [by apply store_new_job_present |].
  by apply store_new_job_repeat.
Qed.

Lemma store_new_job_token_repeated :
  let w := calm_world Byte.x00 (nth_dir 1) in
  dict_wf (store_of one_job_state) ∧
  (length (store_of one_job_state) ≤ 50)%nat ∧
  token_of w ∈ keys (store_of one_job_state) ∧
  dict_get (token_of w)
    (store_of (store_new_job w "https://example.com/w" (nth_dir 1) one_job_state).1)
  = Some {| job_url := "https://example.com/w"; job_tmpdir := nth_dir 1 |} ∧
  trace (store_new_job w "https://example.com/w" (nth_dir 1) one_job_state).1 = [].
Proof.
  intros w.
  assert (Hwf : dict_wf (store_of one_job_state)).
  { apply (bool_decide_unpack _). by vm_compute. }
  assert (Hlen : (length (store_of one_job_state) ≤ 50)%nat).
  { simpl. lia. }
  assert (Hin : token_of w ∈ keys (store_of one_job_state)).
  { apply (bool_decide_unpack _). by vm_compute. }
  pose proof (store_new_job_token w w "https://example.com/w" (nth_dir 1)
                one_job_state Hwf Hlen) as (_ & _ & _ & _ & Hget & Hrepeat).
  split; [exact Hwf |]. split; [exact Hlen |]. split; [exact Hin |].
  split; [exact Hget |]. exact (proj2 (Hrepeat Hin)).
Defined.

(** C9, as stated, fails: with the random bytes of a live token, the
    token returned is a key of the store at the time of insertion. *)
Lemma store_new_job_token_not_always_fresh : ¬ token_always_fresh.
Proof.
  intros Hfresh.
  apply (Hfresh (calm_world Byte.x00 (nth_dir 1)) "https://example.com/w"
           (nth_dir 1) one_job_state "AAAAAAAAAAA").
  - apply (bool_decide_unpack _). by vm_compute.
  - by vm_compute.
  - apply (bool_decide_unpack _). by vm_compute.
Qed.

(** ** Payloads *)

Section payloads.

Lemma split_max_not_nil sep n s : Py.split_max sep n s ≠ [].
Proof.
  destruct n as [|n]; [by destruct s |]. destruct s as [|c s]; simpl; [done |].
  destruct (Ascii.eqb c sep); [done |]. by destruct (Py.split_max sep (S n) s).
Qed.

(** Cutting at most [n] times gives the fields of the full split, the
    last [n]-th one keeping the rest of the text. *)
Lemma split_max_length sep n s :
  length (Py.split_max sep n s) = (S n `min` length (Py.split sep s))%nat.
Proof.
  revert n. induction s as [|c s IH]; intros n.
  - by destruct n.
  - destruct n as [|n].
    + simpl. pose proof (split_not_nil sep (String c s)) as Hne.
      simpl in Hne. destruct (Ascii.eqb c sep); simpl; [lia |].
      destruct (Py.split sep s); simpl; lia.
    + simpl. destruct (Ascii.eqb c sep); simpl.
      * rewrite IH. destruct (length (Py.split sep s)); lia.
      * specialize (IH (S n)).
        pose proof (split_max_not_nil sep (S n) s).
        pose proof (split_not_nil sep s).
        destruct (Py.split_max sep (S n) s), (Py.split sep s); simpl in *; done.
Qed.

Lemma split_max_head sep n s :
  head (Py.split_max sep (S n) s) = head (Py.split sep s).
Proof.
  induction s as [|c s IH]; simpl; [done |].
  destruct (Ascii.eqb c sep); [done |].
  pose proof (split_max_not_nil sep (S n) s).
  pose proof (split_not_nil sep s).
  destruct (Py.split_max sep (S n) s), (Py.split sep s); simplify_eq/=; done.
Qed.

(** A payload with fewer than three fields, or with another tag, is
    answered with the notice about the button data and nothing else. *)
Lemma on_download_choice_invalid w q st :
  (length (fields (default "" (data q))) < 3)%nat
  ∨ head (fields (default "" (data q))) ≠ Some "dl" →
  on_download_choice w (Some q) st
  = (call EAnswer (w_answer w) ≫= fun _ => edit_text w InvalidButtonData) st.
Proof.
  unfold fields. intros Hbad. unfold on_download_choice.
  pose proof (split_max_length "|" 2 (default "" (data q))) as Hlen.
  pose proof (split_max_head "|" 1 (default "" (data q))) as Hhead.
  destruct (Py.split_max "|" 2 (default "" (data q))) as [|tag [|token [|mode [|]]]];
    try done.
  simpl length in Hlen. simpl in Hhead. case_bool_decide as Htag; [| done].
  destruct Hbad as [Hfew|Htag']; [lia | congruence].
Qed.

End payloads.

(** C8, as amended.  A payload with fewer than three fields, or whose
    first field is not [dl], is answered with the notice about invalid
    button data and changes nothing: the store is the same, and nothing
    is called but the acknowledgement and the notice.  (A payload with
    more than three fields and the tag [dl] is not refused: the fields
    after the second separator are the mode.) *)
Theorem on_download_choice_rejects (w : world) (q : CallbackQuery) (st : state) :
  (length (fields (default "" (data q))) < 3)%nat
  ∨ head (fields (default "" (data q))) ≠ Some "dl" →
  w_answer w = Ret tt →
  on_download_choice w (Some q) st
  = (extend st [EAnswer; EEditText InvalidButtonData], w_edit_text w InvalidButtonData) ∧
  user_data (on_download_choice w (Some q) st).1 = user_data st.
Proof.
  intros Hbad Hanswer. rewrite (on_download_choice_invalid w q st Hbad).
  cbv [mbind M_bind bind call edit_text extend]. rewrite Hanswer.
  cbn [user_data trace fst]. by rewrite <- (assoc_L (++)%list).
Qed.

Lemma on_download_choice_rejects_two_fields :
  let q := {| data := Some "dl|AAAAAAAAAAA" |} in
  let w := calm_world Byte.x00 (nth_dir 1) in
  ((length (fields (default "" (data q))) < 3)%nat
   ∨ head (fields (default "" (data q))) ≠ Some "dl") ∧
  w_answer w = Ret tt ∧
  on_download_choice w (Some q) one_job_state
  = (extend one_job_state [EAnswer; EEditText InvalidButtonData], Ret tt).
Proof.
  intros q w.
  assert (Hbad : (length (fields (default "" (data q))) < 3)%nat
                 ∨ head (fields (default "" (data q))) ≠ Some "dl").
  { left. simpl. lia. }
  assert (Hanswer : w_answer w = Ret tt) by reflexivity.
  split; [exact Hbad |]. split; [exact Hanswer |].
  apply (on_download_choice_rejects w q one_job_state Hbad Hanswer).
Defined.

(** C8, as stated, fails for a payload of four fields: it has not the
    shape of three fields, yet the job is taken from the store, the
    download is asked for and the directory is released. *)
Lemma on_download_choice_takes_four_fields :
  let q := {| data := Some "dl|AAAAAAAAAAA|best|x" |} in
  let w := calm_world Byte.x00 (nth_dir 1) in
  wrong_shape "dl|AAAAAAAAAAA|best|x" ∧
  user_data (on_download_choice w (Some q) one_job_state).1 = Some [] ∧
  user_data one_job_state ≠ Some [] ∧
  (EEditText InvalidButtonData
     ∉ trace (on_download_choice w (Some q) one_job_state).1) ∧
  (EExtract "https://example.com/v" true (Some "bestvideo*+bestaudio/best") (nth_dir 0))
    ∈ trace (on_download_choice w (Some q) one_job_state).1 ∧
  releases (nth_dir 0) (trace (on_download_choice w (Some q) one_job_state).1) = 1%nat.
Proof.
  intros q w. split; [left; by vm_compute |].
  split; [by vm_compute |]. split; [done |].
  assert (Htrace : trace (on_download_choice w (Some q) one_job_state).1
                   = [EAnswer; EEditText (Downloading "https://example.com/v");
                      EExtract "https://example.com/v" true
                        (Some "bestvideo*+bestaudio/best") (nth_dir 0);
                      ESendAction; EReplyVideo "clip123.mp4" "Clip";
                      EEditText Ready; ECleanup (nth_dir 0)]) by by vm_compute.
  rewrite Htrace. split; [| split; [| by vm_compute]].
  - intros Hin. repeat (apply elem_of_cons in Hin as [Hin|Hin]; [done |]).
    by apply elem_of_nil in Hin.
  - rewrite !elem_of_cons. right. right. by left.
Qed.

(** ** What a computation adds to the trace *)

Section emits.

Context (P : event → Prop).

Lemma emits_ret {A} (a : A) : emits P (ret a).
Proof. intros st. exists []. by rewrite extend_nil. Qed.

Lemma emits_raise {A} (e : exn) : emits P (@raise A e).
Proof. intros st. exists []. by rewrite extend_nil. Qed.

Lemma emits_call {A} (ev : event) (r : result A) : P ev → emits P (call ev r).
Proof. intros Hev st. exists [ev]. split; [done | by constructor]. Qed.

Lemma emits_bind {A B} (m : M A) (k : A → M B) :
  emits P m → (∀ a, emits P (k a)) → emits P (m ≫= k).
Proof.
  intros Hm Hk st. destruct (Hm st) as (e1 & H1 & F1).
  unfold mbind, M_bind, bind. destruct (m st) as [st1 [a|e]]; simpl in H1; subst st1.
  - destruct (Hk a (extend st e1)) as (e2 & H2 & F2).
    exists (e1 ++ e2)%list. rewrite H2, extend_extend. split; [done |].
    by apply Forall_app.
  - by exists e1.
Qed.

Lemma emits_try_except {A} (m : M A) (h : exn → M A) :
  emits P m → (∀ e, emits P (h e)) → emits P (try_except m h).
Proof.
  intros Hm Hh st. destruct (Hm st) as (e1 & H1 & F1).
  unfold try_except. destruct (m st) as [st1 [a|e]]; simpl in H1; subst st1.
  - by exists e1.
  - destruct (Hh e (extend st e1)) as (e2 & H2 & F2).
    exists (e1 ++ e2)%list. rewrite H2, extend_extend. split; [done |].
    by apply Forall_app.
Qed.

Lemma emits_ignoring (m : M unit) : emits P m → emits P (ignoring_errors m).
Proof. intros Hm. apply emits_try_except; [done |]. intros e. apply emits_ret. Qed.

Lemma emits_pick w d media_id : emits P (pick_filename_from_dir w d media_id).
Proof.
  intros st. exists []. rewrite extend_nil. unfold pick_filename_from_dir.
  by destruct (w_iterdir w d).
Qed.

End emits.

Section delivery_events.

(** Goals [emits delivery_event m] for the code of the delivery. *)
Ltac emits_step :=
  first
    [ apply emits_ret
    | apply emits_raise
    | apply emits_pick
    | apply emits_call; exact I
    | apply emits_ignoring
    | apply emits_bind; [| intros ?]
    | apply emits_try_except; [| intros ?]
    | match goal with
      | |- emits _ (match ?x with _ => _ end) => destruct x
      end ].

Lemma emits_video_attempts w file caption attempts :
  emits delivery_event (video_attempts w file caption attempts).
Proof.
  induction attempts as [|attempt rest IH]; simpl; [apply emits_ret |].
  apply emits_bind.
  - unfold video_attempt, edit_text. repeat emits_step.
  - intros []; [apply emits_ret | apply emits_ret | exact IH].
Qed.

Lemma emits_document_attempts w file caption attempts :
  emits delivery_event (document_attempts w file caption attempts).
Proof.
  induction attempts as [|attempt rest IH]; simpl; [apply emits_ret |].
  apply emits_bind.
  - unfold document_attempt, edit_text. repeat emits_step.
  - intros []; [apply emits_ret | apply emits_ret | exact IH].
Qed.

Lemma emits_send w file caption :
  emits delivery_event (_send_with_retries_as_video_or_doc w file caption).
Proof.
  unfold _send_with_retries_as_video_or_doc.
  apply emits_bind; [repeat emits_step |]. intros _.
  apply emits_bind; [apply emits_video_attempts |].
  intros [s|]; [apply emits_ret | apply emits_document_attempts].
Qed.

(** The download and the delivery: the request to the extractor, with
    the format expression of the height, then events of the delivery,
    then one release of the job's directory; the store is not touched. *)
Lemma fetch_and_deliver_trace w url d height st :
  ∃ evs,
    (fetch_and_deliver w url d height st).1
    = extend st (EExtract url true (Some (build_format_string height)) d
                   :: evs ++ [ECleanup d])%list ∧
    Forall delivery_event evs.
Proof.
  unfold fetch_and_deliver, try_finally.
  set (body := try_except _ _).
  assert (Hbody : ∃ evs, (body st).1
              = extend st (EExtract url true (Some (build_format_string height)) d :: evs)
              ∧ Forall delivery_event evs).
  { subst body. unfold try_except at 1, ytdlp_extract.
    unfold mbind at 1, M_bind at 1, bind at 1, call at 1.
    fold (extend st [EExtract url true (Some (build_format_string height)) d]).
    set (st1 := extend st _).
    assert (Hhandler : ∀ e, emits delivery_event
              (ignoring_errors (edit_text w (DownloadFailed e)))).
    { intros e. unfold edit_text. repeat emits_step. }
    destruct (w_extract w true) as [i|e].
    - match goal with
      | |- context [match ?k st1 with _ => _ end] =>
          assert (Hk : emits delivery_event (fun st => k st))
      end.
      { destruct i as [i|]; unfold edit_text;
          repeat first [emits_step | apply emits_send]. }
      destruct (Hk st1) as (e1 & H1 & F1). cbv beta in H1.
      match goal with
      | |- context [match ?k st1 with _ => _ end] =>
          destruct (k st1) as [st2 [a|e]]
      end; simpl in H1; subst st2.
      + exists e1. subst st1. by rewrite extend_extend.
      + destruct (Hhandler e (extend st1 e1)) as (e2 & H2 & F2).
        exists (e1 ++ e2)%list. rewrite H2. subst st1. rewrite !extend_extend.
        split; [done | by apply Forall_app].
    - destruct (Hhandler e st1) as (e2 & H2 & F2).
      exists e2. rewrite H2. subst st1. by rewrite extend_extend.
  }
  destruct Hbody as (evs & Hst & Hevs). exists evs. split; [| done].
  destruct (body st) as [st' r]. simpl in Hst. subst st'.
  rewrite ignoring_cleanup. simpl. rewrite extend_extend.
  by rewrite <- app_comm_cons.
Qed.

End delivery_events.

(** ** Modes *)

Section modes.

Lemma int_digits_chars after acc s z :
  Py.int_digits after acc s = Some z →
  Forall (fun c => Py.isdigit c = true ∨ c = "_"%char) (Py.chars s).
Proof.
  revert after acc. induction s as [|c s IH]; intros after acc; simpl; [done |].
  destruct (Py.isdigit c) eqn:Hd.
  - intros H. constructor; [by left | by eapply IH].
  - destruct (Ascii.eqb_spec c "_") as [->|]; [| done].
    destruct after; simpl; [| done].
    destruct s as [|d s']; [done |].
    destruct (Py.isdigit d); [| done].
    intros H. constructor; [by right | by eapply IH].
Qed.

Lemma bar_in_lstrip s : "|"%char ∈ Py.chars s → "|"%char ∈ Py.chars (Py.lstrip s).
Proof.
  induction s as [|c s IH]; simpl; [done |].
  destruct (Py.int_space c) eqn:Hsp; [| done].
  intros [Heq|Hin]%elem_of_cons; [subst c; by vm_compute in Hsp | by apply IH].
Qed.

Lemma bar_in_rstrip s : "|"%char ∈ Py.chars s → "|"%char ∈ Py.chars (Py.rstrip s).
Proof.
  induction s as [|c s IH]; simpl; [done |].
  intros [Heq|Hin]%elem_of_cons.
  - subst c. destruct (Py.rstrip s); simpl; apply elem_of_cons; by left.
  - specialize (IH Hin). destruct (Py.rstrip s); [by apply elem_of_nil in IH |].
    simpl in *. apply elem_of_cons. by right.
Qed.

(** [int] refuses a text with a separator in it. *)
Lemma int_no_bar s z : Py.int s = Some z → "|"%char ∉ Py.chars s.
Proof.
  intros Hint Hin. apply bar_in_lstrip, bar_in_rstrip in Hin.
  unfold Py.int in Hint. destruct (Py.rstrip (Py.lstrip s)) as [|c d]; [done |].
  assert (Hd : ∀ after acc t z', Py.int_digits after acc t = Some z' →
                 "|"%char ∉ Py.chars t).
  { intros after acc t z' Ht Hbar. apply int_digits_chars in Ht.
    rewrite Forall_forall in Ht. by destruct (Ht _ Hbar). }
  simpl in Hin. apply elem_of_cons in Hin as [<-|Hin].
  - by simpl in Hint.
  - destruct (Ascii.eqb c "-").
    + apply fmap_Some in Hint as (z' & Hint & _). by apply Hd in Hint.
    + destruct (Ascii.eqb c "+"); [by apply Hd in Hint |].
      apply Hd in Hint. apply Hint. simpl. apply elem_of_cons. by right.
Qed.

Lemma chosen_height_format mode :
  ¬ height_mode mode →
  build_format_string (chosen_height mode) = "bestvideo*+bestaudio/best".
Proof.
  intros Hmode. unfold chosen_height. case_bool_decide; [done |].
  destruct mode as [|c digits]; [done |].
  change (Py.startswith "h" (String c digits)) with (Ascii.eqb "h" c && true).
  change (str_drop 1 (String c digits)) with digits.
  destruct (Ascii.eqb_spec "h" c) as [<-|]; [| done]. cbn [andb].
  destruct (Py.int digits) as [z|] eqn:Hint; [| done].
  destruct (decide (z = 0)) as [->|Hz]; [done |].
  exfalso. apply Hmode. by exists digits, z.
Qed.

Lemma fetch_and_deliver_format w url d height height' :
  build_format_string height = build_format_string height' →
  fetch_and_deliver w url d height = fetch_and_deliver w url d height'.
Proof. intros H. unfold fetch_and_deliver. cbv zeta. by rewrite H. Qed.

(** A mode that does not ask for a height is handled as [best]. *)
Lemma selection_as_best w token mode st :
  ¬ height_mode mode → selection w token mode st = selection w token "best" st.
Proof.
  intros Hmode. unfold selection, mbind, M_bind, bind.
  destruct (pop_job token st) as [st1 [[j|]|e]]; [| done | done].
  case_bool_decide; [done |].
  destruct (edit_text w (Downloading (job_url j)) st1) as [st2 [[]|e]]; [| done].
  rewrite (fetch_and_deliver_format w _ _ (chosen_height mode) (chosen_height "best"));
    [done |].
  by rewrite chosen_height_format.
Qed.

(** A selection of a job in the store, when the notice of the download
    goes through: the job is taken and the download starts. *)
Lemma selection_live w token mode st j :
  dict_get token (store_of st) = Some j →
  job_url j ≠ "" →
  w_edit_text w (Downloading (job_url j)) = Ret tt →
  selection w token mode st
  = fetch_and_deliver w (job_url j) (job_tmpdir j) (chosen_height mode)
      (extend (pop_job token st).1 [EEditText (Downloading (job_url j))]).
Proof.
  intros Hget Hurl Hedit. unfold selection, mbind, M_bind, bind.
  destruct (pop_job_run token st) as (Hret & _ & _).
  destruct (pop_job token st) as [st1 r]. simpl in Hret. subst r. rewrite Hget.
  rewrite bool_decide_eq_false_2 by done.
  cbv [edit_text call]. by rewrite Hedit.
Qed.

(** The same selection when the notice of the download fails: the
    exception leaves the handler, and the directory is not released. *)
Lemma selection_notice_fails w token mode st j e :
  dict_get token (store_of st) = Some j →
  job_url j ≠ "" →
  w_edit_text w (Downloading (job_url j)) = Raise e →
  selection w token mode st
  = (extend (pop_job token st).1 [EEditText (Downloading (job_url j))], Raise e).
Proof.
  intros Hget Hurl Hedit. unfold selection, mbind, M_bind, bind.
  destruct (pop_job_run token st) as (Hret & _ & _).
  destruct (pop_job token st) as [st1 r]. simpl in Hret. subst r. rewrite Hget.
  rewrite bool_decide_eq_false_2 by done.
  cbv [edit_text call]. by rewrite Hedit.
Qed.

End modes.

Section mode_examples.

Lemma not_height_mode_h0 : ¬ height_mode "h0".
Proof.
  intros (d & z & Heq & Hint & Hz). simplify_eq. vm_compute in Hint. by simplify_eq.
Qed.

Lemma not_height_mode_hx : ¬ height_mode "hx".
Proof. intros (d & z & Heq & Hint & Hz). by simplify_eq. Qed.

Lemma not_height_mode_bar mode : "|"%char ∈ Py.chars mode → ¬ height_mode mode.
Proof.
  intros Hbar (d & z & -> & Hint & _). simpl in Hbar.
  apply elem_of_cons in Hbar as [Hbar|Hbar]; [done |].
  by apply int_no_bar in Hint.
Qed.

Lemma not_height_mode_other mode : Py.startswith "h" mode = false → ¬ height_mode mode.
Proof. intros Hh (d & z & -> & _). by vm_compute in Hh. Qed.

End mode_examples.

(** C10.  A payload [dl|token|mode] for a job in the store, whose mode is
    not [h] followed by an integer other than zero (as [int] reads it),
    is not refused: the handler does exactly what it does for the mode
    [best]; the job is taken from the store and the extractor is asked
    for the expression ["bestvideo*+bestaudio/best"].  Such modes are
    [h0], [hx], every text that does not start with [h], and every text
    with a further separator in it, which is what a payload of more than
    three fields leaves as its mode. *)
Theorem selection_of_other_mode (w : world) (q q_best : CallbackQuery) (st : state)
    (token mode : string) (j : job) :
  Py.split_max "|" 2 (default "" (data q)) = ["dl"; token; mode] →
  Py.split_max "|" 2 (default "" (data q_best)) = ["dl"; token; "best"] →
  ascii_text mode →
  ¬ height_mode mode →
  dict_wf (store_of st) →
  dict_get token (store_of st) = Some j →
  job_url j ≠ "" →
  w_answer w = Ret tt →
  w_edit_text w (Downloading (job_url j)) = Ret tt →
  let run := on_download_choice w (Some q) st in
  run = on_download_choice w (Some q_best) st ∧
  dict_get token (store_of run.1) = None ∧
  (∃ evs,
     trace run.1
     = (trace st
        ++ [EAnswer; EEditText (Downloading (job_url j));
            EExtract (job_url j) true (Some "bestvideo*+bestaudio/best") (job_tmpdir j)]
        ++ evs ++ [ECleanup (job_tmpdir j)])%list ∧
     Forall delivery_event evs) ∧
  ¬ height_mode "h0" ∧ ¬ height_mode "hx" ∧
  (∀ m, Py.startswith "h" m = false → ¬ height_mode m) ∧
  (∀ m, "|"%char ∈ Py.chars m → ¬ height_mode m).
Proof.
  intros Hsplit Hbest _ Hmode Hwf Hget Hurl Hanswer Hedit run. subst run.
  rewrite (on_download_choice_parsed w q st token mode Hsplit Hanswer).
  rewrite (on_download_choice_parsed w q_best st token "best" Hbest Hanswer).
  split; [by apply selection_as_best |].
  assert (Hget' : dict_get token (store_of (extend st [EAnswer])) = Some j) by done.
  rewrite (selection_live w token mode _ j Hget' Hurl Hedit).
  destruct (fetch_and_deliver_trace w (job_url j) (job_tmpdir j) (chosen_height mode)
              (extend (pop_job token (extend st [EAnswer])).1
                 [EEditText (Downloading (job_url j))])) as (evs & Hrun & Hevs).
  rewrite Hrun. rewrite (chosen_height_format mode Hmode).
  destruct (pop_job_run token (extend st [EAnswer])) as (_ & Htrace & Hstore).
  split; [| split].
  - unfold store_of at 1. cbn [extend user_data]. fold (store_of (pop_job token (extend st [EAnswer])).1).
    rewrite Hstore, dict_get_pop by done. by rewrite decide_True.
  - exists evs. split; [| done]. cbn [extend trace fst]. rewrite Htrace.
    cbn [extend trace]. by rewrite <- !(assoc_L (++)%list).
  - auto using not_height_mode_h0, not_height_mode_hx, not_height_mode_other,
      not_height_mode_bar.
Qed.

Lemma selection_of_other_mode_h0 :
  let w := calm_world Byte.x00 (nth_dir 1) in
  let q := {| data := Some "dl|AAAAAAAAAAA|h0" |} in
  let q_best := {| data := Some "dl|AAAAAAAAAAA|best" |} in
  ascii_text "h0" ∧ ¬ height_mode "h0" ∧ dict_wf (store_of one_job_state) ∧
  on_download_choice w (Some q) one_job_state
  = on_download_choice w (Some q_best) one_job_state.
Proof.
  intros w q q_best.
  assert (Hascii : ascii_text "h0").
  { unfold ascii_text. simpl. repeat constructor; simpl; lia. }
  assert (Hwf : dict_wf (store_of one_job_state)).
  { apply (bool_decide_unpack _). by vm_compute. }
  split; [exact Hascii |]. split; [exact not_height_mode_h0 |]. split; [exact Hwf |].
  apply (selection_of_other_mode w q q_best one_job_state "AAAAAAAAAAA" "h0"
           {| job_url := "https://example.com/v"; job_tmpdir := nth_dir 0 |}
           eq_refl eq_refl Hascii not_height_mode_h0 Hwf eq_refl
           ltac:(discriminate) eq_refl eq_refl).
Defined.

(** ** Releases of the scratch directory *)

Section scratch.

Lemma releases_delivery d evs : Forall delivery_event evs → releases d evs = 0%nat.
Proof.
  induction 1 as [|ev evs Hev _ IH]; [done |].
  rewrite releases_cons, IH. by destruct ev.
Qed.

(** The download and the delivery release the directory exactly once,
    whatever the extractor, the file system and the transport answer. *)
Lemma fetch_and_deliver_releases_once w url d height st :
  releases d (trace (fetch_and_deliver w url d height st).1)
  = S (releases d (trace st)).
Proof.
  destruct (fetch_and_deliver_trace w url d height st) as (evs & -> & Hevs).
  cbn [extend trace]. rewrite releases_app, releases_cons, releases_app.
  rewrite (releases_delivery d evs Hevs), releases_cons, releases_nil. simpl.
  rewrite bool_decide_eq_true_2 by done. lia.
Qed.

(** A selection of a job in the store, once the notice of the download
    has gone through, releases the job's directory exactly once. *)
Lemma on_download_choice_releases_once w q st token mode j :
  Py.split_max "|" 2 (default "" (data q)) = ["dl"; token; mode] →
  dict_get token (store_of st) = Some j →
  job_url j ≠ "" →
  w_answer w = Ret tt →
  w_edit_text w (Downloading (job_url j)) = Ret tt →
  releases (job_tmpdir j) (trace (on_download_choice w (Some q) st).1)
  = S (releases (job_tmpdir j) (trace st)).
Proof.
  intros Hsplit Hget Hurl Hanswer Hedit.
  rewrite (on_download_choice_parsed w q st token mode Hsplit Hanswer).
  assert (Hget' : dict_get token (store_of (extend st [EAnswer])) = Some j) by done.
  rewrite (selection_live w token mode _ j Hget' Hurl Hedit).
  rewrite fetch_and_deliver_releases_once. cbn [extend trace].
  destruct (pop_job_run token (extend st [EAnswer])) as (_ & -> & _).
  cbn [extend trace]. rewrite !releases_app, !releases_cons, releases_nil.
  simpl. lia.
Qed.

(** A probe that finds nothing, or fails, releases the directory once,
    provided the notice of the failure goes through. *)
Lemma handle_text_probe_failure w m st url :
  extract_first_url (str_or (default "" (msg_text m)) (default "" (msg_caption m)))
  = Some url →
  w_reply_text w Analysing = Ret tt →
  (w_extract w false = Ret None ∧ w_edit_text w ProbeFailed = Ret tt
     ∧ w_cleanup w (w_mkdtemp w) = Ret tt
   ∨ ∃ e, w_extract w false = Raise e ∧ w_edit_text w (AnalysisError e) = Ret tt) →
  user_data (handle_text w (Some m) st).1 = user_data st ∧
  ∃ notice,
    trace (handle_text w (Some m) st).1
    = (trace st ++ [EReplyText Analysing; EExtract url false None (w_mkdtemp w);
                    EEditText notice; ECleanup (w_mkdtemp w)])%list.
Proof.
  intros Hurl Hreply Hprobe. unfold handle_text. rewrite Hurl.
  cbv [mbind M_bind bind reply_text call try_except ytdlp_extract edit_text cleanup].
  rewrite Hreply. cbn [user_data trace].
  destruct Hprobe as [(Hnone & Hedit & Hclean)|(e & Hraise & Hedit)].
  - rewrite Hnone, Hedit, Hclean. cbn [fst user_data trace]. split; [done |].
    exists ProbeFailed. by rewrite <- !(assoc_L (++)%list).
  - rewrite Hraise, Hedit. cbn [fst user_data trace]. split; [done |].
    exists (AnalysisError e). by rewrite <- !(assoc_L (++)%list).
Qed.

End scratch.

(** C1: where the code departs from it.  A selection of a job in the
    store whose notice of the download ([edit_message_text], line 301)
    raises: the job has been taken from the store, the exception leaves
    the handler before the [try ... finally], and the job's directory is
    not released. *)
Theorem on_download_choice_notice_failure (w : world) (q : CallbackQuery) (st : state)
    (token mode : string) (j : job) (e : exn) :
  Py.split_max "|" 2 (default "" (data q)) = ["dl"; token; mode] →
  dict_wf (store_of st) →
  dict_get token (store_of st) = Some j →
  job_url j ≠ "" →
  w_answer w = Ret tt →
  w_edit_text w (Downloading (job_url j)) = Raise e →
  let run := on_download_choice w (Some q) st in
  run.2 = Raise e ∧
  dict_get token (store_of run.1) = None ∧
  trace run.1 = (trace st ++ [EAnswer; EEditText (Downloading (job_url j))])%list ∧
  releases (job_tmpdir j) (trace run.1) = releases (job_tmpdir j) (trace st).
Proof.
  intros Hsplit Hwf Hget Hurl Hanswer Hedit run. subst run.
  rewrite (on_download_choice_parsed w q st token mode Hsplit Hanswer).
  assert (Hget' : dict_get token (store_of (extend st [EAnswer])) = Some j) by done.
  rewrite (selection_notice_fails w token mode _ j e Hget' Hurl Hedit).
  destruct (pop_job_run token (extend st [EAnswer])) as (_ & Htrace & Hstore).
  cbn [fst snd]. split; [done |].
  assert (Htr : trace (extend (pop_job token (extend st [EAnswer])).1
                         [EEditText (Downloading (job_url j))])
                = (trace st ++ [EAnswer; EEditText (Downloading (job_url j))])%list).
  { cbn [extend trace]. rewrite Htrace. cbn [extend trace].
    by rewrite <- (assoc_L (++)%list). }
  split; [| split; [exact Htr |]].
  - unfold store_of at 1. cbn [extend user_data].
    fold (store_of (pop_job token (extend st [EAnswer])).1).
    rewrite Hstore, dict_get_pop by done. by rewrite decide_True.
  - rewrite Htr, releases_app, !releases_cons, releases_nil. simpl. lia.
Qed.

Lemma on_download_choice_notice_failure_example :
  let w := stalled_world Byte.x00 (nth_dir 1) in
  let q := {| data := Some "dl|AAAAAAAAAAA|best" |} in
  dict_wf (store_of one_job_state) ∧
  on_download_choice w (Some q) one_job_state
  = ({| user_data := Some [];
        trace := [EAnswer; EEditText (Downloading "https://example.com/v")] |},
     Raise TimedOut) ∧
  releases (nth_dir 0) (trace (on_download_choice w (Some q) one_job_state).1) = 0%nat.
Proof.
  intros w q.
  assert (Hwf : dict_wf (store_of one_job_state)).
  { apply (bool_decide_unpack _). by vm_compute. }
  split; [exact Hwf |]. split; [by vm_compute |].
  apply (on_download_choice_notice_failure w q one_job_state "AAAAAAAAAAA" "best"
           {| job_url := "https://example.com/v"; job_tmpdir := nth_dir 0 |} TimedOut
           eq_refl Hwf eq_refl ltac:(discriminate) eq_refl eq_refl).
Defined.

(** ** Delivery *)

Section delivery.

Variables (w : world) (file caption : string).

Ltac unfold_delivery :=
  cbv [_send_with_retries_as_video_or_doc video_attempts video_attempt
       document_attempts document_attempt
       mbind M_bind bind try_except ignoring_errors call ret raise seq extend timeouts].

Ltac same_state :=
  cbn [user_data trace fst snd];
  rewrite <- ?(assoc_L (++)%list); simpl; reflexivity.

(** The document attempts, by the number [n] of timeouts before the
    first other answer. *)
Lemma document_attempts_sent (n : nat) st :
  (n ≤ 2)%nat →
  (∀ i, (i < n)%nat → w_reply_document w i = Raise TimedOut) →
  w_reply_document w n = Ret tt →
  document_attempts w file caption (seq 0 3) st
  = (extend st (timeouts (EReplyDocument file caption) 0 n
                  ++ [EReplyDocument file caption])%list,
     Ret (Some AsDocument)).
Proof.
  intros Hn Hto Hok.
  destruct n as [|[|[|n]]]; [| | | lia]; unfold_delivery.
  - rewrite Hok. same_state.
  - rewrite (Hto 0%nat) by lia. cbn [bool_decide decide_rel]. simpl.
    rewrite Hok. same_state.
  - rewrite (Hto 0%nat) by lia. simpl. rewrite (Hto 1%nat) by lia. simpl.
    rewrite Hok. same_state.
Qed.

Lemma document_attempts_exhausted st :
  (∀ i, (i < 3)%nat → w_reply_document w i = Raise TimedOut) →
  document_attempts w file caption (seq 0 3) st
  = (extend st (timeouts (EReplyDocument file caption) 0 2
                  ++ [EReplyDocument file caption])%list,
     Raise TimedOut).
Proof.
  intros Hto. unfold_delivery.
  rewrite (Hto 0%nat) by lia. simpl. rewrite (Hto 1%nat) by lia. simpl.
  rewrite (Hto 2%nat) by lia. simpl. same_state.
Qed.

(** Any other failure of a document attempt is raised at once. *)
Lemma document_attempts_failed (n : nat) st :
  (n ≤ 2)%nat →
  (∀ i, (i < n)%nat → w_reply_document w i = Raise TimedOut) →
  w_reply_document w n = Raise OtherError →
  document_attempts w file caption (seq 0 3) st
  = (extend st (timeouts (EReplyDocument file caption) 0 n
                  ++ [EReplyDocument file caption])%list,
     Raise OtherError).
Proof.
  intros Hn Hto Hfail.
  destruct n as [|[|[|n]]]; [| | | lia]; unfold_delivery.
  - rewrite Hfail. same_state.
  - rewrite (Hto 0%nat) by lia. simpl. rewrite Hfail. same_state.
  - rewrite (Hto 0%nat) by lia. simpl. rewrite (Hto 1%nat) by lia. simpl.
    rewrite Hfail. same_state.
Qed.

Lemma send_as_video (n : nat) st :
  (n ≤ 2)%nat →
  (∀ i, (i < n)%nat → w_reply_video w i = Raise TimedOut) →
  w_reply_video w n = Ret tt →
  _send_with_retries_as_video_or_doc w file caption st
  = (extend st (ESendAction :: timeouts (EReplyVideo file caption) 0 n
                  ++ [EReplyVideo file caption])%list,
     Ret (Some AsVideo)).
Proof.
  intros Hn Hto Hok.
  destruct n as [|[|[|n]]]; [| | | lia]; unfold_delivery;
    destruct (w_send_action w) as [[]|?].
  1,2: rewrite Hok; same_state.
  1,2: rewrite (Hto 0%nat) by lia; simpl; rewrite Hok; same_state.
  1,2: rewrite (Hto 0%nat) by lia; simpl; rewrite (Hto 1%nat) by lia; simpl;
       rewrite Hok; same_state.
Qed.

Lemma send_falls_through (n : nat) st :
  (n ≤ 2)%nat →
  (∀ i, (i < n)%nat → w_reply_video w i = Raise TimedOut) →
  w_reply_video w n = Raise OtherError ∨ (n = 2%nat ∧ w_reply_video w n = Raise TimedOut) →
  _send_with_retries_as_video_or_doc w file caption st
  = document_attempts w file caption (seq 0 3)
      (extend st (ESendAction :: timeouts (EReplyVideo file caption) 0 n
                    ++ [EReplyVideo file caption])%list).
Proof.
  intros Hn Hto Hlast.
  cbv [_send_with_retries_as_video_or_doc video_attempts video_attempt
       mbind M_bind bind try_except ignoring_errors call ret raise extend timeouts].
  cbn [seq].
  destruct (w_send_action w) as [[]|?];
    (destruct n as [|[|[|n]]]; [| | | lia];
     destruct Hlast as [Hfail|[? Hfail]]; try lia;
     rewrite ?(Hto 0%nat) by lia; simpl; rewrite ?(Hto 1%nat) by lia; simpl;
     rewrite Hfail; simpl; f_equal; same_state).
Qed.

End delivery.

(** C4.  The file is sent as a video at most three times: a timeout on
    attempt 1 or 2 is followed by a sleep of 2 or 4 seconds and the next
    attempt.  Any other failure of a video attempt, also of the third one
    after two timeouts, and a third timeout, are not raised: the file is
    then sent as a document, again at most three times with the same
    sleeps, and a third timeout of the document is raised to the caller.
    [n] is the number of timeouts before the first other answer. *)
Theorem delivery_retry_policy (w : world) (file caption : string) (st : state)
    (n : nat) :
  (n ≤ 2)%nat →
  let video := EReplyVideo file caption in
  let document := EReplyDocument file caption in
  let send := _send_with_retries_as_video_or_doc w file caption in
  let as_document := document_attempts w file caption (seq 0 3) in
  let after_video := extend st (ESendAction :: timeouts video 0 n ++ [video])%list in
  ((∀ i, (i < n)%nat → w_reply_video w i = Raise TimedOut) →
   w_reply_video w n = Ret tt →
   send st = (after_video, Ret (Some AsVideo))) ∧
  ((∀ i, (i < n)%nat → w_reply_video w i = Raise TimedOut) →
   w_reply_video w n = Raise OtherError →
   send st = as_document after_video) ∧
  ((∀ i, (i < 3)%nat → w_reply_video w i = Raise TimedOut) →
   send st
   = as_document (extend st (ESendAction :: timeouts video 0 2 ++ [video])%list)) ∧
  (∀ st',
     (∀ i, (i < n)%nat → w_reply_document w i = Raise TimedOut) →
     w_reply_document w n = Ret tt →
     as_document st'
     = (extend st' (timeouts document 0 n ++ [document])%list, Ret (Some AsDocument))) ∧
  (∀ st',
     (∀ i, (i < 3)%nat → w_reply_document w i = Raise TimedOut) →
     as_document st'
     = (extend st' (timeouts document 0 2 ++ [document])%list, Raise TimedOut)) ∧
  timeouts video 0 2 = [video; ESleep 2; video; ESleep 4].
Proof.
  intros Hn video document send as_document after_video.
  split; [| split; [| split; [| split; [| split]]]].
  - intros Hto Hok. by apply send_as_video.
  - intros Hto Hfail. apply send_falls_through; [done | done | by left].
  - intros Hto. apply send_falls_through; [lia | |].
    + intros i Hi. apply Hto. lia.
    + right. split; [done |]. apply Hto. lia.
  - intros st' Hto Hok. by apply document_attempts_sent.
  - intros st' Hto. by apply document_attempts_exhausted.
  - reflexivity.
Qed.

Lemma delivery_retry_policy_example :
  let w := {| w_answer := Ret tt;
              w_reply_text := fun _ => Ret tt;
              w_edit_text := fun _ => Ret tt;
              w_mkdtemp := nth_dir 0;
              w_entropy := fun _ => Byte.x00;
              w_extract := fun _ => Ret None;
              w_cleanup := fun _ => Ret tt;
              w_iterdir := fun _ => Ret [];
              w_exists := fun _ => true;
              w_send_action := Ret tt;
              w_reply_video := fun i => if bool_decide (i < 2)%nat
                                        then Raise TimedOut else Raise OtherError;
              w_reply_document := fun _ => Ret tt |} in
  (2 ≤ 2)%nat ∧
  (∀ i, (i < 2)%nat → w_reply_video w i = Raise TimedOut) ∧
  w_reply_video w 2 = Raise OtherError ∧
  _send_with_retries_as_video_or_doc w "clip.mp4" "Clip" empty_state
  = ({| user_data := None;
        trace := [ESendAction; EReplyVideo "clip.mp4" "Clip"; ESleep 2;
                  EReplyVideo "clip.mp4" "Clip"; ESleep 4;
                  EReplyVideo "clip.mp4" "Clip"; EReplyDocument "clip.mp4" "Clip"] |},
     Ret (Some AsDocument)).
Proof.
  intros w.
  assert (Hto : ∀ i, (i < 2)%nat → w_reply_video w i = Raise TimedOut).
  { intros i Hi. simpl. by rewrite bool_decide_eq_true_2. }
  assert (Hfail : w_reply_video w 2 = Raise OtherError) by reflexivity.
  split; [lia |]. split; [exact Hto |]. split; [exact Hfail |].
  pose proof (delivery_retry_policy w "clip.mp4" "Clip" empty_state 2 ltac:(lia))
    as (_ & Hfall & _ & Hdoc & _).
  rewrite (Hfall Hto Hfail).
  pose proof (delivery_retry_policy w "clip.mp4" "Clip" empty_state 0 ltac:(lia))
    as (_ & _ & _ & Hdoc0 & _).
  rewrite (Hdoc0 _ ltac:(intros; lia) eq_refl). reflexivity.
Defined.

(** When the menu cannot be shown (the edit of line 220 raises), the
    handler of [handle_text] releases the directory of a job that it has
    already put into the store: the job stays there with a directory
    that is gone, to be released again by a selection or an eviction. *)
Example handle_text_menu_failure :
  let d := {| dir_name := "/tmp/a" |} in
  let w := {| w_answer := Ret tt;
              w_reply_text := fun _ => Ret tt;
              w_edit_text := fun s => match s with
                                      | Menu _ _ _ => Raise TimedOut
                                      | _ => Ret tt
                                      end;
              w_mkdtemp := d;
              w_entropy := fun _ => Byte.x00;
              w_extract := w_extract (calm_world Byte.x00 d);
              w_cleanup := fun _ => Ret tt;
              w_iterdir := fun _ => Ret [];
              w_exists := fun _ => true;
              w_send_action := Ret tt;
              w_reply_video := fun _ => Ret tt;
              w_reply_document := fun _ => Ret tt |} in
  let m := {| msg_text := Some "see https://example.com/v"; msg_caption := None |} in
  let st := (handle_text w (Some m) empty_state).1 in
  dict_get "AAAAAAAAAAA" (store_of st)
  = Some {| job_url := "https://example.com/v"; job_tmpdir := d |} ∧
  releases d (trace st) = 1%nat ∧
  releases d (trace (on_download_choice (calm_world Byte.x00 d)
                       (Some {| data := Some "dl|AAAAAAAAAAA|best" |}) st).1) = 2%nat.
Proof. by vm_compute. Qed.

(* ===================================================================== *)
(** * Part III: further properties of the code                           *)
(* ===================================================================== *)

(** ** The download and delivery block *)

Section download_block.

Lemma ignoring_ret (m : M unit) st : (ignoring_errors m st).2 = Ret tt.
Proof. unfold ignoring_errors, try_except, ret. by destruct (m st) as [st' [[]|e]]. Qed.

Lemma fetch_and_deliver_returns w url d height st :
  (fetch_and_deliver w url d height st).2 = Ret tt.
Proof.
  unfold fetch_and_deliver, try_finally.
  set (body := try_except _ _).
  assert (Hbody : (body st).2 = Ret tt).
  { subst body. unfold try_except at 1.
    match goal with |- context [match ?m st with _ => _ end] => destruct (m st) as [st' [[]|e]] end;
      [done | apply ignoring_ret]. }
  destruct (body st) as [st' r]. simpl in Hbody. subst r.
  by rewrite ignoring_cleanup.
Qed.

Lemma releases_other d d' evs :
  d' ≠ d → Forall delivery_event evs →
  releases d' (evs ++ [ECleanup d]) = 0%nat.
Proof.
  intros Hne Hevs. rewrite releases_app, (releases_delivery d' evs Hevs).
  rewrite releases_cons, releases_nil. simpl. by rewrite bool_decide_eq_false_2.
Qed.

End download_block.

(** X1.  The block of lines 305-340 of [on_download_choice] never raises
    and leaves the store alone, whatever the extractor, the file system
    and the transport answer; its last call is the release of the job's
    directory, which it releases exactly once, and it releases no other
    directory. *)
Theorem fetch_and_deliver_safe (w : world) (url : string) (d d' : TemporaryDirectory)
    (height : option Z) (st : state) :
  d' ≠ d →
  let run := fetch_and_deliver w url d height st in
  run.2 = Ret tt ∧
  user_data run.1 = user_data st ∧
  last (trace run.1) = Some (ECleanup d) ∧
  releases d (trace run.1) = S (releases d (trace st)) ∧
  releases d' (trace run.1) = releases d' (trace st).
Proof.
  intros Hne run. subst run.
  split; [apply fetch_and_deliver_returns |].
  destruct (fetch_and_deliver_trace w url d height st) as (evs & Hrun & Hevs).
  rewrite Hrun. cbn [extend user_data trace]. split; [done |]. split; [| split].
  - rewrite app_comm_cons, !(assoc_L (++)%list). apply last_snoc.
  - rewrite releases_app, releases_cons, releases_app.
    rewrite (releases_delivery d evs Hevs), releases_cons, releases_nil. simpl.
    rewrite bool_decide_eq_true_2 by done. lia.
  - rewrite releases_app, releases_cons, (releases_other d d' evs Hne Hevs). simpl. lia.
Qed.

Lemma fetch_and_deliver_safe_example :
  nth_dir 1 ≠ nth_dir 0 ∧
  (fetch_and_deliver (calm_world Byte.x00 (nth_dir 1)) "https://example.com/v"
     (nth_dir 0) None one_job_state).2 = Ret tt ∧
  releases (nth_dir 1)
    (trace (fetch_and_deliver (calm_world Byte.x00 (nth_dir 1)) "https://example.com/v"
              (nth_dir 0) None one_job_state).1) = 0%nat.
Proof.
  assert (Hne : nth_dir 1 ≠ nth_dir 0) by discriminate.
  pose proof (fetch_and_deliver_safe (calm_world Byte.x00 (nth_dir 1))
                "https://example.com/v" (nth_dir 0) (nth_dir 1) None one_job_state Hne)
    as (Hret & _ & _ & _ & Hother).
  split; [exact Hne |]. split; [exact Hret | exact Hother].
Defined.

(** ** More on what a computation adds to the trace *)

Section emits_more.

Context (P : event → Prop).

Lemma emits_store {A} (m : M A) st : emits P m → store_of (m st).1 = store_of st.
Proof. intros Hm. by destruct (Hm st) as (evs & -> & _). Qed.

Lemma emits_weaken {A} (Q : event → Prop) (m : M A) :
  (∀ ev, Q ev → P ev) → emits Q m → emits P m.
Proof.
  intros HQ Hm st. destruct (Hm st) as (evs & Hst & Hevs).
  exists evs. split; [done |]. by eapply Forall_impl.
Qed.

Lemma emits_try_finally {A} (m : M A) (f : M unit) :
  emits P m → emits P f → emits P (try_finally m f).
Proof.
  intros Hm Hf st. destruct (Hm st) as (e1 & H1 & F1).
  unfold try_finally. destruct (m st) as [st1 r]. simpl in H1. subst st1.
  destruct (Hf (extend st e1)) as (e2 & H2 & F2).
  exists (e1 ++ e2)%list.
  destruct (f (extend st e1)) as [st2 [[]|e]]; simpl in H2; subst st2;
    rewrite extend_extend; (split; [done | by apply Forall_app]).
Qed.

(** The continuation of a call only runs on what the call returns. *)
Lemma emits_call_bind {A B} (ev : event) (r : result A) (k : A → M B) :
  P ev → (∀ a, r = Ret a → emits P (k a)) → emits P (call ev r ≫= k).
Proof.
  intros Hev Hk st. unfold mbind, M_bind, bind, call.
  fold (extend st [ev]). destruct r as [a|e].
  - destruct (Hk a eq_refl (extend st [ev])) as (evs & Hst & Hevs).
    exists (ev :: evs). rewrite Hst, extend_extend. split; [done | by constructor].
  - exists [ev]. split; [done | by constructor].
Qed.

Lemma emits_pick_bind {B} w d media_id (k : option string → M B) :
  (∀ files, w_iterdir w d = Ret files → emits P (k (pick_filename files media_id))) →
  emits P (pick_filename_from_dir w d media_id ≫= k).
Proof.
  intros Hk st. unfold mbind, M_bind, bind, pick_filename_from_dir.
  destruct (w_iterdir w d) as [files|e]; [by apply Hk |].
  exists []. by rewrite extend_nil.
Qed.

Lemma starts_call_bind {A B} (ev : event) (r : result A) (k : A → M B) :
  (∀ a, emits P (k a)) → starts_with ev (call ev r ≫= k).
Proof.
  intros Hk st. unfold mbind, M_bind, bind, call. fold (extend st [ev]).
  destruct r as [a|e]; [| by exists []].
  destruct (Hk a (extend st [ev])) as (evs & Hst & _).
  exists evs. by rewrite Hst, extend_extend.
Qed.

Lemma starts_bind {A B} (ev : event) (m : M A) (k : A → M B) :
  starts_with ev m → (∀ a, emits P (k a)) → starts_with ev (m ≫= k).
Proof.
  intros Hm Hk st. destruct (Hm st) as (e1 & H1).
  unfold mbind, M_bind, bind. destruct (m st) as [st1 [a|e]]; simpl in H1; subst st1.
  - destruct (Hk a (extend st (ev :: e1))) as (e2 & H2 & _).
    exists (e1 ++ e2)%list. by rewrite H2, extend_extend.
  - by exists e1.
Qed.

Lemma starts_try_except {A} (ev : event) (m : M A) (h : exn → M A) :
  starts_with ev m → (∀ e, emits P (h e)) → starts_with ev (try_except m h).
Proof.
  intros Hm Hh st. destruct (Hm st) as (e1 & H1).
  unfold try_except. destruct (m st) as [st1 [a|e]]; simpl in H1; subst st1.
  - by exists e1.
  - destruct (Hh e (extend st (ev :: e1))) as (e2 & H2 & _).
    exists (e1 ++ e2)%list. by rewrite H2, extend_extend.
Qed.

End emits_more.

(** ** When a file is uploaded *)

Section upload.

Lemma starts_pick_bind {B} (ev : event) w d media_id files (k : option string → M B) :
  w_iterdir w d = Ret files →
  starts_with ev (k (pick_filename files media_id)) →
  starts_with ev (pick_filename_from_dir w d media_id ≫= k).
Proof.
  intros Hit Hk st. unfold mbind, M_bind, bind, pick_filename_from_dir.
  rewrite Hit. apply Hk.
Qed.

Lemma starts_send w file caption :
  starts_with ESendAction (_send_with_retries_as_video_or_doc w file caption).
Proof.
  unfold _send_with_retries_as_video_or_doc.
  apply (starts_bind (fun _ => True)).
  - intros st. exists []. unfold ignoring_errors, try_except, call, ret.
    by destruct (w_send_action w) as [[]|e].
  - intros _. apply (emits_weaken _ delivery_event); [done |].
    apply emits_bind; [apply emits_video_attempts |].
    intros [s|]; [apply emits_ret | apply emits_document_attempts].
Qed.

Lemma extend_inj st a b : extend st a = extend st b → a = b.
Proof. unfold extend. intros H. injection H as H. by apply app_inv_head in H. Qed.

Lemma emits_edit P w s : P (EEditText s) → emits P (edit_text w s).
Proof. intros HP. unfold edit_text. by apply emits_call. Qed.

Lemma emits_ignoring_cleanup P w d : P (ECleanup d) → emits P (ignoring_errors (cleanup w d)).
Proof. intros HP. apply emits_ignoring. unfold cleanup. by apply emits_call. Qed.

(** Without a file to send, the block uploads nothing. *)
Lemma fetch_not_found_emits w url d height :
  ¬ file_found w d →
  emits (fun ev => is_upload ev = false) (fetch_and_deliver w url d height).
Proof.
  intros Hnot. unfold fetch_and_deliver. cbv zeta.
  apply emits_try_finally; [| by apply emits_ignoring_cleanup].
  apply emits_try_except; [| intros e; by apply emits_ignoring, emits_edit].
  unfold ytdlp_extract. apply emits_call_bind; [done |].
  intros [i|] Hex; [| by apply emits_edit].
  apply emits_pick_bind. intros files Hit.
  destruct (pick_filename files _) as [p|] eqn:Hp; [| by apply emits_edit].
  destruct (w_exists w p) eqn:Hx; simpl; [| by apply emits_edit].
  exfalso. apply Hnot. by exists i, files, p.
Qed.

(** With a file to send, the upload starts right after the download. *)
Lemma fetch_found_starts w url d height st :
  file_found w d →
  ∃ evs,
    (fetch_and_deliver w url d height st).1
    = extend st (EExtract url true (Some (build_format_string height)) d
                   :: ESendAction :: evs).
Proof.
  intros (i & files & p & Hex & Hit & Hp & Hx).
  unfold fetch_and_deliver, try_finally. cbv zeta.
  match goal with
  | |- context [mbind ?k (ytdlp_extract _ _ _ _ _)] => set (kk := k)
  end.
  assert (Hk : starts_with ESendAction (kk (Some i))).
  { subst kk. cbv beta iota.
    eapply starts_pick_bind; [exact Hit |]. rewrite Hp, Hx. simpl.
    apply (starts_try_except (fun _ => True)).
    - apply (starts_bind (fun _ => True)); [apply starts_send |].
      intros _. by apply emits_edit.
    - intros e. by apply emits_edit. }
  unfold try_except at 1, ytdlp_extract.
  unfold mbind at 1, M_bind at 1, bind at 1, call at 1. rewrite Hex.
  fold (extend st [EExtract url true (Some (build_format_string height)) d]).
  destruct (Hk (extend st [EExtract url true (Some (build_format_string height)) d]))
    as (e1 & H1).
  destruct (kk (Some i) _) as [st2 [[]|e]]; simpl in H1; subst st2.
  - rewrite ignoring_cleanup. exists (e1 ++ [ECleanup d])%list.
    cbn [fst]. by rewrite !extend_extend.
  - assert (Hh : emits (fun _ => True) (ignoring_errors (edit_text w (DownloadFailed e)))).
    { by apply emits_ignoring, emits_edit. }
    destruct (Hh (extend (extend st [EExtract url true (Some (build_format_string height)) d])
                    (ESendAction :: e1))) as (e2 & H2 & _).
    destruct (ignoring_errors _ _) as [st3 r3]. simpl in H2. subst st3.
    rewrite ignoring_cleanup. exists (e1 ++ e2 ++ [ECleanup d])%list.
    cbn [fst]. rewrite !extend_extend. simpl. by rewrite <- ?(assoc_L (++)%list).
Qed.

End upload.

(** X2.  Lines 305-340: the file is uploaded exactly when the download
    gave a file to send.  If the extractor fails or returns nothing, if
    the directory cannot be listed or is empty, or if the file picked
    does not exist, nothing of the upload happens (no chat action, no
    reply with a file, no sleep); otherwise the chat action of the
    upload follows the request to the extractor at once. *)
Theorem upload_iff_file_found (w : world) (url : string) (d : TemporaryDirectory)
    (height : option Z) (st : state) :
  ∃ evs,
    (fetch_and_deliver w url d height st).1 = extend st evs ∧
    (¬ file_found w d → Forall (fun ev => is_upload ev = false) evs) ∧
    (file_found w d →
     ∃ rest, evs = EExtract url true (Some (build_format_string height)) d
                     :: ESendAction :: rest).
Proof.
  destruct (fetch_and_deliver_trace w url d height st) as (evs0 & Hrun & _).
  eexists. split; [exact Hrun |]. split.
  - intros Hnot.
    destruct (fetch_not_found_emits w url d height Hnot st) as (evs & Hst & Hevs).
    rewrite Hrun in Hst. apply extend_inj in Hst. by rewrite Hst.
  - intros Hfound.
    destruct (fetch_found_starts w url d height st Hfound) as (evs & Hst).
    rewrite Hrun in Hst. apply extend_inj in Hst. by exists evs.
Qed.

Lemma upload_iff_file_found_example :
  file_found (calm_world Byte.x00 (nth_dir 1)) (nth_dir 0) ∧
  ∃ rest,
    trace (fetch_and_deliver (calm_world Byte.x00 (nth_dir 1)) "https://example.com/v"
             (nth_dir 0) None empty_state).1
    = EExtract "https://example.com/v" true (Some "bestvideo*+bestaudio/best") (nth_dir 0)
        :: ESendAction :: rest.
Proof.
  assert (Hfound : file_found (calm_world Byte.x00 (nth_dir 1)) (nth_dir 0)).
  { eexists _, ["clip123.mp4"], "clip123.mp4". repeat split; reflexivity. }
  split; [exact Hfound |].
  destruct (upload_iff_file_found (calm_world Byte.x00 (nth_dir 1)) "https://example.com/v"
              (nth_dir 0) None empty_state) as (evs & Hrun & _ & Hstart).
  destruct (Hstart Hfound) as (rest & Hevs).
  exists rest. rewrite Hrun, Hevs. reflexivity.
Defined.

(** ** What a selection does to the store *)

Section selection_store.

Lemma emits_fetch w url d height :
  emits (fun _ => True) (fetch_and_deliver w url d height).
Proof.
  intros st. destruct (fetch_and_deliver_trace w url d height st) as (evs & Hrun & _).
  eexists. split; [exact Hrun |]. apply Forall_forall. done.
Qed.

(** After [pop_job], nothing of the handler touches the store. *)
Lemma selection_store w token mode st :
  store_of (selection w token mode st).1 = (dict_pop token (store_of st)).2.
Proof.
  unfold selection. unfold mbind at 1. unfold M_bind at 1. unfold bind at 1.
  destruct (pop_job_run token st) as (Hret & _ & Hstore).
  destruct (pop_job token st) as [st1 r]. simpl in Hret, Hstore. subst r.
  rewrite <- Hstore. destruct (dict_get token (store_of st)) as [j|].
  - case_bool_decide.
    + apply (emits_store (fun _ => True)).
      apply emits_bind; [by apply emits_edit |].
      intros _. by apply emits_ignoring_cleanup.
    + apply (emits_store (fun _ => True)).
      apply emits_bind; [by apply emits_edit |]. intros _. apply emits_fetch.
  - apply (emits_store (fun _ => True)). by apply emits_edit.
Qed.

Lemma on_download_choice_store w query st :
  store_of (on_download_choice w query st).1 = store_of st
  ∨ ∃ q token mode,
      query = Some q ∧
      Py.split_max "|" 2 (default "" (data q)) = ["dl"; token; mode] ∧
      store_of (on_download_choice w query st).1 = (dict_pop token (store_of st)).2.
Proof.
  destruct query as [q|]; [| by left].
  remember (on_download_choice w (Some q) st) as run eqn:Hrun.
  unfold on_download_choice, mbind, M_bind, bind, call in Hrun.
  fold (extend st [EAnswer]) in Hrun.
  destruct (w_answer w) as [[]|e]; [| subst run; by left].
  assert (Hinvalid : store_of (edit_text w InvalidButtonData (extend st [EAnswer])).1
                     = store_of st).
  { etrans; [apply (emits_store (fun _ => True)); by apply emits_edit | done]. }
  destruct (Py.split_max "|" 2 (default "" (data q))) as [|tag [|token [|mode [|]]]] eqn:Hsplit;
    try (subst run; by left).
  cbv beta iota in Hrun.
  case_bool_decide as Htag; simpl in Hrun; subst run; [| by left].
  subst tag. right. exists q, token, mode. split; [done |]. split; [done |].
  by rewrite selection_store.
Qed.

End selection_store.

(** X3.  [on_download_choice] never adds a job to the store and never
    changes one: for every key, the job under it is the same after the
    run as before, unless the key is the token of the payload
    [dl|token|mode], whose job is taken out. *)
Theorem on_download_choice_takes_only_selected (w : world)
    (query : option CallbackQuery) (st : state) (k : string) :
  dict_wf (store_of st) →
  let st' := (on_download_choice w query st).1 in
  dict_wf (store_of st') ∧
  (dict_get k (store_of st') = dict_get k (store_of st)
   ∨ dict_get k (store_of st') = None
     ∧ ∃ q mode, query = Some q
                 ∧ Py.split_max "|" 2 (default "" (data q)) = ["dl"; k; mode]).
Proof.
  intros Hwf st'. subst st'.
  destruct (on_download_choice_store w query st)
    as [->|(q & token & mode & -> & Hsplit & ->)]; [by split; [| left] |].
  split; [by apply dict_wf_pop |].
  rewrite dict_get_pop by done. case_decide as Hk; [| by left].
  subst k. right. split; [done |]. by exists q, mode.
Qed.

Lemma on_download_choice_takes_only_selected_example :
  dict_wf (store_of one_job_state) ∧
  dict_get "AAAAAAAAAAA"
    (store_of (on_download_choice (calm_world Byte.x00 (nth_dir 1))
                 (Some {| data := Some "dl|BBBBBBBBBBB|best" |}) one_job_state).1)
  = dict_get "AAAAAAAAAAA" (store_of one_job_state).
Proof.
  assert (Hwf : dict_wf (store_of one_job_state)).
  { apply (bool_decide_unpack _). by vm_compute. }
  split; [exact Hwf |].
  destruct (on_download_choice_takes_only_selected (calm_world Byte.x00 (nth_dir 1))
              (Some {| data := Some "dl|BBBBBBBBBBB|best" |}) one_job_state
              "AAAAAAAAAAA" Hwf) as (_ & [Hsame|(_ & q & mode & Hq & Hsplit)]).
  - exact Hsame.
  - exfalso. injection Hq as <-. vm_compute in Hsplit. discriminate Hsplit.
Defined.

(** ** What a text message does to the store *)

Section text_store.

Lemma registry_ok_insert w url d store :
  dict_wf store →
  registry_ok
    (drop (length (dict_set (token_of w) {| job_url := url; job_tmpdir := d |} store) - 50)
       (dict_set (token_of w) {| job_url := url; job_tmpdir := d |} store)).
Proof.
  intros Hwf. set (store' := dict_set _ _ _). split.
  - unfold dict_wf, keys. rewrite fmap_drop.
    eapply sublist_NoDup; [| apply sublist_drop]. by apply dict_wf_set.
  - rewrite length_drop. lia.
Qed.

Lemma registry_ok_pop token store :
  registry_ok store → registry_ok (dict_pop token store).2.
Proof.
  intros [Hwf Hlen]. split; [by apply dict_wf_pop |].
  pose proof (sublist_length _ _ (keys_pop store token)) as Hsub.
  unfold keys in Hsub. rewrite !length_fmap in Hsub. lia.
Qed.

(** The text of a message: [message.text or message.caption or ""]. *)
Lemma handle_text_store w message st :
  dict_wf (store_of st) →
  store_of (handle_text w message st).1 = store_of st
  ∨ ∃ m url info,
      message = Some m ∧
      extract_first_url (str_or (default "" (msg_text m)) (default "" (msg_caption m)))
      = Some url ∧
      w_reply_text w Analysing = Ret tt ∧
      w_extract w false = Ret (Some info) ∧
      store_of (handle_text w message st).1
      = drop (length (dict_set (token_of w)
                        {| job_url := url; job_tmpdir := w_mkdtemp w |} (store_of st)) - 50)
          (dict_set (token_of w)
             {| job_url := url; job_tmpdir := w_mkdtemp w |} (store_of st)).
Proof.
  intros Hwf. destruct message as [m|]; [| by left].
  remember (handle_text w (Some m) st) as run eqn:Hrun.
  unfold handle_text in Hrun.
  destruct (extract_first_url _) as [url|] eqn:Hurl.
  2:{ subst run. left. etrans; [apply (emits_store (fun _ => True)) | done].
      unfold reply_text. by apply emits_call. }
  cbv [mbind M_bind bind reply_text call try_except ytdlp_extract edit_text cleanup]
    in Hrun.
  destruct (w_reply_text w Analysing) as [[]|e] eqn:Hreply; [| subst run; by left].
  destruct (w_extract w false) as [[info|]|e] eqn:Hextract.
  - rewrite store_new_job_run in Hrun by done.
    right. exists m, url, info. repeat (split; [done |]). subst run.
    cbn [store_of user_data trace fst snd] in *.
    destruct (w_edit_text w (Menu _ _ _)) as [[]|e]; [done |].
    destruct (w_edit_text w (AnalysisError e)) as [[]|e']; [| done].
    by destruct (w_cleanup w (w_mkdtemp w)).
  - subst run. left.
    destruct (w_edit_text w ProbeFailed) as [[]|e].
    + destruct (w_cleanup w (w_mkdtemp w)) as [[]|e]; [done |].
      cbn [fst snd user_data trace].
      destruct (w_edit_text w (AnalysisError e)) as [[]|e']; [| done].
      by destruct (w_cleanup w (w_mkdtemp w)).
    + cbn [fst snd user_data trace].
      destruct (w_edit_text w (AnalysisError e)) as [[]|e']; [| done].
      by destruct (w_cleanup w (w_mkdtemp w)).
  - subst run. left. cbn [fst snd user_data trace].
    destruct (w_edit_text w (AnalysisError e)) as [[]|e']; [| done].
    by destruct (w_cleanup w (w_mkdtemp w)).
Qed.

End text_store.



(** X5.  Whatever updates a conversation receives and whatever the
    outside answers, also when handlers raise, the store stays a
    dictionary with distinct tokens and at most 50 jobs. *)
Theorem handle_all_registry_ok (updates : list (world * update)) (st : state) :
  registry_ok (store_of st) →
  registry_ok (store_of (handle_all updates st)).
Proof.
  revert st. induction updates as [|[w u] updates IH]; intros st Hok; [done |].
  simpl. apply IH. destruct u as [message|query]; simpl.
  - destruct Hok as [Hwf Hlen].
    destruct (handle_text_store w message st Hwf)
      as [->|(m & url & info & _ & _ & _ & _ & ->)]; [done |].
    by apply registry_ok_insert.
  - destruct (on_download_choice_store w query st)
      as [->|(q & token & mode & _ & _ & ->)]; [done |].
    by apply registry_ok_pop.
Qed.

Lemma handle_all_registry_ok_example :
  let w := calm_world Byte.x01 (nth_dir 1) in
  let m := {| msg_text := Some "see https://example.com/w"; msg_caption := None |} in
  let q := {| data := Some "dl|AQEBAQEBAQE|h720" |} in
  registry_ok (store_of empty_state) ∧
  registry_ok (store_of (handle_all [(w, TextUpdate (Some m)); (w, CallbackUpdate (Some q))]
                           empty_state)).
Proof.
  intros w m q.
  assert (Hok : registry_ok (store_of empty_state)).
  { split; [apply NoDup_nil_2 | simpl; lia]. }
  split; [exact Hok |].
  apply (handle_all_registry_ok _ empty_state Hok).
Defined.





(** ** Numerals: [int] reads what [str] writes *)

Section numerals.

Lemma digit_not_space c : Py.isdigit c = true → Py.int_space c = false.
Proof.
  unfold Py.isdigit, Py.int_space. generalize (nat_of_ascii c). intros n H.
  apply andb_true_iff in H as [H1 H2]. apply Nat.leb_le in H1, H2.
  apply orb_false_iff. split.
  - apply andb_false_iff. right. apply Nat.leb_gt. lia.
  - apply Nat.eqb_neq. lia.
Qed.

Lemma rstrip_digits s :
  Forall (fun c => Py.isdigit c = true) (Py.chars s) → Py.rstrip s = s.
Proof.
  induction s as [|c s IH]; simpl; [done |].
  intros [Hc Hs]%Forall_cons. rewrite (IH Hs).
  destruct s; [| done]. by rewrite (digit_not_space c Hc).
Qed.

(** On a numeral without sign, [int] is the reading of its digits. *)
Lemma int_unsigned c s :
  Forall (fun c => Py.isdigit c = true) (Py.chars (String c s)) →
  Py.int (String c s) = Py.int_digits false 0 (String c s).
Proof.
  intros Hall. pose proof Hall as [Hc Hs]%Forall_cons.
  unfold Py.int. cbn [Py.lstrip]. rewrite (digit_not_space c Hc).
  rewrite (rstrip_digits _ Hall).
  destruct (Ascii.eqb_spec c "-") as [->|_]; [done |].
  destruct (Ascii.eqb_spec c "+") as [->|_]; done.
Qed.

Lemma int_negative c s :
  Forall (fun c => Py.isdigit c = true) (Py.chars (String c s)) →
  Py.int (String "-" (String c s)) = Z.opp <$> Py.int_digits false 0 (String c s).
Proof.
  intros Hall. unfold Py.int. cbn [Py.lstrip].
  change (Py.int_space "-") with false. cbv iota.
  change (Py.rstrip (String "-" (String c s)))
    with (match Py.rstrip (String c s) with
          | EmptyString => String "-" EmptyString
          | r => String "-" r
          end).
  by rewrite (rstrip_digits _ Hall).
Qed.

Lemma int_digits_uint after acc d :
  d ≠ Decimal.Nil ∨ after = true →
  Py.int_digits after acc (NilEmpty.string_of_uint d) = Some (uint_value acc d).
Proof.
  revert after acc. induction d; intros after acc Hd; simpl;
    try (apply IHd; by right).
  by destruct Hd as [?| ->].
Qed.

Lemma uint_value_acc d acc :
  Z.pos (Pos.of_uint_acc d acc) = uint_value (Z.pos acc) d.
Proof.
  revert acc. induction d; intros acc; simpl; [done | rewrite IHd; f_equal; lia..].
Qed.

Lemma uint_value_of_uint d : uint_value 0 d = Z.of_uint d.
Proof.
  unfold Z.of_uint. induction d; simpl; try done;
    by rewrite uint_value_acc.
Qed.

Lemma string_of_uint_shape d :
  ∃ c s, NilZero.string_of_uint d = String c s ∧
         Forall (fun c => Py.isdigit c = true) (Py.chars (String c s)) ∧
         Py.int_digits false 0 (String c s) = Some (Z.of_uint d).
Proof.
  assert (Hnil : d = Decimal.Nil
                 ∨ NilZero.string_of_uint d = NilEmpty.string_of_uint d ∧ d ≠ Decimal.Nil).
  { destruct d; first [by left | by right]. }
  destruct Hnil as [->|[Heq Hne]].
  - exists "0"%char, EmptyString. split; [done |]. split; [by repeat constructor | done].
  - rewrite Heq. pose proof (string_of_uint_digits d) as Hall.
    destruct (NilEmpty.string_of_uint d) as [|c s] eqn:Hs; [by destruct d |].
    exists c, s. split; [done |]. split; [done |].
    rewrite <- Hs, <- uint_value_of_uint. apply int_digits_uint. by left.
Qed.

(** [int(str(z)) == z]. *)
Lemma int_str (z : Z) : Py.int (Py.str z) = Some z.
Proof.
  rewrite <- (DecimalZ.of_to z) at 2. unfold Py.str, NilZero.string_of_int.
  destruct (Z.to_int z) as [d|d]; simpl Z.of_int;
    destruct (string_of_uint_shape d) as (c & s & -> & Hall & Hval).
  - by rewrite int_unsigned.
  - rewrite int_negative by done. by rewrite Hval.
Qed.

End numerals.

(** ** Buttons and payloads *)

Section buttons.

Lemma split_max_zero sep s : Py.split_max sep 0 s = [s].
Proof. by destruct s. Qed.

Lemma split_max_at sep n (a b : string) :
  sep ∉ Py.chars a →
  Py.split_max sep (S n) (a ++ String sep b) = a :: Py.split_max sep n b.
Proof.
  induction a as [|c a IH]; intros Hfree.
  - rewrite append_nil. simpl. by rewrite Ascii.eqb_refl.
  - simpl in Hfree. apply not_elem_of_cons in Hfree as [Hc Ha].
    rewrite append_cons. simpl.
    destruct (Ascii.eqb_spec c sep) as [->|_]; [done |]. by rewrite (IH Ha).
Qed.

(** The payload [dl|token|mode] is split back into its three fields,
    whatever the mode, when the token has no separator. *)
Lemma split_payload token mode :
  "|"%char ∉ Py.chars token →
  Py.split_max "|" 2 ("dl|" ++ token ++ "|" ++ mode) = ["dl"; token; mode].
Proof.
  intros Hfree.
  change ("dl|" ++ token ++ "|" ++ mode) with ("dl" ++ String "|" (token ++ String "|" mode)).
  rewrite split_max_at by (by apply (bool_decide_unpack _); vm_compute).
  rewrite split_max_at by done. by rewrite split_max_zero.
Qed.

Lemma token_no_bar w : "|"%char ∉ Py.chars (token_of w).
Proof.
  intros Hin. destruct (token_of_shape w) as [_ Hsafe].
  rewrite Forall_forall in Hsafe. by apply Hsafe in Hin.
Qed.

Lemma chosen_height_of_str (z : Z) : chosen_height ("h" ++ Py.str z) = Some z.
Proof.
  change ("h" ++ Py.str z) with (String "h" (Py.str z)).
  unfold chosen_height. rewrite bool_decide_eq_false_2 by done.
  change (Py.startswith "h" (String "h" (Py.str z))) with true.
  change (str_drop 1 (String "h" (Py.str z))) with (Py.str z).
  apply int_str.
Qed.

End buttons.

(** X8.  Every button of the menu leads back to what it stands for: its
    callback data is split by the handler into the tag [dl], the token
    of the menu and a mode; the mode of the button "best" is read as no
    height, and the mode of the button of a height shown is read by
    [int] as that very height. *)
Theorem menu_button_round_trip (w : world) (heights : list Z)
    (b : InlineKeyboardButton) :
  b ∈ concat (menu_buttons (token_of w) heights) →
  ∃ mode,
    Py.split_max "|" 2 (callback_data b) = ["dl"; token_of w; mode] ∧
    (b = best_button (token_of w) ∧ chosen_height mode = None
     ∨ ∃ h, h ∈ display_heights heights ∧ b = height_button (token_of w) h
            ∧ chosen_height mode = Some h).
Proof.
  rewrite menu_buttons_concat, elem_of_app, list_elem_of_fmap, list_elem_of_singleton.
  intros [(h & -> & Hh)| ->].
  - exists ("h" ++ Py.str h). split.
    + apply (split_payload (token_of w) ("h" ++ Py.str h)), token_no_bar.
    + right. exists h. split; [done |]. split; [done | apply chosen_height_of_str].
  - exists "best". split.
    + apply (split_payload (token_of w) "best"), token_no_bar.
    + by left.
Qed.

Lemma menu_button_round_trip_example :
  let w := calm_world Byte.x00 (nth_dir 1) in
  height_button (token_of w) 720 ∈ concat (menu_buttons (token_of w) [360; 720; 1080]) ∧
  ∃ mode,
    Py.split_max "|" 2 (callback_data (height_button (token_of w) 720))
    = ["dl"; token_of w; mode] ∧
    (height_button (token_of w) 720 = best_button (token_of w) ∧ chosen_height mode = None
     ∨ ∃ h, h ∈ display_heights [360; 720; 1080]
            ∧ height_button (token_of w) 720 = height_button (token_of w) h
            ∧ chosen_height mode = Some h).
Proof.
  intros w.
  assert (Hin : height_button (token_of w) 720
                ∈ concat (menu_buttons (token_of w) [360; 720; 1080])).
  { apply (bool_decide_unpack _). by vm_compute. }
  split; [exact Hin |].
  exact (menu_button_round_trip w [360; 720; 1080] _ Hin).
Defined.

(** ** The layout of the menu *)

Section layout.

Lemma fill_rows_rows token hs row buttons :
  (length row < 3)%nat →
  Forall (fun r : list InlineKeyboardButton => (1 ≤ length r ≤ 3)%nat) buttons →
  Forall (fun r : list InlineKeyboardButton => (1 ≤ length r ≤ 3)%nat)
    (fill_rows token hs row buttons).1
  ∧ (length (fill_rows token hs row buttons).2 < 3)%nat.
Proof.
  revert row buttons. induction hs as [|h hs IH]; intros row buttons Hrow Hbuttons;
    simpl; [done |].
  case_bool_decide as Hfull.
  - apply IH; [simpl; lia |]. apply Forall_app. split; [done |].
    apply Forall_singleton. lia.
  - apply IH; [| done]. rewrite length_app in *. simpl in *. lia.
Qed.

Lemma display_heights_sub heights h : h ∈ display_heights heights → h ∈ heights.
Proof.
  unfold display_heights.
  destruct (filter _ wanted) as [|x shown] eqn:Hshown.
  - case_bool_decide; [| done]. intros Hin.
    eapply elem_of_sublist; [exact Hin | apply sublist_drop].
  - rewrite <- Hshown. by intros [? _]%list_elem_of_filter.
Qed.

Lemma display_heights_length heights : (length (display_heights heights) ≤ 7)%nat.
Proof.
  unfold display_heights.
  destruct (filter _ wanted) as [|x shown] eqn:Hshown.
  - case_bool_decide; [rewrite length_drop |]; lia.
  - rewrite <- Hshown. etrans; [apply length_filter |]. done.
Qed.

Lemma display_heights_nil heights : display_heights heights = [] ↔ heights = [].
Proof.
  split; [| by intros ->].
  unfold display_heights. destruct (filter _ wanted) as [|x shown]; [| done].
  case_bool_decide as Hlen; [| done].
  intros Hnil. apply (f_equal length) in Hnil. rewrite length_drop in Hnil.
  simpl in Hnil. lia.
Qed.

Lemma fill_rows_full token hs row buttons :
  Forall (fun r : list InlineKeyboardButton => length r = 3%nat) buttons →
  Forall (fun r : list InlineKeyboardButton => length r = 3%nat)
    (fill_rows token hs row buttons).1.
Proof.
  revert row buttons. induction hs as [|h hs IH]; intros row buttons Hb; simpl; [done |].
  case_bool_decide as Hthree; apply IH; [| done].
  apply Forall_app. split; [done |]. by apply Forall_singleton.
Qed.

Lemma length_concat_full (rows : list (list InlineKeyboardButton)) :
  Forall (fun r : list InlineKeyboardButton => length r = 3%nat) rows →
  length (concat rows) = (3 * length rows)%nat.
Proof.
  induction 1 as [|r rows Hr _ IH]; [done |].
  simpl. rewrite length_app, IH, Hr. lia.
Qed.

End layout.

(** X9.  The keyboard of the menu has rows of one to three buttons; its
    last row is the single button "best" (text [Лучшее], callback data
    [dl|token|best]); it has one more button than heights shown, at
    most eight buttons in at most four rows. *)
Theorem menu_buttons_layout (token : string) (heights : list Z) :
  Forall (fun r : list InlineKeyboardButton => (1 ≤ length r ≤ 3)%nat)
    (menu_buttons token heights) ∧
  last (menu_buttons token heights)
  = Some [ {| btn_text := "Лучшее"; callback_data := "dl|" ++ token ++ "|best" |} ] ∧
  length (concat (menu_buttons token heights)) = S (length (display_heights heights)) ∧
  (length (concat (menu_buttons token heights)) ≤ 8)%nat ∧
  (length (menu_buttons token heights) ≤ 4)%nat.
Proof.
  assert (Hcount : length (concat (menu_buttons token heights))
                   = S (length (display_heights heights))).
  { rewrite menu_buttons_concat, length_app, length_fmap. simpl. lia. }
  pose proof (display_heights_length heights) as Hseven.
  pose proof (fill_rows_concat token (display_heights heights) [] []) as Hconcat.
  apply (f_equal length) in Hconcat.
  rewrite !length_app, length_fmap in Hconcat. simpl in Hconcat.
  unfold menu_buttons in *.
  destruct (fill_rows_rows token (display_heights heights) [] [])
    as [Hrows Hlast]; [simpl; lia | done |].
  pose proof (fill_rows_full token (display_heights heights) [] [] (Forall_nil_2 _))
    as Hfull.
  destruct (fill_rows token (display_heights heights) [] []) as [buttons row].
  simpl in Hrows, Hlast, Hconcat, Hfull.
  assert (Hall : Forall (fun r : list InlineKeyboardButton => (1 ≤ length r ≤ 3)%nat)
                   (match row with [] => buttons | _ => (buttons ++ [row])%list end
                    ++ [[best_button token]])%list).
  { apply Forall_app. split; [| apply Forall_singleton; simpl; lia].
    destruct row as [|b row]; [done |]. apply Forall_app. split; [done |].
    apply Forall_singleton. simpl in *. lia. }
  split; [exact Hall |]. split; [apply last_snoc |].
  split; [exact Hcount |]. split; [lia |].
  rewrite (length_concat_full buttons Hfull) in Hconcat.
  destruct row; rewrite !length_app; simpl in *; lia.
Qed.

(** X10.  The heights offered for the formats of a probe are heights of
    those formats, integers of at least 240, each offered once and at
    most seven of them; no height is offered exactly when no format has
    an integer height of at least 240. *)
Theorem offered_heights_available (formats : list format) (h : Z) :
  let offered := display_heights (unique_sorted_heights formats) in
  (h ∈ offered → 240 ≤ h ∧ ∃ f, f ∈ formats ∧ Py.as_int (fmt_height f) = Some h) ∧
  NoDup offered ∧
  (length offered ≤ 7)%nat ∧
  (offered = [] ↔
   ∀ f z, f ∈ formats → Py.as_int (fmt_height f) = Some z → z < 240).
Proof.
  intros offered. subst offered. split; [| split; [| split]].
  - intros Hin%display_heights_sub. by apply elem_of_unique_sorted_heights.
  - unfold display_heights.
    destruct (filter _ wanted) as [|x shown] eqn:Hshown.
    + pose proof (NoDup_unique_sorted_heights formats) as Hnd.
      case_bool_decide; [| done].
      eapply sublist_NoDup; [exact Hnd | apply sublist_drop].
    + rewrite <- Hshown. apply NoDup_filter.
      apply (bool_decide_unpack _). by vm_compute.
  - apply display_heights_length.
  - rewrite display_heights_nil. split.
    + intros Hnil f z Hf Hz. destruct (decide (z < 240)) as [|Hge]; [done |].
      assert (Hin : z ∈ unique_sorted_heights formats).
      { apply elem_of_unique_sorted_heights. split; [lia | by exists f]. }
      rewrite Hnil in Hin. by apply elem_of_nil in Hin.
    + intros Hlow. destruct (unique_sorted_heights formats) as [|z l] eqn:Hl; [done |].
      assert (Hin : z ∈ unique_sorted_heights formats).
      { rewrite Hl. apply elem_of_cons. by left. }
      apply elem_of_unique_sorted_heights in Hin as (Hge & f & Hf & Hz).
      specialize (Hlow f z Hf Hz). lia.
Qed.

(** ** The first link of a text *)

Section links.

Lemma str_take_drop n s : str_take n s ++ str_drop n s = s.
Proof.
  revert s. induction n as [|n IH]; intros [|c s]; try done.
  simpl. rewrite append_cons. by rewrite IH.
Qed.

Lemma str_drop_S n c s : str_drop (S n) (String c s) = str_drop n s.
Proof. done. Qed.

Lemma chars_str_take n s : Py.chars (str_take n s) = take n (Py.chars s).
Proof.
  revert s. induction n as [|n IH]; intros [|c s]; try done.
  simpl. by rewrite IH.
Qed.

Lemma length_append (a b : string) :
  String.length (a ++ b) = (String.length a + String.length b)%nat.
Proof. induction a as [|c a IH]; [done |]. rewrite append_cons. simpl. by rewrite IH. Qed.

Lemma no_space_app (a b : string) : no_space a → no_space b → no_space (a ++ b).
Proof. unfold no_space. rewrite chars_app. apply Forall_app_2. Qed.

(** [lower] and the comparison without case: a character is brought to
    a character that is not a capital exactly when the two are the same
    letter. *)
Lemma lower_same_letter c p : ¬ is_upper p → lower c = p ↔ same_letter c p.
Proof.
  intros Hp. unfold lower, same_letter, is_upper in *.
  destruct ((65 <=? nat_of_ascii c) && (nat_of_ascii c <=? 90))%nat eqn:Hc.
  - apply andb_true_iff in Hc as [H1%Nat.leb_le H2%Nat.leb_le]. split.
    + intros <-. right. left. split; [lia |].
      rewrite nat_ascii_embedding by lia. done.
    + intros [->|[[_ Heq]|[Hup _]]]; [exfalso; apply Hp; lia | | done].
      rewrite <- Heq. apply ascii_nat_embedding.
  - assert (Hlow : ¬ (65 ≤ nat_of_ascii c ≤ 90)%nat).
    { apply andb_false_iff in Hc as [H%Nat.leb_gt|H%Nat.leb_gt]; lia. }
    split; [intros ->; by left |].
    by intros [->|[[Hup _]|[Hup _]]].
Qed.

Lemma lower_same_nocase (l m : list ascii) :
  Forall (fun c => ¬ is_upper c) m →
  lower <$> l = m ↔ Forall2 same_letter l m.
Proof.
  revert m. induction l as [|c l IH]; intros [|p m] Hm.
  - split; [constructor | done].
  - split; [done | by intros ?%Forall2_nil_cons_inv].
  - split; [done | by intros ?%Forall2_cons_nil_inv].
  - apply Forall_cons in Hm as [Hp Hm]. rewrite fmap_cons, Forall2_cons.
    rewrite <- (IH m Hm), <- (lower_same_letter c p Hp).
    split; [intros Heq; by simplify_eq | by intros [-> ->]].
Qed.

Lemma lower_space c x :
  Ascii.eqb x (lower c) = true → Py.isspace x = false → Py.isspace c = false.
Proof.
  intros Heq%Ascii.eqb_eq Hx. subst x. unfold lower in Hx.
  destruct ((65 <=? nat_of_ascii c) && (nat_of_ascii c <=? 90))%nat eqn:Hupper; [| done].
  apply andb_true_iff in Hupper as [H1 H2]. apply Nat.leb_le in H1, H2.
  unfold Py.isspace. apply orb_false_iff.
  split; apply andb_false_iff; right; apply Nat.leb_gt; lia.
Qed.

(** A prefix matched without case: the text starts with as many
    characters, which [lower] brings to the prefix; none of them is
    whitespace when the prefix has none. *)
Lemma strip_prefix_nocase_Some p s rest :
  strip_prefix_nocase p s = Some rest →
  str_drop (String.length p) s = rest ∧
  lower <$> Py.chars (str_take (String.length p) s) = Py.chars p ∧
  (no_space p → no_space (str_take (String.length p) s)).
Proof.
  revert s. induction p as [|a p IH]; intros s Hstrip.
  - simpl in *. simplify_eq. repeat split; done.
  - destruct s as [|b s]; [done |]. simpl in Hstrip.
    destruct (Ascii.eqb a (lower b)) eqn:Hab; [| done].
    destruct (IH s Hstrip) as (Hdrop & Hlower & Hns).
    split; [done |]. split.
    + cbn [String.length str_take Py.chars]. rewrite fmap_cons, Hlower.
      f_equal. symmetry. by apply Ascii.eqb_eq.
    + intros Hp. unfold no_space in Hp. simpl in Hp.
      apply Forall_cons in Hp as [Ha Hp].
      unfold no_space. simpl. constructor; [by eapply lower_space | by apply Hns].
Qed.

Lemma strip_prefix_nocase_lower p pre rest :
  lower <$> Py.chars pre = Py.chars p → strip_prefix_nocase p (pre ++ rest) = Some rest.
Proof.
  revert p. induction pre as [|c pre IH]; intros [|a p] Heq; try done.
  cbn [Py.chars] in Heq. rewrite fmap_cons in Heq. simplify_eq.
  rewrite append_cons. cbn [strip_prefix_nocase].
  rewrite Ascii.eqb_refl. by apply IH.
Qed.

Lemma non_space_run_spec s :
  no_space (non_space_run s) ∧
  ∃ tail, s = non_space_run s ++ tail ∧
          (tail = "" ∨ ∃ c t, tail = String c t ∧ Py.isspace c = true).
Proof.
  induction s as [|c s [Hns (tail & Hs & Htail)]]; simpl.
  - split; [constructor |]. exists "". split; [done | by left].
  - destruct (Py.isspace c) eqn:Hc.
    + split; [constructor |]. exists (String c s). split; [done |].
      right. by exists c, s.
    + split; [by constructor |]. exists tail. split; [| done].
      rewrite append_cons. by rewrite <- Hs.
Qed.

Lemma not_upper_http : Forall (fun c => ¬ is_upper c) (Py.chars "http://").
Proof.
  cbn [Py.chars].
  repeat (apply Forall_cons_2; [intros [Hge Hle]; vm_compute in Hge, Hle; lia |]).
  apply Forall_nil_2.
Qed.

Lemma not_upper_https : Forall (fun c => ¬ is_upper c) (Py.chars "https://").
Proof.
  cbn [Py.chars].
  repeat (apply Forall_cons_2; [intros [Hge Hle]; vm_compute in Hge, Hle; lia |]).
  apply Forall_nil_2.
Qed.

(** Where the search finds the pattern, what it returns is a link, and
    it runs up to the end of the text or to the next whitespace. *)
Lemma scheme_length_Some s n :
  scheme_length s = Some n →
  let url := str_take n s ++ non_space_run (str_drop n s) in
  link url ∧ no_space url ∧
  ∃ tail, s = url ++ tail ∧
          (tail = "" ∨ ∃ c t, tail = String c t ∧ Py.isspace c = true).
Proof.
  assert (Hcase : ∀ p rest,
            strip_prefix_nocase p s = Some rest → no_space p →
            non_space_run rest ≠ "" →
            ∀ url, url = str_take (String.length p) s
                         ++ non_space_run (str_drop (String.length p) s) →
            (∃ body, url = str_take (String.length p) s ++ body
                     ∧ lower <$> Py.chars (str_take (String.length p) s) = Py.chars p
                     ∧ body ≠ "" ∧ no_space body) ∧
            no_space url ∧
            ∃ tail, s = url ++ tail ∧
                    (tail = "" ∨ ∃ c t, tail = String c t ∧ Py.isspace c = true)).
  { intros p rest Hstrip Hp Hrun url ->.
    destruct (strip_prefix_nocase_Some p s rest Hstrip) as (Hdrop & Hlower & Hns).
    rewrite Hdrop. destruct (non_space_run_spec rest) as (Hrs & tail & Hrest & Htail).
    split; [by exists (non_space_run rest) |].
    split; [apply no_space_app; [by apply Hns | done] |].
    exists tail. split; [| done].
    rewrite append_assoc, <- Hrest, <- Hdrop. by rewrite str_take_drop. }
  assert (Hhttp : no_space "http://") by (repeat constructor).
  assert (Hhttps : no_space "https://") by (repeat constructor).
  intros Hn url. unfold scheme_length in Hn.
  destruct (strip_prefix_nocase "https://" s) as [rest|] eqn:Hs.
  - destruct (non_space_run rest) eqn:Hrun; [done |]. simplify_eq.
    destruct (Hcase "https://" rest Hs Hhttps ltac:(by rewrite Hrun) url eq_refl)
      as ((body & Hurl & Hlower & Hbody & Hns) & H2 & H3).
    split; [| done]. exists (str_take 8 s), body. split; [exact Hurl |].
    split; [right; by apply lower_same_nocase; [apply not_upper_https |] | done].
  - destruct (strip_prefix_nocase "http://" s) as [rest|] eqn:Hs'; [| done].
    destruct (non_space_run rest) eqn:Hrun; [done |]. simplify_eq.
    destruct (Hcase "http://" rest Hs' Hhttp ltac:(by rewrite Hrun) url eq_refl)
      as ((body & Hurl & Hlower & Hbody & Hns) & H2 & H3).
    split; [| done]. exists (str_take 7 s), body. split; [exact Hurl |].
    split; [left; by apply lower_same_nocase; [apply not_upper_http |] | done].
Qed.

(** Where a link starts, the search finds the pattern. *)
Lemma link_scheme_length s u rest : s = u ++ rest → link u → scheme_length s ≠ None.
Proof.
  intros -> (scheme & body & -> & Hscheme & Hbody & Hns).
  rewrite append_assoc.
  assert (Hrun : non_space_run (body ++ rest) ≠ "").
  { destruct body as [|c body]; [done |]. rewrite append_cons. simpl.
    unfold no_space in Hns. simpl in Hns. apply Forall_cons in Hns as [Hc _].
    by rewrite Hc. }
  unfold scheme_length. destruct Hscheme as [Hhttp|Hhttps].
  - apply (lower_same_nocase _ _ not_upper_http) in Hhttp.
    destruct (strip_prefix_nocase "https://" (scheme ++ body ++ rest)) as [rest0|] eqn:Hs.
    + exfalso.
      destruct (strip_prefix_nocase_Some _ _ _ Hs) as (_ & Hlower & _).
      assert (Htake : lower <$> take 5 (Py.chars (scheme ++ body ++ rest))
                      = take 5 (Py.chars "http://")).
      { rewrite chars_app, <- Hhttp, <- fmap_take.
        rewrite take_app_le; [done |].
        apply (f_equal length) in Hhttp. rewrite length_fmap in Hhttp.
        rewrite Hhttp. simpl. lia. }
      assert (Htake' : lower <$> take 5 (Py.chars (scheme ++ body ++ rest))
                       = take 5 (Py.chars "https://")).
      { rewrite <- Hlower, <- fmap_take, chars_str_take, take_take. done. }
      rewrite Htake in Htake'. discriminate Htake'.
    + rewrite (strip_prefix_nocase_lower "http://" scheme _ Hhttp).
      by destruct (non_space_run (body ++ rest)).
  - apply (lower_same_nocase _ _ not_upper_https) in Hhttps.
    rewrite (strip_prefix_nocase_lower "https://" scheme _ Hhttps).
    by destruct (non_space_run (body ++ rest)).
Qed.

Lemma extract_first_url_search text : extract_first_url text = url_search text.
Proof. by destruct text. Qed.

(** The search goes from the left and stops at the first match. *)
Lemma url_search_Some s url :
  url_search s = Some url →
  ∃ i n, (i ≤ String.length s)%nat ∧
         scheme_length (str_drop i s) = Some n ∧
         url = str_take n (str_drop i s) ++ non_space_run (str_drop n (str_drop i s)) ∧
         s = str_take i s ++ str_drop i s ∧
         ∀ k, (k < i)%nat → scheme_length (str_drop k s) = None.
Proof.
  induction s as [|c s IH].
  - simpl. destruct (scheme_length "") as [n|] eqn:Hn; [| done].
    intros Heq. exists 0%nat, n. simplify_eq; repeat split; try done; lia.
  - simpl. destruct (scheme_length (String c s)) as [n|] eqn:Hn.
    + intros Heq. exists 0%nat, n. simpl str_drop.
      simplify_eq. repeat split; try done; lia.
    + intros Hs. destruct (IH Hs) as (i & n & Hi & Hsch & Hurl & Hsplit & Hleft).
      exists (S i), n. rewrite str_drop_S. repeat split; try done.
      * simpl. lia.
      * simpl. rewrite append_cons. by rewrite <- Hsplit.
      * intros [|k] Hk; [done |]. rewrite str_drop_S. apply Hleft. lia.
Qed.

Lemma url_search_None s :
  url_search s = None → ∀ k, scheme_length (str_drop k s) = None.
Proof.
  induction s as [|c s IH]; simpl.
  - destruct (scheme_length "") eqn:Hn; [done |]. intros _ k. by destruct k.
  - destruct (scheme_length (String c s)) eqn:Hn; [done |].
    intros Hs [|k]; [done |]. rewrite str_drop_S. by apply IH.
Qed.

End links.

(** X11.  [extract_first_url] on ASCII text.  A link found is a piece of
    the text that the pattern matches: [http://] or [https://] in any
    case of the letters, then one or more characters that are not
    whitespace; it has no whitespace, and it runs up to the end of the
    text or the next whitespace; the pattern matches nothing that starts
    before it.  When no link is found, the pattern matches nothing in
    the text, wherever it starts. *)
Theorem extract_first_url_sound (text : string) :
  ascii_text text →
  match extract_first_url text with
  | Some url =>
      link url ∧ no_space url ∧
      ∃ i tail,
        (i ≤ String.length text)%nat ∧
        text = str_take i text ++ url ++ tail ∧
        (tail = "" ∨ ∃ c t, tail = String c t ∧ Py.isspace c = true) ∧
        ∀ k, (k < i)%nat → ¬ link_at k text
  | None => ∀ k, ¬ link_at k text
  end.
Proof.
  intros _. rewrite extract_first_url_search.
  destruct (url_search text) as [url|] eqn:Hsearch.
  - destruct (url_search_Some text url Hsearch)
      as (i & n & Hi & Hsch & Hurl & Hsplit & Hleft).
    destruct (scheme_length_Some _ n Hsch) as (Hlink & Hns & tail & Htext & Htail).
    rewrite <- Hurl in *.
    split; [done |]. split; [done |]. exists i, tail.
    split; [done |]. split; [by rewrite <- Htext |]. split; [done |].
    intros k Hk (u & rest & Hdrop & Hu).
    by apply (link_scheme_length _ u rest Hdrop Hu), Hleft.
  - intros k (u & rest & Hdrop & Hu).
    by apply (link_scheme_length _ u rest Hdrop Hu), url_search_None.
Qed.

Lemma extract_first_url_sound_example :
  ascii_text "check this out HTTPS://example.com/clip123 now" ∧
  extract_first_url "check this out HTTPS://example.com/clip123 now"
  = Some "HTTPS://example.com/clip123" ∧
  link "HTTPS://example.com/clip123".
Proof.
  assert (Hascii : ascii_text "check this out HTTPS://example.com/clip123 now").
  { unfold ascii_text. simpl. repeat constructor; simpl; lia. }
  split; [exact Hascii |]. split; [reflexivity |].
  pose proof (extract_first_url_sound _ Hascii) as Hsound.
  change (extract_first_url "check this out HTTPS://example.com/clip123 now")
    with (Some "HTTPS://example.com/clip123") in Hsound.
  exact (proj1 Hsound).
Defined.

(** ** The file picked from the directory *)

Section picked.

Lemma filter_head {A} (P : A → bool) (l : list A) p rest :
  filter (fun x => P x) l = p :: rest →
  P p = true ∧
  ∃ before after, l = (before ++ p :: after)%list ∧ ∀ q, q ∈ before → P q = false.
Proof.
  induction l as [|x l IH]; [done |].
  rewrite filter_cons. destruct (decide (P x)) as [Hx|Hx].
  - intros Heq. simplify_eq. split; [by apply Is_true_true |].
    exists [], l. split; [done |]. intros q Hq. by apply elem_of_nil in Hq.
  - intros Heq. destruct (IH Heq) as (Hp & before & after & Hl & Hbefore).
    split; [done |]. exists (x :: before), after. split; [by rewrite Hl |].
    intros q [->|Hq]%elem_of_cons; [| by apply Hbefore].
    by apply Is_true_false_1.
Qed.

Lemma filter_none {A} (P : A → bool) (l : list A) :
  filter (fun x => P x) l = [] → ∀ q, q ∈ l → P q = false.
Proof.
  intros Hnil q Hq. destruct (P q) eqn:HP; [| done].
  assert (Hin : q ∈ filter (fun x => P x) l).
  { apply list_elem_of_filter. split; [by apply Is_true_true | done]. }
  rewrite Hnil in Hin. by apply elem_of_nil in Hin.
Qed.

End picked.

(** X12.  [pick_filename_from_dir], on the listing of the directory:
    nothing is picked only from an empty directory; what is picked is a
    file of the directory; with a media id it is the first file whose
    name contains the id, and the first file of the listing when there
    is no id or no name contains it. *)
Theorem pick_filename_first_match (files : list string) (media_id : string) :
  (pick_filename files media_id = None ↔ files = []) ∧
  (∀ p, pick_filename files media_id = Some p →
        p ∈ files ∧
        ((media_id ≠ "" ∧ Py.contains media_id p = true ∧
          ∃ before after, files = (before ++ p :: after)%list ∧
                          ∀ q, q ∈ before → Py.contains media_id q = false)
         ∨ (head files = Some p ∧
            (media_id = "" ∨ ∀ q, q ∈ files → Py.contains media_id q = false)))).
Proof.
  split.
  - unfold pick_filename. destruct files as [|first rest]; [done |].
    destruct media_id; [done |].
    by destruct (filter _ _).
  - intros p. unfold pick_filename. destruct files as [|first rest]; [done |].
    destruct media_id as [|c media_id].
    + intros Heq. simplify_eq. split; [by left |].
      right. split; [done | by left].
    + destruct (filter _ _) as [|p' matches] eqn:Hfilter.
      * intros Heq. simplify_eq. split; [by left |].
        right. split; [done |]. right.
        by apply (filter_none (Py.contains (String c media_id))).
      * intros Heq. simplify_eq.
        destruct (filter_head (Py.contains (String c media_id)) _ _ _ Hfilter)
          as (Hp & before & after & Hfiles & Hbefore).
        split.
        { rewrite Hfiles. apply elem_of_app. right. by left. }
        left. split; [done |]. split; [done |]. by exists before, after.
Qed.

(** ** Bounds of the delivery *)

Ltac run_delivery :=
  cbv [_send_with_retries_as_video_or_doc video_attempts video_attempt
       document_attempts document_attempt
       mbind M_bind bind try_except ignoring_errors call ret raise seq].

(** The next answer of the chat that the run depends on. *)
Ltac next_answer w :=
  match goal with
  | |- context [w_send_action w] =>
      destruct (w_send_action w) as [[]|[]] eqn:?
  | |- context [w_reply_video w 0] =>
      destruct (w_reply_video w 0) as [[]|[]] eqn:?
  | |- context [w_reply_video w 1] =>
      destruct (w_reply_video w 1) as [[]|[]] eqn:?
  | |- context [w_reply_video w 2] =>
      destruct (w_reply_video w 2) as [[]|[]] eqn:?
  | |- context [w_reply_document w 0] =>
      destruct (w_reply_document w 0) as [[]|[]] eqn:?
  | |- context [w_reply_document w 1] =>
      destruct (w_reply_document w 1) as [[]|[]] eqn:?
  | |- context [w_reply_document w 2] =>
      destruct (w_reply_document w 2) as [[]|[]] eqn:?
  end; cbn [bool_decide decide_rel fst snd]; simpl.

Ltac attempt_number :=
  first [ solve [exists 0%nat; repeat split; (done || congruence)]
        | solve [exists 1%nat; repeat split; (done || congruence)]
        | solve [exists 2%nat; repeat split; (done || congruence)] ].

(** X13.  [_send_with_retries_as_video_or_doc], whatever the answers of
    the chat: the chat action is sent once, first, and its failure is
    ignored; every later call is a reply with the file as a video or as
    a document, or a sleep of 2 or 4 seconds.  The file is sent at most
    three times as a video and at most three times as a document, with
    at most twelve seconds of sleep.  The call never ends without having
    sent the file or raised: when it returns, the last attempt went
    through, and no document was tried if that was a video; a document
    is tried only after a video attempt that failed; what is raised is
    what the last document attempt raised, and a timeout only that of
    the third. *)
Theorem delivery_bounds (w : world) (file caption : string) (st : state) :
  let run := _send_with_retries_as_video_or_doc w file caption st in
  ∃ evs,
    run.1 = extend st (ESendAction :: evs) ∧
    (ESendAction ∉ evs) ∧
    Forall (fun ev => ev = EReplyVideo file caption ∨ ev = EReplyDocument file caption
                      ∨ ev = ESleep 2 ∨ ev = ESleep 4) evs ∧
    (count_events is_video evs ≤ 3)%nat ∧
    (count_events is_document evs ≤ 3)%nat ∧
    0 ≤ slept evs ≤ 12 ∧
    match run.2 with
    | Ret (Some AsVideo) =>
        count_events is_document evs = 0%nat ∧
        ∃ n, count_events is_video evs = S n ∧ w_reply_video w n = Ret tt
    | Ret (Some AsDocument) =>
        (∃ m, count_events is_video evs = S m ∧ w_reply_video w m ≠ Ret tt) ∧
        ∃ n, count_events is_document evs = S n ∧ w_reply_document w n = Ret tt
    | Ret None => False
    | Raise e =>
        (∃ m, count_events is_video evs = S m ∧ w_reply_video w m ≠ Ret tt) ∧
        ∃ n, count_events is_document evs = S n ∧
             w_reply_document w n = Raise e ∧ (e = TimedOut → n = 2%nat)
    end.
Proof.
  intros run. subst run. run_delivery. repeat next_answer w.
  all: eexists; split;
    [ unfold extend; cbn [user_data trace]; f_equal;
      rewrite <- ?(assoc_L (++)%list); simpl; reflexivity |].
  all: split;
    [ intros Hin; repeat (apply elem_of_cons in Hin as [Hin|Hin]; [discriminate Hin |]);
      by apply elem_of_nil in Hin |].
  all: split;
    [ repeat (apply Forall_cons_2;
              [first [ by left | by right; left | by right; right; left
                     | by right; right; right ] |]);
      apply Forall_nil_2 |].
  all: split; [vm_compute; lia |].
  all: split; [vm_compute; lia |].
  all: split; [by vm_compute |].
  all: repeat split; try done; attempt_number.
Qed.

(** ** A job stored and taken *)

Section round_trip.

Lemma dict_pop_last (store : dl_store) k v :
  k ∉ keys store → (dict_pop k (store ++ [(k, v)])%list).2 = store.
Proof.
  induction store as [|[k' v'] store IH]; simpl.
  - intros _. by rewrite bool_decide_eq_true_2.
  - rewrite not_elem_of_cons. intros [Hne Hnotin].
    rewrite bool_decide_eq_false_2 by done. specialize (IH Hnotin).
    destruct (dict_pop k (store ++ [(k, v)])%list). simpl in *. by rewrite IH.
Qed.

End round_trip.

(** X14.  A job stored by [store_new_job] is what [pop_job] gives for
    the returned token, and the token is then no longer in the store.
    With fewer than 50 jobs in the store the other tokens keep their
    jobs, and if the token was new the store is as it was before the
    job was stored. *)
Theorem store_then_pop (w : world) (url : string) (tmpdir : TemporaryDirectory)
    (st : state) :
  registry_ok (store_of st) →
  let stored := store_new_job w url tmpdir st in
  let taken := pop_job (token_of w) stored.1 in
  stored.2 = Ret (token_of w) ∧
  taken.2 = Ret (Some {| job_url := url; job_tmpdir := tmpdir |}) ∧
  dict_get (token_of w) (store_of taken.1) = None ∧
  ((length (store_of st) < 50)%nat →
   (∀ k, k ≠ token_of w → dict_get k (store_of taken.1) = dict_get k (store_of st)) ∧
   (token_of w ∉ keys (store_of st) → store_of taken.1 = store_of st)).
Proof.
  intros [Hwf Hlen] stored taken. subst taken stored.
  pose proof (store_new_job_present w url tmpdir st Hwf Hlen) as Hpresent.
  pose proof (registry_ok_insert w url tmpdir (store_of st) Hwf) as [Hwf' _].
  rewrite (store_new_job_run w url tmpdir st Hwf) in *.
  cbn [fst snd] in *.
  set (job := {| job_url := url; job_tmpdir := tmpdir |}) in *.
  set (st1 := {| user_data := _; trace := _ |}) in *.
  assert (Hst1 : store_of st1
                 = drop (length (dict_set (token_of w) job (store_of st)) - 50)
                     (dict_set (token_of w) job (store_of st))) by done.
  destruct (pop_job_run (token_of w) st1) as (Hret & _ & Hstore).
  split; [done |]. split; [by rewrite Hret, Hpresent |].
  rewrite Hstore, Hst1. split.
  - rewrite dict_get_pop by done. by rewrite decide_True.
  - intros Hroom.
    assert (Hkeep : (length (dict_set (token_of w) job (store_of st)) - 50 = 0)%nat).
    { rewrite length_dict_set. case_decide; lia. }
    rewrite Hkeep, drop_0. split.
    + intros k Hk. rewrite dict_get_pop by (by apply dict_wf_set).
      rewrite decide_False by done. rewrite dict_get_set. by rewrite decide_False.
    + intros Hfresh. rewrite dict_set_fresh by done. by apply dict_pop_last.
Qed.

Lemma store_then_pop_example :
  let w := calm_world Byte.x01 (nth_dir 1) in
  registry_ok (store_of one_job_state) ∧
  (pop_job (token_of w)
     (store_new_job w "https://example.com/w" (nth_dir 1) one_job_state).1).2
  = Ret (Some {| job_url := "https://example.com/w"; job_tmpdir := nth_dir 1 |}).
Proof.
  intros w.
  assert (Hok : registry_ok (store_of one_job_state)).
  { split; [apply (bool_decide_unpack _); by vm_compute | simpl; lia]. }
  split; [exact Hok |].
  apply (store_then_pop w "https://example.com/w" (nth_dir 1) one_job_state Hok).
Defined.

(** X15.  A selection that [on_download_choice] accepts: the query is
    acknowledged, the payload is [dl|token|mode] with a mode of at most
    4300 ASCII characters (as the buttons of the menu have it; beyond
    that [int] refuses a numeral), the token has a job in the store and
    the notice of the download goes through.  The handler
    then returns without raising, whatever the extractor, the file
    system and the chat answer afterwards; the job is no longer in the
    store; the download is requested for the job's link, in the job's
    directory, with the format of the chosen height; and the last call
    is the release of the job's directory, which is released exactly
    once. *)
Theorem on_download_choice_live (w : world) (q : CallbackQuery) (st : state)
    (token mode : string) (j : job) :
  Py.split_max "|" 2 (default "" (data q)) = ["dl"; token; mode] →
  ascii_text mode →
  (String.length mode ≤ 4300)%nat →
  dict_wf (store_of st) →
  dict_get token (store_of st) = Some j →
  job_url j ≠ "" →
  w_answer w = Ret tt →
  w_edit_text w (Downloading (job_url j)) = Ret tt →
  let run := on_download_choice w (Some q) st in
  run.2 = Ret tt ∧
  dict_get token (store_of run.1) = None ∧
  (∃ evs,
     trace run.1
     = (trace st
        ++ [EAnswer; EEditText (Downloading (job_url j));
            EExtract (job_url j) true
              (Some (build_format_string (chosen_height mode))) (job_tmpdir j)]
        ++ evs ++ [ECleanup (job_tmpdir j)])%list ∧
     Forall delivery_event evs) ∧
  releases (job_tmpdir j) (trace run.1) = S (releases (job_tmpdir j) (trace st)).
Proof.
  intros Hsplit _ _ Hwf Hget Hurl Hanswer Hedit run. subst run.
  assert (Hstore : store_of (on_download_choice w (Some q) st).1
                   = (dict_pop token (store_of st)).2).
  { rewrite (on_download_choice_parsed w q st token mode Hsplit Hanswer).
    by rewrite selection_store. }
  assert (Hrun : on_download_choice w (Some q) st
                 = fetch_and_deliver w (job_url j) (job_tmpdir j) (chosen_height mode)
                     (extend (pop_job token (extend st [EAnswer])).1
                        [EEditText (Downloading (job_url j))])).
  { rewrite (on_download_choice_parsed w q st token mode Hsplit Hanswer).
    by apply selection_live. }
  split; [rewrite Hrun; apply fetch_and_deliver_returns |].
  split; [rewrite Hstore, dict_get_pop by done; by rewrite decide_True |].
  destruct (pop_job_run token (extend st [EAnswer])) as (_ & Htrace & _).
  destruct (fetch_and_deliver_trace w (job_url j) (job_tmpdir j) (chosen_height mode)
              (extend (pop_job token (extend st [EAnswer])).1
                 [EEditText (Downloading (job_url j))])) as (evs & Hevs & Hdelivery).
  assert (Htr : trace (on_download_choice w (Some q) st).1
                = (trace st
                   ++ [EAnswer; EEditText (Downloading (job_url j));
                       EExtract (job_url j) true
                         (Some (build_format_string (chosen_height mode))) (job_tmpdir j)]
                   ++ evs ++ [ECleanup (job_tmpdir j)])%list).
  { rewrite Hrun, Hevs. cbn [extend trace]. rewrite Htrace. cbn [extend trace].
    rewrite <- !(assoc_L (++)%list). done. }
  split; [by exists evs |].
  rewrite Htr, !releases_app, !releases_cons, releases_nil.
  rewrite (releases_delivery _ evs Hdelivery). simpl.
  rewrite bool_decide_eq_true_2 by done. lia.
Qed.

Lemma on_download_choice_live_example :
  let w := calm_world Byte.x00 (nth_dir 1) in
  let q := {| data := Some "dl|AAAAAAAAAAA|h720" |} in
  ascii_text "h720" ∧
  (String.length "h720" ≤ 4300)%nat ∧
  dict_wf (store_of one_job_state) ∧
  (on_download_choice w (Some q) one_job_state).2 = Ret tt ∧
  releases (nth_dir 0) (trace (on_download_choice w (Some q) one_job_state).1) = 1%nat.
Proof.
  intros w q.
  assert (Hascii : ascii_text "h720").
  { unfold ascii_text. simpl. repeat constructor; simpl; lia. }
  assert (Hshort : (String.length "h720" ≤ 4300)%nat) by (simpl; lia).
  assert (Hwf : dict_wf (store_of one_job_state)).
  { apply (bool_decide_unpack _). by vm_compute. }
  destruct (on_download_choice_live w q one_job_state "AAAAAAAAAAA" "h720"
              {| job_url := "https://example.com/v"; job_tmpdir := nth_dir 0 |}
              eq_refl Hascii Hshort Hwf eq_refl ltac:(discriminate) eq_refl eq_refl)
    as (Hret & _ & _ & Hrel).
  split; [exact Hascii |]. split; [exact Hshort |]. split; [exact Hwf |].
  split; [exact Hret | exact Hrel].
Defined.



(** ** The size of the callback data *)

Section payload_size.

Lemma length_string_of_uint d :
  String.length (NilEmpty.string_of_uint d) = Decimal.nb_digits d.
Proof. induction d; simpl; congruence. Qed.

Lemma uint_value_lower d acc :
  0 ≤ acc → acc * 10 ^ Z.of_nat (Decimal.nb_digits d) ≤ uint_value acc d.
Proof.
  revert acc. induction d as [|d IH|d IH|d IH|d IH|d IH|d IH|d IH|d IH|d IH|d IH];
    intros acc Hacc; [simpl; lia | ..];
    cbn [Decimal.nb_digits uint_value];
    rewrite Nat2Z.inj_succ, Z.pow_succ_r by lia;
    pose proof (Z.pow_nonneg 10 (Z.of_nat (Decimal.nb_digits d)) ltac:(lia)) as Hpow;
    (eapply Z.le_trans; [| apply IH; lia]); nia.
Qed.

(** The numeral of a positive number does not start with [0]. *)
Lemma to_uint_head p :
  match Pos.to_uint p with Decimal.Nil | Decimal.D0 _ => False | _ => True end.
Proof.
  pose proof (DecimalPos.Unsigned.to_of (Pos.to_uint p)) as Hnorm.
  rewrite DecimalPos.Unsigned.of_to in Hnorm.
  change (N.to_uint (N.pos p)) with (Pos.to_uint p) in Hnorm.
  pose proof (DecimalPos.Unsigned.to_uint_nonnil p) as Hnil.
  pose proof (DecimalPos.Unsigned.to_uint_nonzero p) as Hzero.
  destruct (Pos.to_uint p) as [|d| | | | | | | | |]; try done.
  rewrite DecimalFacts.unorm_D0 in Hnorm. unfold Decimal.unorm in Hnorm.
  destruct (Decimal.nzhead d) eqn:Hhead; try done.
  by apply DecimalFacts.nzhead_nonzero in Hhead.
Qed.

(** A positive number below [10 ^ n] is written with at most [n] digits. *)
Lemma str_length (z : Z) (n : nat) :
  0 < z < 10 ^ Z.of_nat n → (String.length (Py.str z) ≤ n)%nat.
Proof.
  intros [Hpos Hlt]. destruct z as [|p|p]; try lia.
  unfold Py.str. change (Z.to_int (Z.pos p)) with (Decimal.Pos (Pos.to_uint p)).
  assert (Hvalue : uint_value 0 (Pos.to_uint p) = Z.pos p).
  { rewrite uint_value_of_uint. unfold Z.of_uint.
    by rewrite DecimalPos.Unsigned.of_to. }
  pose proof (to_uint_head p) as Hhead.
  assert (Hdigits : ∀ d k, 1 ≤ k → uint_value k d = Z.pos p →
                           (S (Decimal.nb_digits d) ≤ n)%nat).
  { intros d k Hk Hd.
    pose proof (uint_value_lower d k ltac:(lia)) as Hlow.
    pose proof (Z.pow_pos_nonneg 10 (Z.of_nat (Decimal.nb_digits d))
                  ltac:(lia) ltac:(lia)) as Hpow.
    assert (Hlt' : 10 ^ Z.of_nat (Decimal.nb_digits d) < 10 ^ Z.of_nat n) by nia.
    apply Z.pow_lt_mono_r_iff in Hlt'; lia. }
  destruct (Pos.to_uint p) as [|d|d|d|d|d|d|d|d|d|d]; try done;
    cbn [NilZero.string_of_int NilZero.string_of_uint NilEmpty.string_of_uint
         String.length];
    rewrite length_string_of_uint;
    cbn [uint_value] in Hvalue; (eapply Hdigits; [| exact Hvalue]; lia).
Qed.

End payload_size.

(** X17.  The callback data of every button of the menu fits in 64
    bytes, as long as the heights of the formats have at most 48
    digits: it is [dl|], the 11 characters of the token, and [|best] or
    [|h] and the height. *)
Theorem callback_data_fits (w : world) (formats : list format)
    (b : InlineKeyboardButton) :
  (∀ f z, f ∈ formats → Py.as_int (fmt_height f) = Some z → z < 10 ^ 48) →
  b ∈ concat (menu_buttons (token_of w) (unique_sorted_heights formats)) →
  (String.length (callback_data b) ≤ 64)%nat.
Proof.
  intros Hbound.
  rewrite menu_buttons_concat, elem_of_app, list_elem_of_fmap, list_elem_of_singleton.
  destruct (token_of_shape w) as [Htoken _].
  intros [(h & -> & Hh)| ->]; cbn [callback_data height_button best_button];
    rewrite !length_append, Htoken.
  - apply display_heights_sub, elem_of_unique_sorted_heights in Hh
      as (Hge & f & Hf & Hheight).
    pose proof (str_length h 48 ltac:(split; [lia | by apply (Hbound f)])) as Hlen.
    change (String.length "dl|") with 3%nat.
    change (String.length "|h") with 2%nat. lia.
  - change (String.length "dl|") with 3%nat.
    change (String.length "|best") with 5%nat. lia.
Qed.

Lemma callback_data_fits_example :
  let formats := [{| fmt_height := Py.VInt 720 |}; {| fmt_height := Py.VInt 1080 |}] in
  let w := calm_world Byte.x00 (nth_dir 1) in
  (String.length (callback_data (height_button (token_of w) 1080)) ≤ 64)%nat.
Proof.
  intros formats w.
  apply (callback_data_fits w formats).
  - intros f z Hf Hz.
    apply elem_of_cons in Hf as [->|Hf]; [simpl in Hz; simplify_eq; lia |].
    apply elem_of_cons in Hf as [->|Hf]; [simpl in Hz; simplify_eq; lia |].
    by apply elem_of_nil in Hf.
  - apply (bool_decide_unpack _). by vm_compute.
Defined.
